(** * Intro to PyTorch notebooks: training, inference and validation

    A verification development for the two exercise notebooks

      - [Part 3 - Training Neural Networks (Exercises).ipynb]
      - [Part 5 - Inference and Validation (Exercises).ipynb]

    The notebooks are sequences of calls into PyTorch.  The framework itself
    (autograd, the optimizer update rule, the layers' arithmetic, the random
    number generator) is kept abstract: it enters the development as section
    variables.  What is modelled concretely is what the notebooks' own code
    relies on: the image transform, the batches of a data loader, tensor
    shapes, indexing, [view], [flatten], [resize_], broadcasting of [==],
    [topk(1)], [mean], the accumulation of [.grad], the train/eval flag,
    [torch.no_grad()], the protocol of the [for] statement ([iter], [next],
    [StopIteration]), and the order and failure behaviour of the calls.
    Autograd is modelled concretely once, on the two operations of the
    small example of Part 3.

    Floating point numbers are modelled by rationals ([Q]). *)

From Stdlib Require Import List Arith ZArith QArith Qfield Lia Bool Permutation.
Import ListNotations.

Set Implicit Arguments.
Local Open Scope nat_scope.

(** ** Exceptions raised by the framework or by Python *)

(** What torch reports as a [RuntimeError]. *)
Inductive runtime_error : Type :=
| InvalidShape        (* view: shape is invalid for input of that size *)
| NotBroadcastable    (* ==: the sizes of the tensors must match *)
| RankNotModelled     (* ==: tensors of rank above 2 are not modelled *)
| IndexOutOfRange     (* topk: selected index k out of range *)
| NoGradFn.           (* backward: the tensor does not require grad *)

Inductive exn : Type :=
| RuntimeError (why : runtime_error)
| ValueError                  (* criterion: batch sizes differ *)
| ZeroDivisionError           (* Python: division by zero *)
| AttributeError              (* Python: an int has no attribute numpy *)
| StopIteration               (* Python: the iterator is exhausted *)
| External (code : nat).      (* anything else a call may raise *)

(** ** Generic list facts used throughout *)

Section ListFacts.
Context {A : Type}.

Lemma firstn_length_le (n : nat) (l : list A) :
  n <= length l -> length (firstn n l) = n.
Proof. intros H. rewrite length_firstn. lia. Qed.

Lemma Forall_app_intro (P : A -> Prop) (l1 l2 : list A) :
  Forall P l1 -> Forall P l2 -> Forall P (l1 ++ l2).
Proof. intros H1 H2. apply Forall_app. split; assumption. Qed.

Lemma nth_map_seq {B : Type} (f : nat -> B) (n i : nat) (d : B) :
  i < n -> nth i (map f (seq 0 n)) d = f i.
Proof.
  intros Hi.
  rewrite (nth_indep _ d (f 0)) by (rewrite length_map, length_seq; exact Hi).
  rewrite (map_nth f (seq 0 n) 0 i), seq_nth by exact Hi. reflexivity.
Qed.
End ListFacts.

Lemma firstn_seq_le (n start len : nat) :
  n <= len -> firstn n (seq start len) = seq start n.
Proof.
  intros H. replace len with (n + (len - n)) by lia.
  rewrite seq_app, firstn_app, length_seq, Nat.sub_diag, firstn_all2
    by (rewrite length_seq; lia).
  cbn [firstn]. apply app_nil_r.
Qed.

(** ** The image transform

    Both notebooks load their datasets through
    [transforms.Compose([transforms.ToTensor(), transforms.Normalize((0.5,), (0.5,))])]. *)

Module Transforms.

(** [transforms.ToTensor()]: a pixel byte, 0 to 255, becomes a float
    between 0 and 1. *)
Definition ToTensor (p : Z) : Q := (inject_Z p / 255)%Q.

(** [transforms.Normalize(mean, std)], on the one channel of a grey image. *)
Definition Normalize (mean std : Q) (x : Q) : Q := ((x - mean) / std)%Q.

(** [transforms.Compose([f, g])]: [f] first, then [g]. *)
Definition Compose {A B C : Type} (f : A -> B) (g : B -> C) : A -> C :=
  fun x => g (f x).

Definition transform : Z -> Q :=
  Compose ToTensor (Normalize (1 # 2) (1 # 2)).

(** [datasets.MNIST(..., transform=transform)]: every image goes through the
    transform when it is fetched; the labels are left as they are. *)
Definition transformed (raw : list (list Z * Z)) : list (list Q * Z) :=
  map (fun s => (map transform (fst s), snd s)) raw.

Lemma transform_value (p : Z) :
  (transform p == (2 * inject_Z p - 255) / 255)%Q.
Proof. unfold transform, Compose, Normalize, ToTensor. field. Qed.

Lemma transform_range (p : Z) :
  (0 <= p <= 255)%Z -> (-1 <= transform p <= 1)%Q.
Proof.
  intros Hp. rewrite transform_value.
  unfold Qle, Qdiv, Qmult, Qminus, Qplus, Qopp, Qinv, inject_Z.
  cbn -[Z.mul Z.add]. split; lia.
Qed.

Lemma transform_increasing (p q : Z) :
  (p < q)%Z -> (transform p < transform q)%Q.
Proof.
  intros Hpq. rewrite !transform_value.
  unfold Qlt, Qdiv, Qmult, Qminus, Qplus, Qopp, Qinv, inject_Z.
  cbn -[Z.mul Z.add]. lia.
Qed.

(** Pixels as the network sees them.  Every pixel byte lands in the range
    from -1 to 1, black (0) on -1 and white (255) on 1, brighter bytes on
    larger values; labels, the number of images and the number of pixels of
    each image are untouched. *)
Theorem transform_maps_bytes_into_unit_range (raw : list (list Z * Z)) :
  Forall (fun s => Forall (fun p => (0 <= p <= 255)%Z) (fst s)) raw ->
  Forall (fun s => Forall (fun x => (-1 <= x <= 1)%Q) (fst s)) (transformed raw) /\
  map snd (transformed raw) = map snd raw /\
  map (fun s => length (fst s)) (transformed raw) =
    map (fun s => length (fst s)) raw /\
  (forall p q, (p < q)%Z -> (transform p < transform q)%Q) /\
  (transform 0 == -1)%Q /\ (transform 255 == 1)%Q.
Proof.
  intros Hraw. split; [|split; [|split; [|split; [|split]]]].
  - unfold transformed. apply Forall_forall. intros s Hs.
    apply in_map_iff in Hs. destruct Hs as [r [<- Hr]]. cbn [fst].
    rewrite Forall_forall in Hraw. specialize (Hraw r Hr).
    apply Forall_forall. intros x Hx.
    apply in_map_iff in Hx. destruct Hx as [p [<- Hp]].
    apply transform_range. rewrite Forall_forall in Hraw. apply Hraw. exact Hp.
  - unfold transformed. rewrite map_map. reflexivity.
  - unfold transformed. rewrite map_map. apply map_ext. intros s.
    cbn [fst]. apply length_map.
  - exact transform_increasing.
  - reflexivity.
  - reflexivity.
Qed.

(** Three pixels of one image: black, mid-grey, white. *)
Lemma transform_maps_bytes_into_unit_range_witness :
  Forall (fun s => Forall (fun x => (-1 <= x <= 1)%Q) (fst s))
    (transformed [([0; 128; 255]%Z, 7%Z)]) /\
  map snd (transformed [([0; 128; 255]%Z, 7%Z)]) = [7%Z].
Proof.
  destruct (@transform_maps_bytes_into_unit_range [([0; 128; 255]%Z, 7%Z)])
    as (H1 & H2 & _).
  - constructor; [|constructor]. cbn [fst].
    repeat (constructor; [lia|]). constructor.
  - split; [exact H1|exact H2].
Defined.

End Transforms.

(** ** The data loader: [DataLoader(dataset, batch_size=64, shuffle=True)]

    Iterating a loader yields the (shuffled) dataset cut into consecutive
    batches of [batch_size] samples; the last batch is shorter when the
    dataset size is not a multiple of the batch size ([drop_last] is left at
    its default, [False]). *)

Module Loader.

Section Chunks.
Context {A : Type}.

Fixpoint chunks_fuel (fuel n : nat) (l : list A) : list (list A) :=
  match fuel with
  | 0 => []
  | S fuel' =>
      match l with
      | [] => []
      | _ :: _ => firstn n l :: chunks_fuel fuel' n (skipn n l)
      end
  end.

(** Cutting [l] takes at most [length l] rounds. *)
Definition chunks (n : nat) (l : list A) : list (list A) :=
  chunks_fuel (length l) n l.

Lemma chunks_fuel_enough (n : nat) :
  0 < n ->
  forall fuel1 fuel2 (l : list A),
    length l <= fuel1 -> length l <= fuel2 ->
    chunks_fuel fuel1 n l = chunks_fuel fuel2 n l.
Proof.
  intros Hn. induction fuel1 as [|f1 IH]; intros fuel2 l H1 H2.
  - destruct l; [|simpl in H1; lia]. destruct fuel2; reflexivity.
  - destruct l as [|a l]; [destruct fuel2; reflexivity|].
    destruct fuel2 as [|f2]; [simpl in H2; lia|].
    cbn [chunks_fuel]. f_equal.
    apply IH; rewrite length_skipn; cbn [length] in *; lia.
Qed.

Lemma chunks_nil (n : nat) : chunks n [] = [].
Proof. reflexivity. Qed.

Lemma chunks_cons (n : nat) (a : A) (l : list A) :
  0 < n ->
  chunks n (a :: l) = firstn n (a :: l) :: chunks n (skipn n (a :: l)).
Proof.
  intros Hn. unfold chunks. cbn [length chunks_fuel]. f_equal.
  apply chunks_fuel_enough; [exact Hn| |lia].
  rewrite length_skipn. cbn [length]. lia.
Qed.

(** Strong induction following the cuts. *)
Lemma chunks_ind (n : nat) (Hn : 0 < n) (P : list A -> Prop) :
  P [] ->
  (forall a l, P (skipn n (a :: l)) -> P (a :: l)) ->
  forall l, P l.
Proof.
  intros Hnil Hcons l.
  remember (length l) as k eqn:Hk. revert l Hk.
  induction k as [k IH] using lt_wf_ind. intros l Hk.
  destruct l as [|a l]; [exact Hnil|].
  apply Hcons. apply (IH (length (skipn n (a :: l)))); [|reflexivity].
  subst k. rewrite length_skipn. cbn [length]. lia.
Qed.

Lemma concat_chunks (n : nat) (l : list A) :
  0 < n -> concat (chunks n l) = l.
Proof.
  intros Hn. induction l as [|a l IH] using (chunks_ind Hn); [reflexivity|].
  rewrite chunks_cons by exact Hn. cbn [concat]. rewrite IH.
  apply firstn_skipn.
Qed.

(** Every batch is non-empty and holds at most [n] samples. *)
Lemma chunks_bounds (n : nat) (l : list A) :
  0 < n -> Forall (fun b => 0 < length b <= n) (chunks n l).
Proof.
  intros Hn. induction l as [|a l IH] using (chunks_ind Hn); [constructor|].
  rewrite chunks_cons by exact Hn. constructor; [|exact IH].
  rewrite length_firstn. cbn [length]. lia.
Qed.

(** When the batch size divides the dataset size all batches are full. *)
Lemma chunks_full (n k : nat) (l : list A) :
  0 < n -> length l = k * n ->
  Forall (fun b => length b = n) (chunks n l) /\ length (chunks n l) = k.
Proof.
  intros Hn. revert k.
  induction l as [|a l IH] using (chunks_ind Hn); intros k Hk.
  - simpl in Hk. destruct k; [split; [constructor|reflexivity]|simpl in Hk; lia].
  - destruct k as [|k]; [simpl in Hk; lia|].
    rewrite chunks_cons by exact Hn.
    assert (Hle : n <= length (a :: l)) by (rewrite Hk; lia).
    destruct (IH k) as [IH1 IH2].
    + rewrite length_skipn, Hk. lia.
    + split; [constructor; [apply firstn_length_le; exact Hle|exact IH1]|].
      simpl. rewrite IH2. reflexivity.
Qed.

(** The first batch of a dataset with at least [n] samples is full. *)
Lemma chunks_first (n : nat) (l : list A) :
  0 < n -> n <= length l -> length (hd [] (chunks n l)) = n.
Proof.
  intros Hn Hl. destruct l as [|a l]; [simpl in Hl; lia|].
  rewrite chunks_cons by exact Hn. cbn [hd].
  apply firstn_length_le. exact Hl.
Qed.

(** The last batch holds the remainder, when there is one. *)
Lemma chunks_last (n k r : nat) (l : list A) :
  0 < r < n -> length l = k * n + r ->
  length (last (chunks n l) []) = r.
Proof.
  intros Hr. assert (Hn : 0 < n) by lia. revert k.
  induction l as [|a l IH] using (chunks_ind Hn); intros k Hk.
  - simpl in Hk. lia.
  - rewrite chunks_cons by exact Hn.
    destruct k as [|k].
    + rewrite skipn_all2 by (rewrite Hk; lia).
      rewrite chunks_nil. cbn [last].
      rewrite length_firstn, Hk. lia.
    + specialize (IH k).
      assert (Hs : length (skipn n (a :: l)) = k * n + r)
        by (rewrite length_skipn, Hk; lia).
      specialize (IH Hs).
      destruct (chunks n (skipn n (a :: l))) as [|c cs] eqn:E.
      * destruct (skipn n (a :: l)) as [|b bs] eqn:E2; [simpl in Hs; lia|].
        rewrite chunks_cons in E by exact Hn. discriminate.
      * exact IH.
Qed.

(** Only the last batch can be short. *)
Lemma chunks_all_but_last_full (n : nat) (l : list A) :
  0 < n -> Forall (fun b => length b = n) (removelast (chunks n l)).
Proof.
  intros Hn. induction l as [|a l IH] using (chunks_ind Hn); [constructor|].
  rewrite chunks_cons by exact Hn.
  destruct (skipn n (a :: l)) as [|b bs] eqn:E.
  - rewrite chunks_nil. constructor.
  - rewrite chunks_cons in * by exact Hn. cbn [removelast] in *.
    constructor; [|exact IH].
    apply firstn_length_le.
    pose proof (length_skipn n (a :: l)) as Hs. rewrite E in Hs.
    cbn [length] in *. lia.
Qed.

Lemma ceil_div_step (L n : nat) :
  0 < n -> 0 < L -> (L + n - 1) / n = S ((L - n + n - 1) / n).
Proof.
  intros Hn HL. destruct (Nat.le_gt_cases L n) as [H|H].
  - replace (L - n) with 0 by lia. cbn [Nat.add].
    rewrite (Nat.div_small (n - 1) n) by lia.
    replace (L + n - 1) with ((L - 1) + 1 * n) by lia.
    rewrite Nat.div_add by lia. rewrite Nat.div_small by lia. reflexivity.
  - replace (L + n - 1) with ((L - n + n - 1) + 1 * n) by lia.
    rewrite Nat.div_add by lia. lia.
Qed.

(** The number of batches, as [len(loader)] computes it. *)
Lemma chunks_length (n : nat) (l : list A) :
  0 < n -> length (chunks n l) = (length l + n - 1) / n.
Proof.
  intros Hn. induction l as [|a l IH] using (chunks_ind Hn).
  - rewrite chunks_nil. cbn [length Nat.add]. symmetry. apply Nat.div_small. lia.
  - rewrite chunks_cons by exact Hn. cbn [length]. rewrite IH, length_skipn.
    symmetry. apply ceil_div_step; [exact Hn|cbn [length]; lia].
Qed.

Lemma chunks_incl (n : nat) (l b : list A) (x : A) :
  0 < n -> In b (chunks n l) -> In x b -> In x l.
Proof.
  intros Hn Hb Hx. rewrite <- (concat_chunks l Hn).
  apply in_concat. exists b. split; assumption.
Qed.
End Chunks.

(** Both loaders of the notebooks are built with [batch_size=64]. *)
Definition batch_size : nat := 64.

Lemma batch_size_pos : 0 < batch_size.
Proof. unfold batch_size. lia. Qed.

Section Iterate.
Context {A : Type}.
(** [shuffle=True]: the order drawn for one pass over the data, by the
    state of the random number generator at the time. *)
Variable shuffle : nat -> list A -> list A.

(** One pass over a loader: the batches it yields, in order. *)
Definition iterate (seed : nat) (dataset : list A) : list (list A) :=
  chunks batch_size (shuffle seed dataset).

Hypothesis shuffle_perm : forall seed l, Permutation (shuffle seed l) l.

Lemma iterate_In (seed : nat) (dataset b : list A) (x : A) :
  In b (iterate seed dataset) -> In x b -> In x dataset.
Proof.
  intros Hb Hx. apply (Permutation_in x (shuffle_perm seed dataset)).
  exact (chunks_incl _ _ _ batch_size_pos Hb Hx).
Qed.

Lemma iterate_bounds (seed : nat) (dataset : list A) :
  Forall (fun b => 0 < length b <= batch_size) (iterate seed dataset).
Proof. apply chunks_bounds. exact batch_size_pos. Qed.

Lemma iterate_nonempty (seed : nat) (dataset : list A) :
  dataset <> [] -> iterate seed dataset <> [].
Proof.
  intros Hd. unfold iterate.
  destruct (shuffle seed dataset) as [|x l] eqn:E.
  - pose proof (shuffle_perm seed dataset) as Hp. rewrite E in Hp.
    apply Permutation_nil in Hp. congruence.
  - rewrite chunks_cons by exact batch_size_pos. discriminate.
Qed.

Lemma shuffle_length (seed : nat) (dataset : list A) :
  length (shuffle seed dataset) = length dataset.
Proof. apply Permutation_length. apply shuffle_perm. Qed.

(** One pass over a loader goes through the dataset exactly once.  The
    batches, put end to end, are a rearrangement of the dataset; no batch is
    empty or holds more than 64 samples; every batch but the last holds
    exactly 64; and there are as many batches as [len(loader)] says, the
    dataset size divided by 64 and rounded up. *)
Theorem one_pass_partitions_dataset (seed : nat) (dataset : list A) :
  let batches := iterate seed dataset in
  Permutation (concat batches) dataset /\
  Forall (fun b => 0 < length b <= batch_size) batches /\
  Forall (fun b => length b = batch_size) (removelast batches) /\
  length batches = (length dataset + batch_size - 1) / batch_size.
Proof.
  intros batches. unfold batches, iterate. split; [|split; [|split]].
  - rewrite (concat_chunks _ batch_size_pos). apply shuffle_perm.
  - apply chunks_bounds. exact batch_size_pos.
  - apply chunks_all_but_last_full. exact batch_size_pos.
  - rewrite (chunks_length _ batch_size_pos), shuffle_length. reflexivity.
Qed.
End Iterate.

(** 130 samples, drawn in reverse order: two batches of 64 and one of 2. *)
Lemma one_pass_partitions_dataset_witness :
  let batches := iterate (fun _ l => rev l) 0 (seq 0 130) in
  Permutation (concat batches) (seq 0 130) /\
  Forall (fun b => length b = batch_size) (removelast batches) /\
  length batches = 3.
Proof.
  destruct (@one_pass_partitions_dataset nat (fun _ l => rev l)
              (fun _ l => Permutation_sym (Permutation_rev l)) 0 (seq 0 130))
    as (H1 & _ & H3 & H4).
  split; [exact H1|split; [exact H3|exact H4]].
Defined.

End Loader.

(** ** Tensors: a shape over a flat, row-major storage *)

Module Tensor.

Record tensor (A : Type) : Type := mkTensor {
  shape : list nat;
  storage : list A
}.

Definition numel (s : list nat) : nat := fold_right Nat.mul 1 s.

(** The elements visible through the shape. *)
Definition contents {A : Type} (t : tensor A) : list A :=
  firstn (numel (shape t)) (storage t).

(** A float matrix as the list of its rows (the output of a model on a batch:
    one row of class scores per example). *)
Definition matrix : Type := list (list Q).

(** [t.view(s)]: same storage under a new shape with the same number of
    elements; anything else is a [RuntimeError]. *)
Definition view {A : Type} (s : list nat) (t : tensor A) : exn + tensor A :=
  if numel s =? numel (shape t)
  then inr (mkTensor s (storage t))
  else inl (RuntimeError InvalidShape).

Section Resize.
Context {A : Type}.
(** What uninitialised memory happens to hold, by storage offset. *)
Variable junk : nat -> A.

(** [t.resize_(s)]: in place.  A larger shape grows the storage, the new
    elements being uninitialised; a smaller one keeps the storage and shows
    its first elements only. *)
Definition resize_ (s : list nat) (t : tensor A) : tensor A :=
  let have := length (storage t) in
  mkTensor s
    (if numel s <=? have then storage t
     else storage t ++ map junk (seq have (numel s - have))).
End Resize.

(** A batch of images as the loader hands it over: shape (b, 1, 28, 28). *)
Definition stack (imgs : list (list Q)) : tensor Q :=
  mkTensor [length imgs; 1; 28; 28] (concat imgs).

(** *** Elementwise [==] with broadcasting (tensors of rank at most 2) *)

Definition as2d (s : list nat) : option (nat * nat) :=
  match s with
  | [] => Some (1, 1)
  | [c] => Some (1, c)
  | [r; c] => Some (r, c)
  | _ => None
  end.

(** Two sizes are compatible when they are equal or one of them is 1. *)
Definition bdim (x y : nat) : option nat :=
  if x =? y then Some x
  else if x =? 1 then Some y
  else if y =? 1 then Some x
  else None.

(** A dimension of size 1 is repeated: every index reads its only element. *)
Definition bidx (dim i : nat) : nat := if dim =? 1 then 0 else i.

Definition get2 (t : tensor Z) (r c i j : nat) : Z :=
  nth (bidx r i * c + bidx c j) (storage t) 0%Z.

Definition out_shape (sa sb : list nat) (r c : nat) : list nat :=
  match Nat.max (length sa) (length sb) with
  | 0 => []
  | 1 => [c]
  | _ => [r; c]
  end.

Definition eq (a b : tensor Z) : exn + tensor bool :=
  match as2d (shape a), as2d (shape b) with
  | Some (ra, ca), Some (rb, cb) =>
      match bdim ra rb, bdim ca cb with
      | Some r, Some c =>
          inr (mkTensor (out_shape (shape a) (shape b) r c)
                 (map (fun k => Z.eqb (get2 a ra ca (k / c) (k mod c))
                                      (get2 b rb cb (k / c) (k mod c)))
                      (seq 0 (r * c))))
      | _, _ => inl (RuntimeError NotBroadcastable)
      end
  | _, _ => inl (RuntimeError RankNotModelled)
  end.

(** *** [topk(1, dim=1)]: the largest entry of each row and its index

    Among equal largest entries the first is taken (torch does not say
    which). *)

Fixpoint argmax_from (best : Q) (bi i : nat) (l : list Q) : nat :=
  match l with
  | [] => bi
  | x :: r =>
      if Qlt_le_dec best x
      then argmax_from x i (S i) r
      else argmax_from best bi (S i) r
  end.

Definition argmax (l : list Q) : nat :=
  match l with
  | [] => 0
  | x :: r => argmax_from x 0 1 r
  end.

Definition topk1 (m : matrix) : exn + (tensor Q * tensor Z) :=
  if existsb (fun row => match row with [] => true | _ => false end) m
  then inl (RuntimeError IndexOutOfRange)
  else inr (mkTensor [length m; 1] (map (fun row => nth (argmax row) row 0%Q) m),
            mkTensor [length m; 1] (map (fun row => Z.of_nat (argmax row)) m)).

(** *** [t.type(torch.FloatTensor)] on a boolean tensor, and [torch.mean] *)

Definition b2q (b : bool) : Q := if b then 1%Q else 0%Q.

Definition to_float (t : tensor bool) : tensor Q :=
  mkTensor (shape t) (map b2q (storage t)).

Definition Qsum (l : list Q) : Q := fold_right Qplus 0%Q l.

(** For an empty tensor torch returns nan; here the quotient by zero is 0. *)
Definition mean (t : tensor Q) : Q :=
  (Qsum (contents t) / inject_Z (Z.of_nat (numel (shape t))))%Q.

(** *** Facts about [argmax]: it is the index of a largest entry *)

Lemma argmax_from_spec (l pre : list Q) (best : Q) (bi : nat) :
  bi < length pre ->
  nth bi pre 0%Q = best ->
  (forall x, In x pre -> (x <= best)%Q) ->
  let r := argmax_from best bi (length pre) l in
  r < length (pre ++ l) /\
  (forall x, In x (pre ++ l) -> (x <= nth r (pre ++ l) 0)%Q).
Proof.
  revert pre best bi. induction l as [|y l IH]; intros pre best bi Hbi Hnth Hmax.
  - cbn [argmax_from]. rewrite app_nil_r. split; [exact Hbi|].
    intros x Hx. rewrite Hnth. apply Hmax. exact Hx.
  - cbn [argmax_from].
    replace (pre ++ y :: l) with ((pre ++ [y]) ++ l)
      by (rewrite <- app_assoc; reflexivity).
    replace (S (length pre)) with (length (pre ++ [y]))
      by (rewrite length_app; cbn [length]; lia).
    destruct (Qlt_le_dec best y) as [Hlt|Hle].
    + apply IH.
      * rewrite length_app. cbn [length]. lia.
      * rewrite app_nth2 by lia. rewrite Nat.sub_diag. reflexivity.
      * intros x Hx. apply in_app_or in Hx. destruct Hx as [Hx|[Hx|[]]].
        -- apply Qle_trans with best; [apply Hmax; exact Hx|apply Qlt_le_weak; exact Hlt].
        -- subst x. apply Qle_refl.
    + apply IH.
      * rewrite length_app. cbn [length]. lia.
      * rewrite app_nth1 by exact Hbi. exact Hnth.
      * intros x Hx. apply in_app_or in Hx. destruct Hx as [Hx|[Hx|[]]].
        -- apply Hmax. exact Hx.
        -- subst x. exact Hle.
Qed.

Lemma argmax_is_max (row : list Q) :
  row <> [] ->
  argmax row < length row /\
  (forall x, In x row -> (x <= nth (argmax row) row 0)%Q).
Proof.
  destruct row as [|x r]; [congruence|]. intros _.
  apply (@argmax_from_spec r [x] x 0).
  - cbn [length]. lia.
  - reflexivity.
  - intros z [Hz|[]]. subst z. apply Qle_refl.
Qed.

(** *** Shapes produced by [topk1], [view] and [eq] *)

Lemma topk1_ok (m : matrix) :
  Forall (fun row => row <> []) m ->
  topk1 m = inr (mkTensor [length m; 1] (map (fun row => nth (argmax row) row 0%Q) m),
                 mkTensor [length m; 1] (map (fun row => Z.of_nat (argmax row)) m)).
Proof.
  intros H. unfold topk1.
  replace (existsb _ m) with false; [reflexivity|].
  symmetry. induction H as [|row m Hrow _ IH]; [reflexivity|].
  cbn [existsb]. rewrite IH. destruct row; [congruence|reflexivity].
Qed.

Lemma bidx_lt (n i : nat) : i < n -> bidx n i = i.
Proof. intros H. unfold bidx. destruct (Nat.eqb_spec n 1); lia. Qed.

Lemma bdim_refl (n : nat) : bdim n n = Some n.
Proof. unfold bdim. rewrite Nat.eqb_refl. reflexivity. Qed.

Lemma bdim_1_r (n : nat) : bdim n 1 = Some n.
Proof.
  unfold bdim. destruct (Nat.eqb_spec n 1) as [->|H]; [reflexivity|].
  reflexivity.
Qed.

Lemma bdim_1_l (n : nat) : bdim 1 n = Some n.
Proof.
  unfold bdim. destruct (Nat.eqb_spec 1 n) as [<-|H]; reflexivity.
Qed.

(** C9.  [equals = top_class == labels.view( *top_class.shape)]: for a batch of
    [n] examples the labels, viewed under the shape (n, 1) of [top_class],
    compare elementwise, giving an (n, 1) boolean tensor whose entry [i] is
    true exactly when the predicted class of example [i] is label [i].
    Comparing with the labels left one-dimensional broadcasts instead to an
    (n, n) tensor whose entry (i, j) compares prediction [i] with label [j]. *)
Theorem equals_after_view_is_elementwise (n : nat) (classes labels : list Z) :
  length classes = n ->
  length labels = n ->
  let top_class := mkTensor [n; 1] classes in
  let labels1d := mkTensor [n] labels in
  (exists reshaped equals,
      view (shape top_class) labels1d = inr reshaped /\
      eq top_class reshaped = inr equals /\
      shape equals = [n; 1] /\
      length (storage equals) = n /\
      forall i, i < n ->
        (nth i (storage equals) false = true <->
         nth i classes 0%Z = nth i labels 0%Z)) /\
  (exists broadcast,
      eq top_class labels1d = inr broadcast /\
      shape broadcast = [n; n] /\
      length (storage broadcast) = n * n /\
      forall i j, i < n -> j < n ->
        nth (i * n + j) (storage broadcast) false =
        Z.eqb (nth i classes 0%Z) (nth j labels 0%Z)).
Proof.
  intros Hc Hl top_class labels1d. split.
  - exists (mkTensor [n; 1] labels).
    eexists. split; [|split; [|split; [|split]]].
    + unfold view. cbn [shape storage labels1d top_class numel fold_right].
      replace (n * (1 * 1)) with (n * 1) by lia.
      rewrite Nat.eqb_refl. reflexivity.
    + unfold eq, top_class. cbn [shape as2d storage].
      rewrite bdim_refl. cbn [bdim Nat.eqb]. reflexivity.
    + reflexivity.
    + cbn [storage]. rewrite length_map, length_seq. lia.
    + intros i Hi. cbn [storage].
      rewrite nth_map_seq by lia.
      rewrite Nat.div_1_r, Nat.mod_1_r.
      unfold get2. cbn [storage]. rewrite bidx_lt by exact Hi.
      replace (i * 1 + bidx 1 0) with i by (cbn; lia).
      apply Z.eqb_eq.
  - eexists. split; [|split; [|split]].
    + unfold eq, top_class, labels1d. cbn [shape as2d storage].
      rewrite bdim_1_r, bdim_1_l. reflexivity.
    + reflexivity.
    + cbn [storage]. rewrite length_map, length_seq. reflexivity.
    + intros i j Hi Hj. cbn [storage].
      rewrite nth_map_seq by nia.
      replace ((i * n + j) mod n) with j
        by (rewrite Nat.add_comm, Nat.Div0.mod_add; symmetry;
            apply Nat.mod_small; exact Hj).
      rewrite Nat.div_add_l by lia.
      rewrite (Nat.div_small j n Hj), Nat.add_0_r.
      unfold get2. cbn [storage].
      rewrite (bidx_lt Hi), (bidx_lt Hj).
      replace (i * 1 + bidx 1 j) with i by (cbn; lia).
      replace (bidx 1 i * n + j) with j by (cbn; lia).
      reflexivity.
Qed.

Lemma numel_pair (a b : nat) : numel [a; b] = a * b.
Proof. unfold numel. cbn [fold_right]. lia. Qed.

(** *** The accuracy of a batch, as a value *)

Definition eqb_pair (cl : Z * Z) : bool := Z.eqb (fst cl) (snd cl).

(** The class [topk(1)] picks for each row. *)
Definition predicted (probs : matrix) : list Z :=
  map (fun row => Z.of_nat (argmax row)) probs.

(** The (n, 1) tensor of the comparisons of predictions and labels. *)
Definition equals_column (probs : matrix) (labels : list Z) : tensor bool :=
  mkTensor [length probs; 1] (map eqb_pair (combine (predicted probs) labels)).

Definition batch_fraction (probs : matrix) (labels : list Z) : Q :=
  mean (to_float (equals_column probs labels)).

(** The number of rows whose predicted class is the label. *)
Definition hits (probs : matrix) (labels : list Z) : nat :=
  length (filter eqb_pair (combine (predicted probs) labels)).

Definition ratio (a b : nat) : Q :=
  (inject_Z (Z.of_nat a) / inject_Z (Z.of_nat b))%Q.

Lemma eq_column (n : nat) (classes labels : list Z) :
  length classes = n -> length labels = n ->
  eq (mkTensor [n; 1] classes) (mkTensor [n; 1] labels) =
  inr (mkTensor [n; 1] (map eqb_pair (combine classes labels))).
Proof.
  intros Hc Hl. unfold eq. cbn [shape as2d storage].
  rewrite bdim_refl. cbn [bdim Nat.eqb]. do 2 f_equal.
  apply nth_ext with (d := false) (d' := false).
  - rewrite !length_map, length_seq, length_combine. lia.
  - intros i Hi. rewrite length_map, length_seq in Hi.
    rewrite nth_map_seq by exact Hi.
    rewrite Nat.div_1_r, Nat.mod_1_r.
    unfold get2. cbn [storage]. rewrite bidx_lt by lia.
    replace (i * 1 + bidx 1 0) with i by (cbn; lia).
    rewrite (nth_indep _ false (eqb_pair (0%Z, 0%Z)))
      by (rewrite length_map, length_combine; lia).
    rewrite (map_nth eqb_pair), combine_nth by lia.
    reflexivity.
Qed.

Lemma Qsum_b2q (l : list bool) :
  (Qsum (map b2q l) == inject_Z (Z.of_nat (length (filter (fun b => b) l))))%Q.
Proof.
  induction l as [|b l IH]; [reflexivity|].
  cbn [map Qsum fold_right filter]. fold (Qsum (map b2q l)). rewrite IH.
  destruct b; cbn [b2q length].
  - rewrite Nat2Z.inj_succ, <- Z.add_1_l, inject_Z_plus. reflexivity.
  - apply Qplus_0_l.
Qed.

Lemma filter_map_swap {A B : Type} (f : A -> B) (p : B -> bool) (l : list A) :
  length (filter p (map f l)) = length (filter (fun a => p (f a)) l).
Proof.
  induction l as [|a l IH]; [reflexivity|].
  cbn [map filter]. destruct (p (f a)); cbn [length]; rewrite IH; reflexivity.
Qed.

(** What the accuracy lines compute for a batch is the fraction of its
    examples whose predicted class is the label. *)
Lemma batch_fraction_is_ratio (probs : matrix) (labels : list Z) :
  length probs = length labels ->
  (batch_fraction probs labels == ratio (hits probs labels) (length probs))%Q.
Proof.
  intros Hlen. unfold batch_fraction, mean, ratio, hits, equals_column, to_float, contents.
  cbn [shape storage]. rewrite numel_pair, Nat.mul_1_r.
  rewrite firstn_all2
    by (rewrite !length_map, length_combine; unfold predicted;
        rewrite length_map; lia).
  rewrite Qsum_b2q, filter_map_swap. reflexivity.
Qed.

Lemma inject_nat_nonzero (n : nat) : n <> 0 -> ~ (inject_Z (Z.of_nat n) == 0)%Q.
Proof. intros Hn H. unfold Qeq in H. cbn in H. lia. Qed.

Lemma ratio_add (a b n : nat) :
  n <> 0 -> (ratio a n + ratio b n == ratio (a + b) n)%Q.
Proof.
  intros Hn. unfold ratio. rewrite Nat2Z.inj_add, inject_Z_plus.
  field. apply inject_nat_nonzero. exact Hn.
Qed.

Lemma ratio_div (s n k : nat) :
  n <> 0 -> k <> 0 ->
  (ratio s n / inject_Z (Z.of_nat k) == ratio s (n * k))%Q.
Proof.
  intros Hn Hk. unfold ratio. rewrite Nat2Z.inj_mul, inject_Z_mult.
  field. split; apply inject_nat_nonzero; assumption.
Qed.

Lemma Qsum_Qeq (l1 l2 : list Q) :
  Forall2 Qeq l1 l2 -> (Qsum l1 == Qsum l2)%Q.
Proof.
  induction 1 as [|x y l1 l2 Hxy _ IH]; [reflexivity|].
  cbn [Qsum fold_right]. fold (Qsum l1) (Qsum l2). rewrite Hxy, IH. reflexivity.
Qed.

Lemma Qsum_app (l1 l2 : list Q) : (Qsum (l1 ++ l2) == Qsum l1 + Qsum l2)%Q.
Proof.
  induction l1 as [|x l1 IH]; cbn [app Qsum fold_right].
  - fold (Qsum l2). rewrite Qplus_0_l. reflexivity.
  - fold (Qsum (l1 ++ l2)) (Qsum l1). rewrite IH. apply Qplus_assoc.
Qed.

(** Batches of one size: the mean of the batch ratios is the ratio of the
    totals. *)
Lemma Qsum_ratios_uniform {A : Type} (h : A -> nat) (n : nat) (bs : list A) :
  n <> 0 ->
  (Qsum (map (fun b => ratio (h b) n) bs) ==
   ratio (fold_right (fun b acc => (h b + acc)%nat) 0%nat bs) n)%Q.
Proof.
  intros Hn. induction bs as [|b bs IH]; cbn [map Qsum fold_right].
  - unfold ratio. cbn. field. apply inject_nat_nonzero. exact Hn.
  - fold (Qsum (map (fun b => ratio (h b) n) bs)). rewrite IH.
    apply ratio_add. exact Hn.
Qed.

(** *** Sizes: the result of [resize_], a batch laid out flat *)

Lemma length_contents_resize {A : Type} (junk : nat -> A) (s : list nat) (t : tensor A) :
  length (contents (resize_ junk s t)) = numel s.
Proof.
  unfold contents, resize_. cbn [shape storage].
  rewrite length_firstn.
  destruct (Nat.leb_spec (numel s) (length (storage t))) as [H|H].
  - lia.
  - rewrite length_app, length_map, length_seq. lia.
Qed.

Lemma length_concat_uniform {A : Type} (k : nat) (ls : list (list A)) :
  Forall (fun l => length l = k) ls -> length (concat ls) = k * length ls.
Proof.
  induction 1 as [|l ls Hl _ IH]; cbn [concat length]; [lia|].
  rewrite length_app, IH, Hl. lia.
Qed.

(** The number of examples of the MNIST training set. *)
Definition mnist_train_size : nat := 60 * 1000.

(** *** Picking an image, and the ways the notebooks flatten a batch *)

(** What Python raises for an index out of range. *)
Inductive index_error : Type := IndexError.

(** [t[i]]: the [i]-th slice along the first dimension, the storage read
    from the slice's offset on. *)
Definition select {A : Type} (i : nat) (t : tensor A) : index_error + tensor A :=
  match shape t with
  | [] => inl IndexError
  | d :: rest =>
      if i <? d
      then inr (mkTensor rest (skipn (i * numel rest) (storage t)))
      else inl IndexError
  end.

(** [t.view(t.shape[0], -1)]: the size standing for -1 is worked out from
    the number of elements, which the sizes given must divide; with a first
    size of 0 it could be anything, and torch refuses. *)
Definition view_rows {A : Type} (t : tensor A) : index_error + exn + tensor A :=
  match shape t with
  | [] => inl (inl IndexError)
  | d0 :: _ =>
      let total := numel (shape t) in
      if (d0 =? 0) || negb (total mod d0 =? 0)
      then inl (inr (RuntimeError InvalidShape))
      else inr (mkTensor [d0; total / d0] (storage t))
  end.

(** [t.flatten(start_dim=1)]: the dimensions from the second on become one;
    there must be a second. *)
Definition flatten_from_1 {A : Type} (t : tensor A) : index_error + tensor A :=
  match shape t with
  | d0 :: d1 :: rest => inr (mkTensor [d0; numel (d1 :: rest)] (storage t))
  | _ => inl IndexError
  end.

(** The rows of a two-dimensional tensor. *)
Definition rows {A : Type} (t : tensor A) : list (list A) :=
  match shape t with
  | [r; c] => map (fun i => firstn c (skipn (i * c) (contents t))) (seq 0 r)
  | _ => []
  end.

Lemma row_of_concat {A : Type} (c : nat) (ls : list (list A)) :
  Forall (fun l => length l = c) ls ->
  forall i, i < length ls -> firstn c (skipn (i * c) (concat ls)) = nth i ls [].
Proof.
  induction 1 as [|l ls Hl _ IH]; intros i Hi; [cbn [length] in Hi; lia|].
  cbn [concat]. destruct i as [|i].
  - cbn [Nat.mul skipn nth]. rewrite firstn_app, Hl, Nat.sub_diag.
    cbn [firstn]. rewrite app_nil_r. apply firstn_all2. lia.
  - cbn [nth]. rewrite skipn_app, Hl.
    rewrite skipn_all2 by (rewrite Hl; cbn [Nat.mul]; lia).
    replace (S i * c - c) with (i * c) by (cbn [Nat.mul]; lia).
    cbn [app]. apply IH. cbn [length] in Hi. lia.
Qed.

Lemma rows_of_concat {A : Type} (c : nat) (ls : list (list A)) :
  Forall (fun l => length l = c) ls ->
  rows (mkTensor [length ls; c] (concat ls)) = ls.
Proof.
  intros Hls. unfold rows, contents. cbn [shape storage].
  rewrite numel_pair, firstn_all2
    by (rewrite (length_concat_uniform Hls); lia).
  apply nth_ext with (d := []) (d' := []).
  - rewrite length_map, length_seq. reflexivity.
  - intros i Hi. rewrite length_map, length_seq in Hi.
    rewrite nth_map_seq by exact Hi.
    apply row_of_concat; assumption.
Qed.

Lemma numel_cons (d : nat) (s : list nat) : numel (d :: s) = d * numel s.
Proof. reflexivity. Qed.

(** *** What [images.resize_(64, 784)] keeps of a batch *)

(** A batch of [b] images of [h] by [w] pixels as a loader hands it over:
    shape (b, 1, h, w).  [stack] is the case of 28 by 28 pixels. *)
Definition batch_tensor (h w : nat) (imgs : list (list Q)) : tensor Q :=
  mkTensor [length imgs; 1; h; w] (concat imgs).

(** A resize keeps the data of a tensor when every element is where it was:
    the elements of the result begin with the elements of the tensor. *)
Definition keeps_pixels (before after : tensor Q) : Prop :=
  firstn (length (contents before)) (contents after) = contents before.

Lemma contents_batch_tensor (h w : nat) (imgs : list (list Q)) :
  Forall (fun im => length im = h * w) imgs ->
  contents (batch_tensor h w imgs) = concat imgs.
Proof.
  intros Hpx. unfold contents, batch_tensor. cbn [shape storage].
  apply firstn_all2. rewrite (length_concat_uniform Hpx).
  cbn [numel fold_right]. lia.
Qed.

Lemma contents_resize_grown {A : Type} (junk : nat -> A) (s : list nat) (t : tensor A) :
  length (storage t) <= numel s ->
  contents (resize_ junk s t) =
  storage t ++ map junk (seq (length (storage t)) (numel s - length (storage t))).
Proof.
  intros Hle. unfold contents, resize_. cbn [shape storage].
  destruct (Nat.leb_spec (numel s) (length (storage t))) as [H|H].
  - replace (numel s - length (storage t)) with 0 by lia.
    cbn [seq map]. rewrite app_nil_r. apply firstn_all2. lia.
  - apply firstn_all2. rewrite length_app, length_map, length_seq. lia.
Qed.

Lemma rows_same {A : Type} (t1 t2 : tensor A) :
  shape t1 = shape t2 -> contents t1 = contents t2 -> rows t1 = rows t2.
Proof. intros Hs Hc. unfold rows. rewrite Hs, Hc. reflexivity. Qed.

Lemma row_of_prefix {A : Type} (c : nat) (ls : list (list A)) (tail : list A) :
  Forall (fun l => length l = c) ls ->
  forall i, i < length ls ->
    firstn c (skipn (i * c) (concat ls ++ tail)) = nth i ls [].
Proof.
  intros Hls i Hi.
  pose proof (length_concat_uniform Hls) as Hlen.
  assert (Hin : i * c + c <= length (concat ls)) by nia.
  rewrite skipn_app, firstn_app, length_skipn.
  replace (i * c - length (concat ls)) with 0 by lia.
  replace (c - (length (concat ls) - i * c)) with 0 by lia.
  cbn [skipn firstn]. rewrite app_nil_r.
  apply row_of_concat; assumption.
Qed.

(** The rows of the result that a batch fills are its images. *)
Lemma rows_resized_prefix (junk : nat -> Q) (imgs : list (list Q)) :
  Forall (fun im => length im = 784) imgs ->
  length imgs <= 64 ->
  firstn (length imgs) (rows (resize_ junk [64; 784] (batch_tensor 28 28 imgs))) =
  imgs.
Proof.
  intros Hpx Hb.
  pose proof (length_concat_uniform Hpx) as Hlen.
  unfold rows. cbn [resize_ shape].
  rewrite contents_resize_grown
    by (cbn [batch_tensor storage]; rewrite numel_pair; lia).
  cbn [batch_tensor storage].
  rewrite firstn_map, firstn_seq_le by exact Hb.
  apply nth_ext with (d := []) (d' := []).
  - rewrite length_map, length_seq. reflexivity.
  - intros i Hi. rewrite length_map, length_seq in Hi.
    rewrite nth_map_seq by exact Hi.
    apply row_of_prefix; assumption.
Qed.

(** The rest of the result is what the memory held. *)
Lemma resized_tail_is_junk {A : Type} (junk : nat -> A) (s : list nat) (t : tensor A)
  (i : nat) :
  length (storage t) <= i < numel s ->
  nth_error (contents (resize_ junk s t)) i = Some (junk i).
Proof.
  intros [Hlo Hhi]. rewrite contents_resize_grown by lia.
  rewrite nth_error_app2 by exact Hlo.
  rewrite nth_error_map, nth_error_seq.
  replace (i - length (storage t) <? numel s - length (storage t)) with true
    by (symmetry; apply Nat.ltb_lt; lia).
  cbn [option_map]. f_equal. f_equal. lia.
Qed.

Lemma resize_keeps_pixels_iff (junk : nat -> Q) (h w : nat) (imgs : list (list Q)) :
  Forall (fun im => length im = h * w) imgs ->
  keeps_pixels (batch_tensor h w imgs)
    (resize_ junk [64; 784] (batch_tensor h w imgs)) <->
  length imgs * (h * w) <= 64 * 784.
Proof.
  intros Hpx.
  pose proof (length_concat_uniform Hpx) as Hlen.
  unfold keeps_pixels. rewrite (contents_batch_tensor h w Hpx). split.
  - intros H. apply (f_equal (@length Q)) in H.
    rewrite length_firstn, length_contents_resize, numel_pair in H. lia.
  - intros Hle.
    rewrite contents_resize_grown
      by (cbn [batch_tensor storage]; rewrite numel_pair; lia).
    cbn [batch_tensor storage].
    rewrite firstn_app, Nat.sub_diag, firstn_all. cbn [firstn].
    apply app_nil_r.
Qed.

Lemma resize_shows_batch_iff (junk : nat -> Q) (h w : nat) (imgs : list (list Q)) :
  Forall (fun im => length im = h * w) imgs ->
  contents (resize_ junk [64; 784] (batch_tensor h w imgs)) =
    contents (batch_tensor h w imgs) <->
  length imgs * (h * w) = 64 * 784.
Proof.
  intros Hpx.
  pose proof (length_concat_uniform Hpx) as Hlen.
  rewrite (contents_batch_tensor h w Hpx). split.
  - intros H. apply (f_equal (@length Q)) in H.
    rewrite length_contents_resize, numel_pair in H. lia.
  - intros Heq.
    rewrite contents_resize_grown
      by (cbn [batch_tensor storage]; rewrite numel_pair; lia).
    cbn [batch_tensor storage]. rewrite numel_pair.
    replace (64 * 784 - length (concat imgs)) with 0 by lia.
    cbn [seq map]. apply app_nil_r.
Qed.

Lemma length_resized_row (junk : nat -> Q) (t : tensor Q) (i : nat) :
  i < 64 ->
  length (nth i (rows (resize_ junk [64; 784] t)) []) = 784.
Proof.
  intros Hi. unfold rows. cbn [resize_ shape].
  rewrite nth_map_seq by exact Hi.
  rewrite length_firstn, length_skipn, length_contents_resize, numel_pair. lia.
Qed.

Lemma resize_rows_are_images_iff (junk : nat -> Q) (h w : nat) (imgs : list (list Q)) :
  Forall (fun im => length im = h * w) imgs ->
  rows (resize_ junk [64; 784] (batch_tensor h w imgs)) = imgs <->
  length imgs = 64 /\ h * w = 784.
Proof.
  intros Hpx. split.
  - intros H.
    assert (H64 : length imgs = 64).
    { rewrite <- H. unfold rows. cbn [resize_ shape].
      rewrite length_map, length_seq. reflexivity. }
    split; [exact H64|].
    pose proof (length_resized_row junk (batch_tensor h w imgs) (i := 0)) as Hrow.
    rewrite H in Hrow.
    destruct imgs as [|im imgs]; [discriminate H64|].
    inversion Hpx as [|? ? Him _]; subst. cbn [nth] in Hrow.
    rewrite <- Him. apply Hrow. lia.
  - intros [H64 Hhw]. rewrite Hhw in Hpx.
    pose proof (length_concat_uniform Hpx) as Hlen.
    rewrite <- (rows_of_concat Hpx) at 2.
    apply rows_same.
    + cbn [resize_ shape]. rewrite H64. reflexivity.
    + rewrite contents_resize_grown
        by (cbn [batch_tensor storage]; rewrite numel_pair; lia).
      unfold contents. cbn [batch_tensor shape storage]. rewrite !numel_pair.
      replace (64 * 784 - length (concat imgs)) with 0 by lia.
      cbn [seq map]. rewrite app_nil_r. symmetry. apply firstn_all2. lia.
Qed.

(** C10, as [resize_] has it.  [images.resize_(64, 784)] keeps all the pixel
    data of a batch whenever the batch holds no more than 64 * 784 pixels,
    so on every batch the training loader yields, the last one included:
    every pixel stays where it was.  What asks for exactly 64 images of 784
    pixels is something else: that the result shows the pixels of the batch
    and nothing more, and that its 64 rows are the images of the batch.  Of
    the batches of the training loader (batch size 64 over 60000 examples)
    the first holds 64 images; the last holds the remaining 32, which
    become the first 32 rows of the result, the other 32 rows being
    whatever the memory held. *)
Theorem resize_keeps_pixels_and_pads_partial_batches
  (junk : nat -> Q)
  (shuffle : nat -> list (list Q * Z) -> list (list Q * Z))
  (shuffle_perm : forall seed l, Permutation (shuffle seed l) l)
  (seed : nat) (trainset : list (list Q * Z)) :
  Forall (fun s => length (fst s) = 784) trainset ->
  length trainset = mnist_train_size ->
  let batches := Loader.iterate shuffle seed trainset in
  let resized := fun images : tensor Q => resize_ junk [64; 784] images in
  (forall (h w : nat) (imgs : list (list Q)),
     Forall (fun im => length im = h * w) imgs ->
     let images := batch_tensor h w imgs in
     (keeps_pixels images (resized images) <->
      length imgs * (h * w) <= 64 * 784) /\
     (contents (resized images) = contents images <->
      length imgs * (h * w) = 64 * 784) /\
     (rows (resized images) = imgs <-> length imgs = 64 /\ h * w = 784)) /\
  (forall b, In b batches ->
     let images := stack (map fst b) in
     keeps_pixels images (resized images) /\
     firstn (length b) (rows (resized images)) = map fst b /\
     (forall i, length b * 784 <= i < 64 * 784 ->
                nth_error (contents (resized images)) i = Some (junk i)) /\
     (rows (resized images) = map fst b <-> length b = 64)) /\
  length (hd [] batches) = 64 /\
  length (last batches []) = 32.
Proof.
  intros Hpx Hsize batches resized.
  assert (Hlen : length (shuffle seed trainset) = 937 * 64 + 32).
  { rewrite (Loader.shuffle_length shuffle shuffle_perm), Hsize.
    unfold mnist_train_size. lia. }
  split; [|split; [|split]].
  - intros h w imgs Himgs images. split; [|split].
    + apply resize_keeps_pixels_iff. exact Himgs.
    + apply resize_shows_batch_iff. exact Himgs.
    + apply resize_rows_are_images_iff. exact Himgs.
  - intros b Hb images.
    assert (Himgs : Forall (fun im => length im = 784) (map fst b)).
    { apply Forall_forall. intros im Him.
      apply in_map_iff in Him. destruct Him as [s [<- Hs]].
      pose proof (Loader.iterate_In shuffle shuffle_perm _ _ _ _ Hb Hs) as Hin.
      rewrite Forall_forall in Hpx. apply Hpx. exact Hin. }
    assert (Hbound : length (map fst b) <= 64).
    { rewrite length_map.
      pose proof (Loader.iterate_bounds shuffle seed trainset) as Hall.
      rewrite Forall_forall in Hall. apply Hall in Hb.
      unfold Loader.batch_size in Hb. lia. }
    pose proof (length_concat_uniform Himgs) as Hcat.
    subst images resized. cbv beta.
    change (stack (map fst b)) with (batch_tensor 28 28 (map fst b)).
    split; [|split; [|split]].
    + apply (resize_keeps_pixels_iff junk 28 28 Himgs). cbn [Nat.mul]. lia.
    + rewrite <- (length_map fst b) at 1.
      apply rows_resized_prefix; assumption.
    + intros i Hi. apply resized_tail_is_junk.
      cbn [batch_tensor storage]. rewrite numel_pair, Hcat, length_map. lia.
    + rewrite (resize_rows_are_images_iff junk 28 28 Himgs), length_map.
      split; [intros [H _]; exact H|intros H; split; [exact H|reflexivity]].
  - unfold batches, Loader.iterate.
    apply Loader.chunks_first; [exact Loader.batch_size_pos|].
    rewrite Hlen. lia.
  - unfold batches, Loader.iterate.
    apply (@Loader.chunks_last _ 64 937 32); [lia|exact Hlen].
Qed.

(** A batch of 32 images of 784 pixels, the pixels of image [k] all
    [k + 1]. *)
Definition partial_batch : list (list Q) :=
  map (fun k => repeat (inject_Z (Z.of_nat (S k))) 784) (seq 0 32).

Lemma partial_batch_pixels : Forall (fun im => length im = 784) partial_batch.
Proof.
  apply Forall_forall. intros im Him. apply in_map_iff in Him.
  destruct Him as [k [<- _]]. apply repeat_length.
Qed.

(** C10, as stated, fails on a partial batch: the batch does not hold 64
    images, yet [resize_(64, 784)] keeps all its pixel data, every pixel
    where it was and every image as a row. *)
Lemma resize_on_partial_batch_counterexample :
  length partial_batch = 32 /\
  Forall (fun im => length im = 784) partial_batch /\
  keeps_pixels (stack partial_batch)
    (resize_ (fun _ => 0%Q) [64; 784] (stack partial_batch)) /\
  firstn 32 (rows (resize_ (fun _ => 0%Q) [64; 784] (stack partial_batch))) =
    partial_batch.
Proof.
  split; [reflexivity|split; [exact partial_batch_pixels|split]].
  - apply (resize_keeps_pixels_iff (fun _ => 0%Q) 28 28 partial_batch_pixels).
    unfold partial_batch. rewrite length_map, length_seq. lia.
  - apply (rows_resized_prefix (fun _ => 0%Q) partial_batch_pixels).
    unfold partial_batch. rewrite length_map, length_seq. lia.
Qed.

(** The flattening idioms agree wherever there is a batch. *)
Lemma flatten_idioms_agree {A : Type} (t : tensor A) (d0 d1 : nat) (rest : list nat) :
  shape t = d0 :: d1 :: rest -> 0 < d0 ->
  view_rows t = inr (mkTensor [d0; numel (d1 :: rest)] (storage t)) /\
  flatten_from_1 t = inr (mkTensor [d0; numel (d1 :: rest)] (storage t)).
Proof.
  intros Hs Hd. unfold view_rows, flatten_from_1. rewrite Hs. split; [|reflexivity].
  rewrite numel_cons.
  replace (d0 =? 0) with false by (symmetry; apply Nat.eqb_neq; lia).
  rewrite Nat.mul_comm, Nat.Div0.mod_mul, Nat.div_mul by lia.
  reflexivity.
Qed.

(** Flattening a batch.  On a batch of images as the loader hands it over,
    of shape (b, 1, 28, 28) with b at least 1, [images.view(images.shape[0], -1)]
    (the loops of Part 3, [Classifier.forward]) and
    [x.flatten(start_dim = 1)] ([Classifier2.forward]) both return the
    (b, 784) tensor over the same storage, whose row [i] holds the pixels of
    image [i].  On a batch of no image the two part ways: [view] refuses to
    work out the size standing for -1, [flatten] returns a (0, 784)
    tensor. *)
Theorem flattening_keeps_each_image (imgs : list (list Q)) :
  Forall (fun im => length im = 784) imgs ->
  let images := stack imgs in
  let flat := mkTensor [length imgs; 784] (concat imgs) in
  (imgs <> [] -> view_rows images = inr flat) /\
  (imgs = [] -> view_rows images = inl (inr (RuntimeError InvalidShape))) /\
  flatten_from_1 images = inr flat /\
  rows flat = imgs.
Proof.
  intros Hpx images flat. split; [|split; [|split]].
  - intros Hne.
    assert (Hb : 0 < length imgs) by (destruct imgs; [congruence|cbn; lia]).
    destruct (@flatten_idioms_agree Q images (length imgs) 1 [28; 28] eq_refl Hb)
      as [Hv _].
    exact Hv.
  - intros ->. reflexivity.
  - reflexivity.
  - apply rows_of_concat. exact Hpx.
Qed.

Lemma view_back {A : Type} (s : list nat) (t t' : tensor A) :
  view s t = inr t' ->
  view (shape t) t' = inr t /\ shape t' = s /\ contents t' = contents t.
Proof.
  unfold view. destruct (Nat.eqb_spec (numel s) (numel (shape t))) as [E|E];
    [|discriminate].
  intros H. injection H as <-. cbn [shape storage].
  rewrite E, Nat.eqb_refl. destruct t as [sh st]. cbn [shape storage].
  split; [reflexivity|split; [reflexivity|]].
  unfold contents. cbn [shape storage] in *. rewrite E. reflexivity.
Qed.

(** The image shown at inference.  From a batch of at least one image,
    [images[0]] is the first image, of shape (1, 28, 28);
    [.view(1, 784)] hands the model its 784 pixels as one row; and
    [.view(1, 28, 28)] on that row, for the plot, gives back the image as it
    was.  A view never changes the elements, and viewing back under the old
    shape undoes it.  On a batch of no image the indexing raises. *)
Theorem inference_image_round_trip (imgs : list (list Q)) :
  Forall (fun im => length im = 784) imgs ->
  (imgs = [] -> select 0 (stack imgs) = inl IndexError) /\
  (imgs <> [] ->
   exists img flat,
     select 0 (stack imgs) = inr img /\
     shape img = [1; 28; 28] /\
     contents img = hd [] imgs /\
     view [1; 784] img = inr flat /\
     rows flat = [hd [] imgs] /\
     view [1; 28; 28] flat = inr img) /\
  (forall (s : list nat) (t t' : tensor Q),
      view s t = inr t' ->
      view (shape t) t' = inr t /\ shape t' = s /\ contents t' = contents t).
Proof.
  intros Hpx. split; [|split].
  - intros ->. reflexivity.
  - intros Hne. destruct imgs as [|im imgs]; [congruence|].
    pose proof (Forall_inv Hpx) as Him. cbn beta in Him. cbn [hd].
    set (img := mkTensor [1; 28; 28] (concat (im :: imgs))).
    assert (Hn : numel [1; 28; 28] = length im) by (rewrite Him; reflexivity).
    assert (Hc : contents img = im).
    { unfold contents, img. cbn [shape storage concat].
      rewrite Hn, firstn_app, Nat.sub_diag, firstn_O, app_nil_r.
      apply firstn_all. }
    exists img, (mkTensor [1; 784] (storage img)).
    split; [reflexivity|split; [reflexivity|split; [exact Hc|]]].
    split; [reflexivity|split; [|reflexivity]].
    unfold rows. cbn [shape seq map Nat.mul skipn].
    change (contents (mkTensor [1; 784] (storage img))) with (contents img).
    rewrite Hc, <- Him, firstn_all. reflexivity.
  - intros s t t'. apply view_back.
Qed.

(** *** What [topk(1, dim=1)] returns, and why [torch.exp] does not change it *)

Lemma existsb_empty_row (m : matrix) :
  existsb (fun row => match row with [] => true | _ => false end) m = true <->
  Exists (fun row => row = []) m.
Proof.
  rewrite existsb_exists, Exists_exists. split; intros [row [Hin H]];
    exists row; (split; [exact Hin|]).
  - destruct row; [reflexivity|discriminate].
  - subst row. reflexivity.
Qed.

(** [probs.topk(1, dim=1)].  When every row has an entry the call returns
    two (n, 1) tensors, entry [i] of the second being the position in row
    [i] of an entry no other entry of the row exceeds, and entry [i] of the
    first being that entry.  When some row has no entry (no class to choose
    from) the call raises. *)
Theorem topk1_returns_largest_of_each_row (m : matrix) :
  (Exists (fun row => row = []) m ->
   topk1 m = inl (RuntimeError IndexOutOfRange)) /\
  (Forall (fun row => row <> []) m ->
   exists top_p top_class,
     topk1 m = inr (top_p, top_class) /\
     shape top_p = [length m; 1] /\ shape top_class = [length m; 1] /\
     length (storage top_p) = length m /\
     length (storage top_class) = length m /\
     forall i, i < length m ->
       exists k,
         nth i (storage top_class) 0%Z = Z.of_nat k /\
         k < length (nth i m []) /\
         nth i (storage top_p) 0%Q = nth k (nth i m []) 0%Q /\
         forall x, In x (nth i m []) -> (x <= nth i (storage top_p) 0)%Q).
Proof.
  split.
  - intros H. unfold topk1.
    rewrite (proj2 (existsb_empty_row m) H). reflexivity.
  - intros H. rewrite (topk1_ok H). eexists. eexists.
    split; [reflexivity|]. cbn [shape storage].
    split; [reflexivity|split; [reflexivity|]].
    split; [apply length_map|split; [apply length_map|]].
    intros i Hi. exists (argmax (nth i m [])).
    assert (Hrow : nth i m [] <> []).
    { rewrite Forall_forall in H. apply H. apply nth_In. exact Hi. }
    destruct (argmax_is_max Hrow) as [Hk Hmax].
    assert (Hp : nth i (map (fun row => nth (argmax row) row 0%Q) m) 0%Q =
                 nth (argmax (nth i m [])) (nth i m []) 0%Q).
    { rewrite (nth_indep _ 0%Q ((fun row => nth (argmax row) row 0%Q) []))
        by (rewrite length_map; exact Hi).
      apply (map_nth (fun row => nth (argmax row) row 0%Q)). }
    split; [|split; [exact Hk|split; [exact Hp|]]].
    + rewrite (nth_indep _ 0%Z ((fun row => Z.of_nat (argmax row)) []))
        by (rewrite length_map; exact Hi).
      apply (map_nth (fun row => Z.of_nat (argmax row))).
    + intros x Hx. rewrite Hp. apply Hmax. exact Hx.
Qed.

(** *** The theorems of this part at small inputs *)

Definition two_images : list (list Q) := [repeat 0%Q 784; repeat 1%Q 784].

Lemma two_images_pixels : Forall (fun im => length im = 784) two_images.
Proof. repeat constructor. Qed.

Lemma flattening_keeps_each_image_witness :
  flatten_from_1 (stack two_images) = inr (mkTensor [2; 784] (concat two_images)) /\
  rows (mkTensor [2; 784] (concat two_images)) = two_images.
Proof.
  destruct (@flattening_keeps_each_image two_images two_images_pixels)
    as (_ & _ & H1 & H2).
  split; [exact H1|exact H2].
Defined.

Lemma inference_image_round_trip_witness :
  exists img flat,
    select 0 (stack two_images) = inr img /\
    view [1; 784] img = inr flat /\
    view [1; 28; 28] flat = inr img.
Proof.
  destruct (@inference_image_round_trip two_images two_images_pixels)
    as (_ & H & _).
  destruct H as (img & flat & H1 & _ & _ & H2 & _ & H3); [discriminate|].
  exists img, flat. split; [exact H1|split; [exact H2|exact H3]].
Defined.

End Tensor.

(** ** Autograd on the small example of Part 3

    [x = torch.randn(2,2, requires_grad=True)], [y = x**2], [z = y.mean()],
    [z.backward()], and then [x.grad] against [x/2]. *)

Module Autograd.

Import Tensor.

(** The operation that made a tensor, as its [grad_fn] prints. *)
Inductive grad_fn : Type := PowBackward0 | MeanBackward0 | DivBackward0.

(** A tensor with its history: a leaf, or the result of an operation of the
    example on a tensor with a history. *)
Inductive var : Type :=
| Leaf (requires : bool) (t : tensor Q)   (* torch.randn(..., requires_grad=requires) *)
| Pow (x : var) (n : nat)                 (* x ** n *)
| Mean (x : var)                          (* x.mean() *)
| Div (x : var) (c : Q).                  (* x / c *)

Definition pointwise (f : Q -> Q) (t : tensor Q) : tensor Q :=
  mkTensor (shape t) (map f (contents t)).

(** The value computed in the forward direction. *)
Fixpoint value (v : var) : tensor Q :=
  match v with
  | Leaf _ t => t
  | Pow x n => pointwise (fun a => a ^ Z.of_nat n)%Q (value x)
  | Mean x => mkTensor [] [mean (value x)]
  | Div x c => pointwise (fun a => a / c)%Q (value x)
  end.

Fixpoint requires_grad (v : var) : bool :=
  match v with
  | Leaf r _ => r
  | Pow x _ | Mean x | Div x _ => requires_grad x
  end.

(** [v.grad_fn]: [None] for a leaf and for a tensor that needs no gradient. *)
Definition grad_fn_of (v : var) : option grad_fn :=
  if requires_grad v
  then match v with
       | Leaf _ _ => None
       | Pow _ _ => Some PowBackward0
       | Mean _ => Some MeanBackward0
       | Div _ _ => Some DivBackward0
       end
  else None.

(** Going backwards through the operations: the gradient with respect to
    the leaf, from the gradient with respect to [v] (one number per
    element). *)
Fixpoint backprop (v : var) (upstream : list Q) : list Q :=
  match v with
  | Leaf _ _ => upstream
  | Pow x n =>
      backprop x
        (map (fun au => snd au * (inject_Z (Z.of_nat n) * fst au ^ Z.of_nat (n - 1)))%Q
           (combine (contents (value x)) upstream))
  | Mean x =>
      let k := numel (shape (value x)) in
      backprop x (repeat (hd 0 upstream / inject_Z (Z.of_nat k))%Q k)
  | Div x c => backprop x (map (fun u => u / c)%Q upstream)
  end.

Inductive backward_error : Type :=
| ScalarOutputsOnly     (* grad can be implicitly created only for scalar outputs *)
| DoesNotRequireGrad.   (* element 0 of tensors does not require grad *)

(** Gradients add up in [.grad]; one that is [None] is set. *)
Definition accumulate_grad (old : option (list Q)) (g : list Q) : option (list Q) :=
  match old with
  | None => Some g
  | Some a => Some (map (fun p => fst p + snd p)%Q (combine a g))
  end.

(** [v.backward()], with the [.grad] the leaf holds before; what it returns
    is the [.grad] the leaf holds after. *)
Definition backward (v : var) (leaf_grad : option (list Q)) :
  backward_error + option (list Q) :=
  if negb (requires_grad v) then inl DoesNotRequireGrad
  else if negb (numel (shape (value v)) =? 1) then inl ScalarOutputsOnly
  else inr (accumulate_grad leaf_grad (backprop v [1%Q])).

Lemma nth_repeat_lt {A : Type} (a d : A) (n i : nat) :
  i < n -> nth i (repeat a n) d = a.
Proof.
  revert i. induction n as [|n IH]; intros i Hi; [lia|].
  destruct i as [|i]; [reflexivity|]. cbn [repeat nth]. apply IH. lia.
Qed.

Lemma backprop_mean_of_squares (xs : list Q) (k : nat) (i : nat) :
  length xs = k -> i < k ->
  (nth i
     (map (fun au => snd au * (inject_Z (Z.of_nat 2) * fst au ^ Z.of_nat (2 - 1)))%Q
        (combine xs (repeat (1 / inject_Z (Z.of_nat k))%Q k))) 0
   == 2 * nth i xs 0 / inject_Z (Z.of_nat k))%Q.
Proof.
  intros Hlen Hi.
  set (f := fun au : Q * Q =>
              (snd au * (inject_Z (Z.of_nat 2) * fst au ^ Z.of_nat (2 - 1)))%Q).
  rewrite (nth_indep _ 0%Q (f (0%Q, 0%Q)))
    by (rewrite length_map, length_combine, repeat_length; lia).
  rewrite (map_nth f), combine_nth by (rewrite repeat_length; exact Hlen).
  rewrite nth_repeat_lt by exact Hi.
  unfold f. cbn [fst snd Nat.sub Z.of_nat Pos.of_succ_nat Pos.succ Qpower Qpower_positive
                 pow_pos Pos.iter_op].
  assert (Hk : ~ (inject_Z (Z.of_nat k) == 0)%Q).
  { unfold Qeq. cbn. lia. }
  change (inject_Z 2) with 2%Q. field. exact Hk.
Qed.

(** The example of the notebook, for a tensor [x] of any shape with at
    least one element.  [y = x**2] carries [PowBackward0] and
    [z = y.mean()] carries [MeanBackward0]; with [x.grad] still [None],
    [z.backward()] leaves in [x.grad] one number per element of [x], twice
    the element divided by the number of elements, which for the four
    elements of a (2, 2) tensor is [x/2], the tensor the cell prints beside
    it.  Calling [backward] on [y] itself, which is no scalar, is refused,
    and so is [z.backward()] when [x] was made without
    [requires_grad=True]. *)
Theorem gradient_of_mean_of_squares (x : tensor Q) :
  let n := numel (shape x) in
  length (storage x) = n -> 0 < n ->
  let y := Pow (Leaf true x) 2 in
  let z := Mean y in
  grad_fn_of y = Some PowBackward0 /\
  grad_fn_of z = Some MeanBackward0 /\
  grad_fn_of (Div (Leaf true x) 2) = Some DivBackward0 /\
  (exists g,
      backward z None = inr (Some g) /\
      length g = n /\
      (forall i, i < n ->
         (nth i g 0 == 2 * nth i (storage x) 0 / inject_Z (Z.of_nat n))%Q) /\
      (n = 4 -> forall i, i < n ->
         (nth i g 0 == nth i (contents (value (Div (Leaf true x) 2))) 0)%Q)) /\
  (1 < n -> backward y None = inl ScalarOutputsOnly) /\
  backward (Mean (Pow (Leaf false x) 2)) None = inl DoesNotRequireGrad.
Proof.
  intros n Hlen Hn y z.
  assert (Hc : contents x = storage x).
  { unfold contents. apply firstn_all2. fold n. lia. }
  assert (Hny : numel (shape (value y)) = n) by reflexivity.
  split; [reflexivity|split; [reflexivity|split; [reflexivity|]]].
  split; [|split; [|reflexivity]].
  - eexists. split; [reflexivity|].
    unfold z, y. cbn [backprop value hd]. rewrite Hc. cbn [pointwise shape]. fold n.
    assert (Hg : forall i, i < n ->
              (nth i
                 (map (fun au => snd au * (inject_Z (Z.of_nat 2) * fst au ^ Z.of_nat (2 - 1)))%Q
                    (combine (storage x) (repeat (1 / inject_Z (Z.of_nat n))%Q n))) 0
               == 2 * nth i (storage x) 0 / inject_Z (Z.of_nat n))%Q).
    { intros i Hi. apply backprop_mean_of_squares; assumption. }
    split; [|split].
    + rewrite length_map, length_combine, repeat_length. lia.
    + exact Hg.
    + intros H4 i Hi. rewrite (Hg i Hi).
      unfold contents at 1. cbn [pointwise shape storage]. fold n. rewrite Hc.
      rewrite firstn_all2 by (rewrite length_map; lia).
      rewrite (nth_indep (map (fun a => a / 2)%Q (storage x)) 0%Q
                 ((fun a => a / 2)%Q 0%Q))
        by (rewrite length_map; lia).
      rewrite (map_nth (fun a => a / 2)%Q).
      rewrite H4. change (inject_Z (Z.of_nat 4)) with 4%Q. field.
  - intros H1. unfold backward. cbn [requires_grad y negb]. rewrite Hny.
    replace (n =? 1) with false by (symmetry; apply Nat.eqb_neq; lia).
    reflexivity.
Qed.

(** A (2, 2) tensor: the gradient left by [z.backward()] is [x/2]. *)
Definition x_2_2 : tensor Q := mkTensor [2; 2] [1; -1; 3; 2]%Q.

Lemma gradient_of_mean_of_squares_witness :
  exists g,
    backward (Mean (Pow (Leaf true x_2_2) 2)) None = inr (Some g) /\
    forall i, i < 4 ->
      (nth i g 0 == nth i (contents (value (Div (Leaf true x_2_2) 2))) 0)%Q.
Proof.
  destruct (@gradient_of_mean_of_squares x_2_2 eq_refl) as (_ & _ & _ & H & _).
  - cbn. lia.
  - destruct H as (g & H1 & _ & _ & H2). exists g.
    split; [exact H1|exact (H2 eq_refl)].
Defined.

End Autograd.

(** ** Networks: [nn.Sequential] models and the dropout classifier *)

Module Net.

Import Tensor.

(** The layers the notebooks use. *)
Inductive layer : Type :=
| Linear (in_features out_features : nat)
| ReLU
| LogSoftmax (dim : nat)
| Dropout (p : Q).

(** [nn.Sequential(l1, ..., lk)] applies its layers in order. *)
Definition sequential : Type := list layer.

Definition call {V : Type} (sem : layer -> V -> V) (model : sequential) (x : V) : V :=
  fold_left (fun acc l => sem l acc) model x.

(** A layer that turns scores into (log-)probabilities. *)
Definition normalizing (l : layer) : bool :=
  match l with
  | LogSoftmax _ => true
  | _ => false
  end.

(** Values as the history of layers applied to the input batch. *)
Inductive value : Type :=
| Images
| Apply (l : layer) (v : value).

(** Raw scores: the output of a linear layer, nothing applied on top. *)
Definition raw_scores (v : value) : bool :=
  match v with
  | Apply (Linear _ _) _ => true
  | _ => false
  end.

(** Part 3, first loss cell (CrossEntropyLoss): the model has no
    normalizing layer, and [logits = model(images)]. *)
Definition model_cross_entropy : sequential :=
  [Linear 784 128; ReLU; Linear 128 64; ReLU; Linear 64 10].

(** Part 3, exercise cell (NLLLoss): the same layers;
    [logits = model(images)], and [nn.LogSoftmax(dim=1)] is applied to
    [logits] afterwards, in the call of the criterion. *)
Definition model_nll_exercise : sequential :=
  [Linear 784 128; ReLU; Linear 128 64; ReLU; Linear 64 10].

(** Part 3, cell "Loss and Autograd together": the model ends with
    [nn.LogSoftmax(dim=1)], and again [logits = model(images)]. *)
Definition model_autograd : sequential :=
  [Linear 784 128; ReLU; Linear 128 64; ReLU; Linear 64 10; LogSoftmax 1].

Definition logits_cross_entropy : value := call Apply model_cross_entropy Images.
Definition logits_nll_exercise : value := call Apply model_nll_exercise Images.
Definition logits_autograd : value := call Apply model_autograd Images.

(** *** The dropout classifier of Part 5, [Classifier2] *)

Definition relu (v : Q) : Q := if Qlt_le_dec 0 v then v else 0%Q.

(** [nn.Module] keeps one flag, [training], set by [train()] and cleared by
    [eval()]; sub-modules (here [self.dropout]) follow it. *)
Record module : Type := mkModule { training : bool }.

Definition eval_ (m : module) : module := mkModule false.
Definition train_ (m : module) : module := mkModule true.

Section Classifier2.
(** The affine maps of the three linear layers, with their current weights,
    and [F.log_softmax(_, dim=1)] on one row. *)
Variables fc1 fc2 fc3 : list Q -> list Q.
Variable log_softmax : list Q -> list Q.
(** The random draw of a dropout call: by the state of the generator and
    the position (row, column), whether that element is zeroed. *)
Variable drops : nat -> nat -> nat -> bool.

(** [self.dropout = nn.Dropout(p=0.2)] *)
Definition p_drop : Q := 2 # 10.

Definition dropout_row (rng i : nat) (row : list Q) : list Q :=
  map (fun jv => if drops rng i (fst jv) then 0%Q else (snd jv / (1 - p_drop))%Q)
      (combine (seq 0 (length row)) row).

Definition dropout_on (rng : nat) (h : matrix) : matrix :=
  map (fun ir => dropout_row rng (fst ir) (snd ir))
      (combine (seq 0 (length h)) h).

(** [nn.Dropout.forward]: in training mode the elements drawn are zeroed and
    the others scaled by 1/(1-p), which uses up one draw of the generator;
    in evaluation mode the input is returned as it is. *)
Definition dropout (m : module) (h : matrix) (rng : nat) : matrix * nat :=
  if training m then (dropout_on rng h, S rng) else (h, rng).

(** [x.flatten(start_dim = 1)]: one row per example, which a [matrix]
    already is. *)
Definition flatten (x : matrix) : matrix := x.

(** [Classifier2.forward]; the generator state is threaded through. *)
Definition forward (m : module) (x : matrix) (rng : nat) : matrix * nat :=
  (* x = x.flatten(start_dim = 1) *)
  let x := flatten x in
  (* x = self.dropout(F.relu(self.fc1(x))) *)
  let (x, rng) := dropout m (map (fun r => map relu (fc1 r)) x) rng in
  (* x = self.dropout(F.relu(self.fc2(x))) *)
  let (x, rng) := dropout m (map (fun r => map relu (fc2 r)) x) rng in
  (* x = F.log_softmax(self.fc3(x), dim=1) *)
  let x := map (fun r => log_softmax (fc3 r)) x in
  (x, rng).

(** The same network with the dropout calls left out. *)
Definition forward_no_dropout (x : matrix) : matrix :=
  map (fun r => log_softmax (fc3 (map relu (fc2 (map relu (fc1 r)))))) x.

Lemma nth_combine_seq {A : Type} (l : list A) (i : nat) (d : A) :
  i < length l -> nth i (combine (seq 0 (length l)) l) (0, d) = (i, nth i l d).
Proof.
  intros Hi. rewrite combine_nth by (rewrite length_seq; reflexivity).
  rewrite seq_nth by exact Hi. reflexivity.
Qed.

Lemma dropout_on_entry (rng : nat) (h : matrix) (i j : nat) :
  i < length h -> j < length (nth i h []) ->
  nth j (nth i (dropout_on rng h) []) 0%Q =
  if drops rng i j then 0%Q else (nth j (nth i h []) 0 / (1 - p_drop))%Q.
Proof.
  intros Hi Hj. unfold dropout_on.
  rewrite (nth_indep _ [] (dropout_row rng (fst (0, @nil Q)) (snd (0, @nil Q))))
    by (rewrite length_map, length_combine, length_seq; lia).
  rewrite (map_nth (fun ir => dropout_row rng (fst ir) (snd ir))).
  rewrite nth_combine_seq by exact Hi. cbn [fst snd].
  unfold dropout_row.
  set (f := fun jv : nat * Q =>
              if drops rng i (fst jv) then 0%Q else (snd jv / (1 - p_drop))%Q).
  rewrite (nth_indep _ 0%Q (f (0, 0%Q)))
    by (rewrite length_map, length_combine, length_seq; lia).
  rewrite (map_nth f).
  rewrite nth_combine_seq by exact Hj. reflexivity.
Qed.

(** C5.  In [Classifier2] dropout acts only in training mode.  After
    [model.eval()] a forward pass computes the network without dropout and
    draws nothing from the generator.  In training mode exactly two draws
    are made, one after each hidden layer: the hidden activations drawn are
    zeroed (the others rescaled), and the output layer
    [log_softmax(fc3(_))] is applied to them with no dropout after it. *)
Theorem dropout_only_in_training_mode (m : module) (x : matrix) (rng : nat) :
  forward (eval_ m) x rng = (forward_no_dropout x, rng) /\
  (let h1 := dropout_on rng (map (fun r => map relu (fc1 r)) x) in
   let h2 := dropout_on (S rng) (map (fun r => map relu (fc2 r)) h1) in
   forward (train_ m) x rng = (map (fun r => log_softmax (fc3 r)) h2, S (S rng))) /\
  (forall (h : matrix) (s i j : nat),
      i < length h -> j < length (nth i h []) ->
      nth j (nth i (fst (dropout (train_ m) h s)) []) 0%Q =
      if drops s i j then 0%Q else (nth j (nth i h []) 0 / (1 - p_drop))%Q) /\
  (forall (h : matrix) (s : nat), dropout (eval_ m) h s = (h, s)).
Proof.
  split; [|split; [|split]].
  - unfold forward, dropout, eval_, forward_no_dropout. cbn [training].
    rewrite !map_map. reflexivity.
  - reflexivity.
  - intros h s i j Hi Hj. cbn [dropout train_ training fst].
    apply dropout_on_entry; assumption.
  - reflexivity.
Qed.
End Classifier2.

(** C3 (the cell "Loss and Autograd together" of Part 3).  The value bound
    to [logits] there is the output of [nn.LogSoftmax(dim=1)] applied to the
    scores of the last linear layer: a normalizing transform has been
    applied, so it is not the raw score.  In the two loss cells before it
    [logits] is the raw output of the last linear layer. *)
Theorem logits_autograd_cell_is_log_softmax_output :
  (exists scores,
      logits_autograd = Apply (LogSoftmax 1) scores /\
      raw_scores scores = true /\
      scores = logits_cross_entropy) /\
  raw_scores logits_autograd = false /\
  existsb normalizing model_autograd = true /\
  raw_scores logits_cross_entropy = true /\
  raw_scores logits_nll_exercise = true /\
  (forall (V : Type) (sem : layer -> V -> V) (images : V),
      call sem model_autograd images =
      sem (LogSoftmax 1) (call sem model_cross_entropy images)).
Proof.
  split; [|repeat split].
  exists logits_cross_entropy. repeat split.
Qed.

End Net.

(** ** The notebooks' loops, as programs over the state of the framework *)

Module Torch.

Import Tensor.

(** One example of a dataset: the pixels of an image, and its label. *)
Definition sample : Type := (list Q * Z)%type.
Definition batch : Type := list sample.

(** A parameter of a model: its value and its [.grad], [None] until a
    backward pass reaches it. *)
Record parameter : Type := mkParam { data : Q; grad : option Q }.

(** How a forward pass runs: in evaluation mode, or in training mode with
    the random draws of its stochastic layers. *)
Inductive mode : Type :=
| Eval
| Training (seed : nat).

(** What autograd records in a forward pass. *)
Record graph : Type := mkGraph {
  g_data : list Q;
  g_mode : mode;
  g_images : list (list Q)
}.

(** [model(images)]: one row of scores per image, and the graph unless
    gradients are turned off. *)
Record output : Type := mkOutput { o_rows : matrix; o_graph : option graph }.

(** [criterion(output, labels)] *)
Record loss_t : Type := mkLoss { l_item : Q; l_graph : option (graph * list Z) }.

Inductive loader : Type := TrainLoader | TestLoader.

(** The calls the notebooks make. *)
Inductive event : Type :=
| EIter (l : loader) | ENext (l : loader)
| EView | EForward | ECriterion | EBackward | EStep | EZeroGrad | EItem
| EExp | ETopk | EEq | EFloat | EMean | EDiv | ENumpy | ELen
| EEval | ETrain | ENoGradEnter | ENoGradExit | EPrint.

Definition event_eqb (a b : event) : bool :=
  match a, b with
  | EIter TrainLoader, EIter TrainLoader | EIter TestLoader, EIter TestLoader
  | ENext TrainLoader, ENext TrainLoader | ENext TestLoader, ENext TestLoader
  | EView, EView | EForward, EForward | ECriterion, ECriterion
  | EBackward, EBackward | EStep, EStep | EZeroGrad, EZeroGrad
  | EItem, EItem | EExp, EExp | ETopk, ETopk | EEq, EEq | EFloat, EFloat
  | EMean, EMean | EDiv, EDiv | ENumpy, ENumpy | ELen, ELen | EEval, EEval
  | ETrain, ETrain | ENoGradEnter, ENoGradEnter | ENoGradExit, ENoGradExit
  | EPrint, EPrint => true
  | _, _ => false
  end.

(** The five operations of a training step. *)
Definition is_training_op (e : event) : bool :=
  match e with
  | EForward | ECriterion | EBackward | EStep | EZeroGrad => true
  | _ => false
  end.

Definition training_ops (evs : list event) : list event :=
  filter is_training_op evs.

(** *** The loops as they stand in the notebooks, line by line

    A line of a cell is recorded with its number in the notebook file, its
    indentation (in steps of four spaces) and what it is; a statement is
    recorded with the library calls it makes, in the order Python evaluates
    them. *)

Inductive line_kind : Type :=
| Blank
| Comment
| ForHeader (over : option loader)
| ForElse
| WithHeader
| Statement (calls : list event)
| IfHeader | ElifHeader | IfElse | WhileHeader
| TryHeader | ExceptHeader | FinallyHeader
| BreakStmt | ContinueStmt | ReturnStmt | RaiseStmt.

Record line : Type := mkLine { number : nat; indent : nat; kind : line_kind }.

(** Control flow that depends on a condition or leaves the straight line:
    conditionals, conditional loops, exception handlers, jumps. *)
Definition branching (k : line_kind) : bool :=
  match k with
  | IfHeader | ElifHeader | IfElse | WhileHeader
  | TryHeader | ExceptHeader | FinallyHeader
  | BreakStmt | ContinueStmt | ReturnStmt | RaiseStmt => true
  | _ => false
  end.

Definition calls_of (k : line_kind) : list event :=
  match k with
  | Statement calls => calls
  | _ => []
  end.

(** The library calls of a block of lines, in order. *)
Definition body_calls (ls : list line) : list event :=
  flat_map (fun l => calls_of (kind l)) ls.

Definition straight (ls : list line) : bool :=
  forallb (fun l => negb (branching (kind l))) ls.

(** The lines are consecutive lines of the file. *)
Definition consecutive (ls : list line) : bool :=
  match ls with
  | [] => true
  | l :: _ => forallb (fun p => number (snd p) =? fst p)
                      (combine (seq (number l) (length ls)) ls)
  end.

(** Part 3, lines 626-636: the body of [for images, labels in trainloader:]. *)
Definition part3_pass_lines : list line :=
  [mkLine 626 2 Comment;
   mkLine 627 2 (Statement [EView]);
   mkLine 628 0 Blank;
   mkLine 629 2 Comment;
   mkLine 630 0 Blank;
   mkLine 631 2 (Statement [EForward; ECriterion]);
   mkLine 632 2 (Statement [EBackward]);
   mkLine 633 2 (Statement [EStep]);
   mkLine 634 2 (Statement [EZeroGrad]);
   mkLine 635 0 Blank;
   mkLine 636 2 (Statement [EItem])].

(** Part 3, lines 623-638: the training loop of the exercise. *)
Definition part3_training_loop : list line :=
  [mkLine 623 0 (ForHeader None);
   mkLine 624 1 (Statement []);
   mkLine 625 1 (ForHeader (Some TrainLoader))]
  ++ part3_pass_lines ++
  [mkLine 637 1 ForElse;
   mkLine 638 2 (Statement [ELen; EDiv; EPrint])].

(** Part 5, lines 231-240: the body of the training loop of the [Classifier] cell. *)
Definition cell13_training_pass_lines : list line :=
  [mkLine 231 0 Blank;
   mkLine 232 2 (Statement [EZeroGrad]);
   mkLine 233 0 Blank;
   mkLine 234 2 (Statement [EForward]);
   mkLine 235 2 (Statement [ECriterion]);
   mkLine 236 2 (Statement [EBackward]);
   mkLine 237 2 (Statement [EStep]);
   mkLine 238 0 Blank;
   mkLine 239 2 (Statement [EItem]);
   mkLine 240 0 Blank].

(** Part 5, lines 230-240: that training loop. *)
Definition cell13_training_loop : list line :=
  mkLine 230 1 (ForHeader (Some TrainLoader)) :: cell13_training_pass_lines.

(** Part 5, lines 245-249: the body of [for images, labels in testloader:]. *)
Definition cell13_validation_pass_lines : list line :=
  [mkLine 245 3 WithHeader;
   mkLine 246 4 (Statement [EForward; EExp]);
   mkLine 247 3 (Statement [ETopk]);
   mkLine 248 3 (Statement [EView; EEq]);
   mkLine 249 3 (Statement [EFloat; EMean])].

(** Part 5, lines 242-251: the validation pass, the loop with the lines
    that set up and report the accuracy. *)
Definition cell13_validation_loop : list line :=
  [mkLine 242 2 Comment;
   mkLine 243 2 (Statement []);
   mkLine 244 2 (ForHeader (Some TestLoader))]
  ++ cell13_validation_pass_lines ++
  [mkLine 250 2 (Statement [EDiv]);
   mkLine 251 2 (Statement [EPrint])].

(** Part 5, lines 389-398: the body of the training loop of the [Classifier2] cell. *)
Definition cell17_training_pass_lines : list line :=
  [mkLine 389 2 (Statement [EZeroGrad]);
   mkLine 390 2 (Statement [EForward]);
   mkLine 391 2 (Statement [ECriterion]);
   mkLine 392 2 (Statement [EBackward]);
   mkLine 393 2 (Statement [EStep]);
   mkLine 394 0 Blank;
   mkLine 395 2 (Statement [EExp]);
   mkLine 396 2 (Statement [ETopk]);
   mkLine 397 2 (Statement [EView; EEq]);
   mkLine 398 2 (Statement [EFloat; EMean])].

(** Part 5, lines 388-400: that training loop and the two lines on its
    accuracy. *)
Definition cell17_training_loop : list line :=
  mkLine 388 1 (ForHeader (Some TrainLoader)) :: cell17_training_pass_lines ++
  [mkLine 399 1 (Statement [ENumpy; ELen]);
   mkLine 400 1 (Statement [])].

(** Part 5, lines 403-411: the body of the test loop of the [Classifier2] cell. *)
Definition cell17_test_pass_lines : list line :=
  [mkLine 403 2 WithHeader;
   mkLine 404 3 (Statement [EEval]);
   mkLine 405 3 (Statement [EForward]);
   mkLine 406 3 (Statement [ECriterion]);
   mkLine 407 2 (Statement [EExp]);
   mkLine 408 2 (Statement [ETopk]);
   mkLine 409 2 (Statement [EView; EEq]);
   mkLine 410 2 (Statement [EFloat; EMean]);
   mkLine 411 2 (Statement [ETrain])].

(** Part 5, lines 402-413: that test loop and the two lines on its
    accuracy. *)
Definition cell17_test_loop : list line :=
  mkLine 402 1 (ForHeader (Some TestLoader)) :: cell17_test_pass_lines ++
  [mkLine 412 1 (Statement [ENumpy; ELen]);
   mkLine 413 1 (Statement [])].

(** The five loops. *)
Definition manual_loops : list (list line) :=
  [part3_training_loop; cell13_training_loop; cell13_validation_loop;
   cell17_training_loop; cell17_test_loop].

(** Part 5, lines 228-251 and 386-415: the loops over the epochs, each
    holding a training loop and an accuracy loop. *)
Definition cell13_epoch_loop : list line :=
  [mkLine 228 0 (ForHeader None);
   mkLine 229 1 (Statement [])]
  ++ cell13_training_loop ++
  [mkLine 241 1 ForElse]
  ++ cell13_validation_loop.

Definition cell17_epoch_loop : list line :=
  [mkLine 386 0 (ForHeader None);
   mkLine 387 1 (Statement [])]
  ++ cell17_training_loop ++
  [mkLine 401 0 Blank]
  ++ cell17_test_loop ++
  [mkLine 414 0 Blank;
   mkLine 415 1 (Statement [EPrint])].

Section Model.

(** *** The framework, abstractly *)

(** The state an optimizer keeps between steps (none for plain SGD,
    moment estimates for Adam). *)
Variable O : Type.
(** The model on one image: from the parameter values, the mode, the pixels
    to the scores (log-probabilities) of the classes. *)
Variable net : list Q -> mode -> list Q -> list Q.
(** The value of the loss ([nn.NLLLoss]) on a batch. *)
Variable nll : matrix -> list Z -> Q.
(** The derivative of the loss of a recorded forward pass with respect to
    the parameter of a given index. *)
Variable autograd : graph -> list Z -> nat -> Q.
(** The update rule of the optimizer: the new value of the parameter of a
    given index, from its value and gradient; and the optimizer's next
    state. *)
Variable opt_data : O -> nat -> Q -> Q -> Q.
Variable opt_next : O -> list parameter -> O.
(** [torch.exp] on one element. *)
Variable expQ : Q -> Q.
(** [shuffle=True]: the order of one pass, by the generator state. *)
Variable shuffle : nat -> list sample -> list sample.
(** [optimizer.zero_grad()] either zeroes the gradients or (the default of
    later versions) resets them to [None]. *)
Variable set_to_none : bool.
(** The two datasets. *)
Variables trainset testset : list sample.

(** *** The state of the framework, and the world the programs run in *)

Record torch : Type := mkTorch {
  params : list parameter;     (* model.parameters() *)
  ostate : O;                  (* the optimizer's own state *)
  training : bool;             (* model.training *)
  grad_enabled : bool;         (* torch.is_grad_enabled() *)
  rng : nat                    (* the random number generator *)
}.

(** The record of one call: which, the how-manieth, in which state, what it
    raised if it did, and what it printed. *)
Record entry : Type := mkEntry {
  ev : event;
  at_clock : nat;
  pre : torch;
  err : option exn;
  shown : list Q
}.

Record world : Type := mkWorld {
  st : torch;
  clock : nat;                     (* calls made so far *)
  trace : list entry;              (* their records, oldest first *)
  faults : nat -> option exn       (* what the environment makes the k-th call raise *)
}.

Definition set_params (ps : list parameter) (t : torch) : torch :=
  mkTorch ps (ostate t) (training t) (grad_enabled t) (rng t).
Definition set_ostate (o : O) (t : torch) : torch :=
  mkTorch (params t) o (training t) (grad_enabled t) (rng t).
Definition set_training (b : bool) (t : torch) : torch :=
  mkTorch (params t) (ostate t) b (grad_enabled t) (rng t).
Definition set_grad_enabled (b : bool) (t : torch) : torch :=
  mkTorch (params t) (ostate t) (training t) b (rng t).
Definition next_rng (t : torch) : torch :=
  mkTorch (params t) (ostate t) (training t) (grad_enabled t) (S (rng t)).

Definition no_faults : nat -> option exn := fun _ => None.

(** A freshly built model and optimizer: no parameter has a gradient yet,
    the model is in training mode and gradients are recorded. *)
Definition fresh_torch (values : list Q) (o : O) (seed : nat) : torch :=
  mkTorch (map (fun d => mkParam d None) values) o true true seed.

Definition fresh_world (values : list Q) (o : O) (seed : nat)
  (f : nat -> option exn) : world :=
  mkWorld (fresh_torch values o seed) 0 [] f.

(** *** Programs: state, exceptions and the log of calls *)

Inductive result (A : Type) : Type :=
| Ok (a : A) (w : world)
| Raised (e : exn) (w : world).
Arguments Raised {A} e w.

Definition M (A : Type) : Type := world -> result A.

Definition ret {A : Type} (a : A) : M A := fun w => Ok a w.

Definition bind {A B : Type} (m : M A) (k : A -> M B) : M B :=
  fun w =>
    match m w with
    | Ok a w' => k a w'
    | Raised e w' => Raised e w'
    end.

(** The world after a call: the call is logged and counted. *)
Definition logged (e : event) (x : option exn) (out : list Q) (t : torch) (w : world) : world :=
  mkWorld t (S (clock w)) (trace w ++ [mkEntry e (clock w) (st w) x out]) (faults w).

(** A call into the library.  It raises what the environment schedules for
    it, or else what its own preconditions demand; otherwise it returns and
    leaves the framework in a new state. *)
Definition call_with {A : Type} (e : event) (out : list Q)
  (f : torch -> exn + (A * torch)) : M A :=
  fun w =>
    match faults w (clock w) with
    | Some x => Raised x (logged e (Some x) out (st w) w)
    | None =>
        match f (st w) with
        | inl x => Raised x (logged e (Some x) out (st w) w)
        | inr (a, t) => Ok a (logged e None out t w)
        end
    end.

Definition lib {A : Type} (e : event) (f : torch -> exn + (A * torch)) : M A :=
  call_with e [] f.

(** A context manager's enter and exit: logged, not counted. *)
Definition noted (e : event) (t : torch) (w : world) : world :=
  mkWorld t (clock w) (trace w ++ [mkEntry e (clock w) (st w) None []]) (faults w).

(** [with torch.no_grad(): body].  Gradients are off inside; the previous
    setting is put back on the way out, also when the body raises, and the
    exception goes on. *)
Definition no_grad {A : Type} (body : M A) : M A :=
  fun w =>
    let prev := grad_enabled (st w) in
    match body (noted ENoGradEnter (set_grad_enabled false (st w)) w) with
    | Ok a w' => Ok a (noted ENoGradExit (set_grad_enabled prev (st w')) w')
    | Raised e w' => Raised e (noted ENoGradExit (set_grad_enabled prev (st w')) w')
    end.

(** [for x in l: body], threading the variables the body assigns. *)
Fixpoint for_each {A B : Type} (l : list A) (body : A -> B -> M B) (acc : B) : M B :=
  match l with
  | [] => ret acc
  | x :: r => bind (body x acc) (fun acc' => for_each r body acc')
  end.

Notation "x <- m ;; k" := (bind m (fun x => k))
  (at level 61, m at next level, right associativity).
Notation "m ;; k" := (bind m (fun _ => k))
  (at level 61, right associativity).

(** *** The library calls *)

Definition dataset (l : loader) : list sample :=
  match l with
  | TrainLoader => trainset
  | TestLoader => testset
  end.

(** [iter(loader)]: draws the order of the pass. *)
Definition iter_ (l : loader) : M (list batch) :=
  lib (EIter l)
    (fun t => inr (Loader.iterate shuffle (rng t) (dataset l), next_rng t)).

(** [next(it)] on an iterator that has the batches [rest] left to give: the
    first of them, or [StopIteration] when none is left. *)
Definition next_ (l : loader) (rest : list batch) : M batch :=
  lib (ENext l)
    (fun t =>
       match rest with
       | [] => inl StopIteration
       | b :: _ => inr (b, t)
       end).

Definition ends_loop (e : exn) : bool :=
  match e with
  | StopIteration => true
  | _ => false
  end.

(** What a [for] statement does with its call of [next]: a batch goes to
    the body; [StopIteration] ends the loop, whoever raised it; any other
    exception goes on. *)
Definition on_next {A B : Type} (fetch : M A) (body : A -> M B) (done : M B) : M B :=
  fun w =>
    match fetch w with
    | Ok a w' => body a w'
    | Raised e w' => if ends_loop e then done w' else Raised e w'
    end.

(** The iterations of [for images, labels in loader: body] over the batches
    the iterator has left, threading the variables the body assigns.  The
    loop ends with the call of [next] that raises [StopIteration]; nothing
    is caught of what the body raises. *)
Fixpoint for_batches {B : Type} (l : loader) (rest : list batch)
  (body : batch -> B -> M B) (acc : B) : M B :=
  match rest with
  | [] => on_next (next_ l []) (fun _ => ret acc) (ret acc)
  | _ :: r =>
      on_next (next_ l rest)
        (fun b => bind (body b acc) (fun acc' => for_batches l r body acc'))
        (ret acc)
  end.

(** [for images, labels in loader: body], also with an [else:] block after
    it: none of the loops has a [break], so the block is what comes next. *)
Definition for_loader {B : Type} (l : loader) (body : batch -> B -> M B) (acc : B) : M B :=
  batches <- iter_ l ;;
  for_batches l batches body acc.

(** [len(loader)]: the number of batches of a pass. *)
Definition len_ (l : loader) : M nat :=
  lib ELen
    (fun t => inr ((length (dataset l) + Loader.batch_size - 1) / Loader.batch_size, t)).

(** [images.view(images.shape[0], -1)]: one row per image. *)
Definition view_flat (images : list (list Q)) : M (list (list Q)) :=
  lib EView (fun t => inr (images, t)).

Definition current_mode (t : torch) : mode :=
  if training t then Training (rng t) else Eval.

(** The forward pass on a batch in state [t]: the scores, and what autograd
    records of it. *)
Definition scores (t : torch) (images : list (list Q)) : matrix :=
  map (net (map data (params t)) (current_mode t)) images.

Definition graph_of (t : torch) (images : list (list Q)) : graph :=
  mkGraph (map data (params t)) (current_mode t) images.

(** A forward pass in training mode uses up random draws. *)
Definition after_forward (t : torch) : torch :=
  if training t then next_rng t else t.

(** [model(images)] *)
Definition model_call (images : list (list Q)) : M output :=
  lib EForward
    (fun t =>
       inr (mkOutput (scores t images)
              (if grad_enabled t then Some (graph_of t images) else None),
            after_forward t)).

(** [criterion(output, labels)]: one label per row is expected. *)
Definition criterion (out : output) (labels : list Z) : M loss_t :=
  lib ECriterion
    (fun t =>
       if length (o_rows out) =? length labels
       then inr (mkLoss (nll (o_rows out) labels)
                   (option_map (fun g => (g, labels)) (o_graph out)), t)
       else inl ValueError).

Definition indexed {A : Type} (l : list A) : list (nat * A) :=
  combine (seq 0 (length l)) l.

(** Gradients add up in [.grad]; a gradient that is [None] is set. *)
Definition accumulate (d : nat -> Q) (ps : list parameter) : list parameter :=
  map (fun ip =>
         mkParam (data (snd ip))
           (Some (match grad (snd ip) with
                  | None => d (fst ip)
                  | Some a => (a + d (fst ip))%Q
                  end)))
      (indexed ps).

Definition after_backward (g : graph) (labels : list Z) (t : torch) : torch :=
  set_params (accumulate (autograd g labels) (params t)) t.

(** [loss.backward()]: needs a recorded graph. *)
Definition backward (l : loss_t) : M unit :=
  lib EBackward
    (fun t =>
       match l_graph l with
       | None => inl (RuntimeError NoGradFn)
       | Some (g, labels) => inr (tt, after_backward g labels t)
       end).

(** The optimizer updates every parameter that has a gradient. *)
Definition step_params (o : O) (ps : list parameter) : list parameter :=
  map (fun ip =>
         match grad (snd ip) with
         | None => snd ip
         | Some g => mkParam (opt_data o (fst ip) (data (snd ip)) g) (Some g)
         end)
      (indexed ps).

Definition after_step (t : torch) : torch :=
  set_ostate (opt_next (ostate t) (params t))
    (set_params (step_params (ostate t) (params t)) t).

(** [optimizer.step()] *)
Definition optimizer_step : M unit :=
  lib EStep (fun t => inr (tt, after_step t)).

Definition zero_param (p : parameter) : parameter :=
  mkParam (data p)
    (match grad p with
     | None => None
     | Some _ => if set_to_none then None else Some 0%Q
     end).

Definition after_zero_grad (t : torch) : torch :=
  set_params (map zero_param (params t)) t.

(** [optimizer.zero_grad()] *)
Definition optimizer_zero_grad : M unit :=
  lib EZeroGrad (fun t => inr (tt, after_zero_grad t)).

(** [loss.item()] *)
Definition item (l : loss_t) : M Q :=
  lib EItem (fun t => inr (l_item l, t)).

(** [torch.exp(output)] *)
Definition torch_exp (out : output) : M matrix :=
  lib EExp (fun t => inr (map (map expQ) (o_rows out), t)).

Definition lift {A : Type} (t : torch) (r : exn + A) : exn + (A * torch) :=
  match r with
  | inl x => inl x
  | inr a => inr (a, t)
  end.

(** [probs.topk(1, dim=1)] *)
Definition topk_1 (probs : matrix) : M (tensor Q * tensor Z) :=
  lib ETopk (fun t => lift t (topk1 probs)).

(** [labels.view( *shape)] *)
Definition labels_view (labels : list Z) (s : list nat) : M (tensor Z) :=
  lib EView (fun t => lift t (view s (mkTensor [length labels] labels))).

(** [a == b] *)
Definition tensor_eq (a b : tensor Z) : M (tensor bool) :=
  lib EEq (fun t => lift t (eq a b)).

(** [equals.type(torch.FloatTensor)] *)
Definition float_type (b : tensor bool) : M (tensor Q) :=
  lib EFloat (fun t => inr (to_float b, t)).

(** [torch.mean(t)] *)
Definition torch_mean (x : tensor Q) : M Q :=
  lib EMean (fun t => inr (mean x, t)).

(** [x / n] with [n] a Python integer. *)
Definition py_div (x : Q) (n : nat) : M Q :=
  lib EDiv
    (fun t =>
       match n with
       | 0 => inl ZeroDivisionError
       | S _ => inr ((x / inject_Z (Z.of_nat n))%Q, t)
       end).

(** An accumulator that starts as the Python integer 0 and becomes a tensor
    with the first [+=] of a tensor. *)
Definition add_tensor (acc : option Q) (x : Q) : option Q :=
  match acc with
  | None => Some x
  | Some a => Some (a + x)%Q
  end.

(** [acc.numpy()]: an integer has no such attribute. *)
Definition numpy_ (acc : option Q) : M Q :=
  lib ENumpy
    (fun t =>
       match acc with
       | None => inl AttributeError
       | Some a => inr (a, t)
       end).

(** [model.eval()] and [model.train()] *)
Definition model_eval : M unit :=
  lib EEval (fun t => inr (tt, set_training false t)).
Definition model_train : M unit :=
  lib ETrain (fun t => inr (tt, set_training true t)).

(** [print(...)] of the given numbers. *)
Definition print (vals : list Q) : M unit :=
  call_with EPrint vals (fun t => inr (tt, t)).

Definition images_of (b : batch) : list (list Q) := map fst b.
Definition labels_of (b : batch) : list Z := map snd b.

(** *** Part 3: the exercise training loop *)

(** The body of [for images, labels in trainloader:]. *)
Definition training_pass_part3 (b : batch) (running_loss : Q) : M Q :=
  let images := images_of b in
  let labels := labels_of b in
  (* images = images.view(images.shape[0], -1) *)
  images <- view_flat images ;;
  (* loss = criterion(model(images), labels) *)
  out <- model_call images ;;
  loss <- criterion out labels ;;
  (* loss.backward() *)
  backward loss ;;
  (* optimizer.step() *)
  optimizer_step ;;
  (* optimizer.zero_grad() *)
  optimizer_zero_grad ;;
  (* running_loss += loss.item() *)
  x <- item loss ;;
  ret (running_loss + x)%Q.

(** The body of [for e in range(epochs):]. *)
Definition epoch_part3 (e : nat) (_ : unit) : M unit :=
  (* running_loss = 0 *)
  let running_loss := 0%Q in
  running_loss <- for_loader TrainLoader training_pass_part3 running_loss ;;
  (* else: print(running_loss/len(trainloader)) *)
  n <- len_ TrainLoader ;;
  avg <- py_div running_loss n ;;
  print [avg].

Definition train_part3 (epochs : nat) : M unit :=
  for_each (seq 0 epochs) epoch_part3 tt.

(** [epochs = 5] *)
Definition cell_part3 : M unit := train_part3 5.

(** *** Part 3: the pattern of the demonstrated training step

    The single step shown before the exercise clears the gradients first:
    [optimizer.zero_grad()], forward pass, loss, [loss.backward()],
    [optimizer.step()].  Here that pattern is the body of the loop, on the
    images flattened as the loop flattens them. *)
Definition demonstrated_pass (b : batch) (running_loss : Q) : M Q :=
  let images := images_of b in
  let labels := labels_of b in
  images <- view_flat images ;;
  (* optimizer.zero_grad() *)
  optimizer_zero_grad ;;
  (* output = model(images) *)
  out <- model_call images ;;
  (* loss = criterion(output, labels) *)
  loss <- criterion out labels ;;
  (* loss.backward() *)
  backward loss ;;
  (* optimizer.step() *)
  optimizer_step ;;
  x <- item loss ;;
  ret (running_loss + x)%Q.

(** *** Part 5: training with a validation pass (the [Classifier] cell) *)

Definition training_pass_cell13 (b : batch) (running_loss : Q) : M Q :=
  let images := images_of b in
  let labels := labels_of b in
  (* optimizer.zero_grad() *)
  optimizer_zero_grad ;;
  (* log_ps = model(images) *)
  log_ps <- model_call images ;;
  (* loss = criterion(log_ps, labels) *)
  loss <- criterion log_ps labels ;;
  (* loss.backward() *)
  backward loss ;;
  (* optimizer.step() *)
  optimizer_step ;;
  (* running_loss += loss.item() *)
  x <- item loss ;;
  ret (running_loss + x)%Q.

(** The accuracy of one batch, as both cells of Part 5 compute it. *)
Definition batch_accuracy (probs : matrix) (labels : list Z) : M Q :=
  (* top_p, top_class = probs.topk(1, dim=1) *)
  r <- topk_1 probs ;;
  let top_class := snd r in
  (* equals = top_class == labels.view( *top_class.shape) *)
  reshaped <- labels_view labels (shape top_class) ;;
  equals <- tensor_eq top_class reshaped ;;
  (* torch.mean(equals.type(torch.FloatTensor)) *)
  f <- float_type equals ;;
  torch_mean f.

(** The body of [for images, labels in testloader:]. *)
Definition validation_pass_cell13 (b : batch) (accuracy : list Q) : M (list Q) :=
  let images := images_of b in
  let labels := labels_of b in
  (* with torch.no_grad(): probs = torch.exp(model(images)) *)
  probs <- no_grad (out <- model_call images ;; torch_exp out) ;;
  a <- batch_accuracy probs labels ;;
  (* accuracy.append(...) *)
  ret (accuracy ++ [a]).

(** The [else:] block of the training loop. *)
Definition validation_cell13 : M unit :=
  (* accuracy = [] *)
  accuracy <- for_loader TestLoader validation_pass_cell13 [] ;;
  (* accuracy = sum(accuracy)/len(accuracy) *)
  accuracy <- py_div (Qsum accuracy) (length accuracy) ;;
  (* print(accuracy*100) *)
  print [(accuracy * 100)%Q].

Definition epoch_cell13 (e : nat) (_ : unit) : M unit :=
  (* running_loss = 0 *)
  _ <- for_loader TrainLoader training_pass_cell13 0%Q ;;
  (* else: *)
  validation_cell13.

(** [epochs = 5] *)
Definition cell13 : M unit := for_each (seq 0 5) epoch_cell13 tt.

(** *** Part 5: training the dropout classifier (the [Classifier2] cell) *)

Definition training_pass_cell17 (b : batch) (train_acc : option Q) : M (option Q) :=
  let images := images_of b in
  let labels := labels_of b in
  (* optimizer.zero_grad() *)
  optimizer_zero_grad ;;
  (* preds = model(images) *)
  preds <- model_call images ;;
  (* loss = criterion(preds, labels) *)
  loss <- criterion preds labels ;;
  (* loss.backward() *)
  backward loss ;;
  (* optimizer.step() *)
  optimizer_step ;;
  (* probs = torch.exp(preds) *)
  probs <- torch_exp preds ;;
  a <- batch_accuracy probs labels ;;
  (* train_acc += ... *)
  ret (add_tensor train_acc a).

Definition test_pass_cell17 (b : batch) (test_acc : option Q) : M (option Q) :=
  let images := images_of b in
  let labels := labels_of b in
  (* with torch.no_grad(): model.eval(); test_preds = model(images);
     loss = criterion(test_preds, labels) *)
  test_preds <- no_grad (model_eval ;;
                         test_preds <- model_call images ;;
                         _ <- criterion test_preds labels ;;
                         ret test_preds) ;;
  (* test_probs = torch.exp(test_preds) *)
  test_probs <- torch_exp test_preds ;;
  a <- batch_accuracy test_probs labels ;;
  (* test_acc += ... *)
  let test_acc := add_tensor test_acc a in
  (* model.train() *)
  model_train ;;
  ret test_acc.

(** The test half of an epoch: the loop and the two lines after it. *)
Definition test_cell17 : M Q :=
  (* test_acc = 0 *)
  test_acc <- for_loader TestLoader test_pass_cell17 None ;;
  (* test_acc = test_acc.numpy()/len(testloader) *)
  x <- numpy_ test_acc ;;
  n <- len_ TestLoader ;;
  ret (x / inject_Z (Z.of_nat n))%Q.

Definition epoch_cell17 (e : nat) (lists : list Q * list Q) : M (list Q * list Q) :=
  (* train_acc, test_acc = 0, 0 *)
  train_acc <- for_loader TrainLoader training_pass_cell17 None ;;
  (* train_acc = train_acc.numpy()/len(trainloader) *)
  x <- numpy_ train_acc ;;
  n <- len_ TrainLoader ;;
  let train_acc := (x / inject_Z (Z.of_nat n))%Q in
  test_acc <- test_cell17 ;;
  (* print(e, train_acc, test_acc) *)
  print [inject_Z (Z.of_nat e); train_acc; test_acc] ;;
  (* train_accuracy.append(train_acc); test_accuracy.append(test_acc) *)
  ret (fst lists ++ [train_acc], snd lists ++ [test_acc]).

(** [epochs = 15] *)
Definition cell17 : M (list Q * list Q) :=
  for_each (seq 0 15) epoch_cell17 ([], []).

(** *** Errors: nothing is caught but the end of a loop

    The one exception the notebooks' own code takes is the [StopIteration]
    with which [next] ends a [for] loop.  A run is fail-stop when the calls
    it logs either all return or end a loop, and then the program returns;
    or all do but the last one, and then the program raises what that call
    raised, having called nothing after it: the only records after the
    failing one are the exits of enclosing [torch.no_grad()] blocks, and the
    state is the one the failing call found, up to the gradient mode those
    exits put back.  A failure the environment schedules for a call is never
    lost. *)

Definition is_note (e : event) : bool :=
  match e with
  | ENoGradEnter | ENoGradExit => true
  | _ => false
  end.

Definition is_next (e : event) : bool :=
  match e with
  | ENext _ => true
  | _ => false
  end.

Definition returned (en : entry) : Prop := err en = None.

(** The record of a [next] that raised [StopIteration]. *)
Definition ended_loop (en : entry) : Prop :=
  is_next (ev en) = true /\ err en = Some StopIteration.

Definition passed (en : entry) : Prop := returned en \/ ended_loop en.

Definition is_exit (en : entry) : Prop := ev en = ENoGradExit /\ err en = None.

(** A record is honest about the failure scheduled for its call. *)
Definition honest (f : nat -> option exn) (en : entry) : Prop :=
  is_note (ev en) = false ->
  forall x, f (at_clock en) = Some x -> err en = Some x.

Definition same_but_grad_mode (t1 t2 : torch) : Prop :=
  params t1 = params t2 /\ ostate t1 = ostate t2 /\
  training t1 = training t2 /\ rng t1 = rng t2.

Inductive failstop_from {A : Type} (w : world) : result A -> Prop :=
| FsOk (a : A) (w' : world) (new : list entry) :
    trace w' = trace w ++ new ->
    faults w' = faults w ->
    Forall passed new ->
    Forall (honest (faults w)) new ->
    failstop_from w (Ok a w')
| FsRaised (e : exn) (w' : world) (new : list entry) (en : entry) (exits : list entry) :
    trace w' = trace w ++ new ++ en :: exits ->
    faults w' = faults w ->
    Forall passed new ->
    Forall (honest (faults w)) new ->
    err en = Some e ->
    is_note (ev en) = false ->
    ~ ended_loop en ->
    honest (faults w) en ->
    Forall is_exit exits ->
    same_but_grad_mode (st w') (pre en) ->
    failstop_from w (Raised e w').

Definition failstop {A : Type} (m : M A) : Prop :=
  forall w, failstop_from w (m w).

Lemma failstop_ret {A : Type} (a : A) : failstop (ret a).
Proof.
  intros w. apply FsOk with (new := []); try constructor.
  rewrite app_nil_r. reflexivity.
Qed.

(** What follows a run that returned. *)
Lemma failstop_after {A : Type} (w w1 : world) (new1 : list entry) (r : result A) :
  trace w1 = trace w ++ new1 ->
  faults w1 = faults w ->
  Forall passed new1 ->
  Forall (honest (faults w)) new1 ->
  failstop_from w1 r -> failstop_from w r.
Proof.
  intros Ht1 Hf1 Hr1 Hh1 H.
  destruct H as [b w2 new2 Ht2 Hf2 Hr2 Hh2
                |e w2 new2 en exits Ht2 Hf2 Hr2 Hh2 He Hn Hl Hhe Hx Hs];
    rewrite Hf1 in *.
  - apply FsOk with (new := new1 ++ new2).
    + rewrite Ht2, Ht1, app_assoc. reflexivity.
    + exact Hf2.
    + apply Forall_app_intro; assumption.
    + apply Forall_app_intro; assumption.
  - apply FsRaised with (new := new1 ++ new2) (en := en) (exits := exits).
    + rewrite Ht2, Ht1, <- !app_assoc. reflexivity.
    + exact Hf2.
    + apply Forall_app_intro; assumption.
    + apply Forall_app_intro; assumption.
    + exact He.
    + exact Hn.
    + exact Hl.
    + exact Hhe.
    + exact Hx.
    + exact Hs.
Qed.

Lemma failstop_bind {A B : Type} (m : M A) (k : A -> M B) :
  failstop m -> (forall a, failstop (k a)) -> failstop (bind m k).
Proof.
  intros Hm Hk w. unfold bind.
  destruct (Hm w) as [a w1 new1 Ht1 Hf1 Hr1 Hh1
                     |e w1 new1 en exits Ht1 Hf1 Hr1 Hh1 He Hn Hl Hhe Hx Hs].
  - apply failstop_after with (w1 := w1) (new1 := new1); try assumption. apply Hk.
  - apply FsRaised with (new := new1) (en := en) (exits := exits); assumption.
Qed.

Lemma honest_logged (f : nat -> option exn) (e : event) (c : nat) (t : torch)
  (x : option exn) (out : list Q) :
  f c = x \/ f c = None -> honest f (mkEntry e c t x out).
Proof.
  intros H _ y Hy. cbn [at_clock] in Hy. cbn [err].
  destruct H as [H|H]; congruence.
Qed.

Lemma honest_note (f : nat -> option exn) (en : entry) :
  is_note (ev en) = true -> honest f en.
Proof. intros H H'. congruence. Qed.

Lemma same_but_grad_mode_refl (t : torch) : same_but_grad_mode t t.
Proof. repeat split. Qed.

(** A call that raises: the program raises the same, there and then. *)
Lemma failstop_raise {A : Type} (e : event) (out : list Q) (x : exn) (w : world) :
  is_note e = false ->
  (is_next e = true -> ends_loop x = false) ->
  faults w (clock w) = Some x \/ faults w (clock w) = None ->
  failstop_from w (@Raised A x (logged e (Some x) out (st w) w)).
Proof.
  intros Hnote Hnext Hfault.
  apply FsRaised with (new := []) (en := mkEntry e (clock w) (st w) (Some x) out)
                      (exits := []).
  - reflexivity.
  - reflexivity.
  - constructor.
  - constructor.
  - reflexivity.
  - exact Hnote.
  - intros [Hn Hx]. cbn [ev err] in Hn, Hx. injection Hx as ->.
    specialize (Hnext Hn). discriminate Hnext.
  - apply honest_logged. exact Hfault.
  - constructor.
  - apply same_but_grad_mode_refl.
Qed.

Lemma failstop_call_with {A : Type} (e : event) (out : list Q)
  (f : torch -> exn + (A * torch)) :
  is_note e = false -> is_next e = false -> failstop (call_with e out f).
Proof.
  intros Hnote Hnext w. unfold call_with.
  destruct (faults w (clock w)) as [x|] eqn:Hfault.
  - apply failstop_raise; [exact Hnote|congruence|left; exact Hfault].
  - destruct (f (st w)) as [x|[a t]].
    + apply failstop_raise; [exact Hnote|congruence|right; exact Hfault].
    + apply FsOk with (new := [mkEntry e (clock w) (st w) None out]).
      * reflexivity.
      * reflexivity.
      * constructor; [left; reflexivity|constructor].
      * constructor; [|constructor].
        apply honest_logged. left. exact Hfault.
Qed.

Lemma failstop_no_grad {A : Type} (body : M A) :
  failstop body -> failstop (no_grad body).
Proof.
  intros Hb w. unfold no_grad.
  set (w0 := noted ENoGradEnter (set_grad_enabled false (st w)) w).
  set (enter := mkEntry ENoGradEnter (clock w) (st w) None []).
  destruct (Hb w0) as [a w1 new Ht Hf Hr Hh
                      |e w1 new en exits Ht Hf Hr Hh He Hn Hl Hhe Hx Hs].
  - apply FsOk with
      (new := enter :: new ++ [mkEntry ENoGradExit (clock w1) (st w1) None []]).
    + cbn [noted trace]. rewrite Ht. cbn [w0 noted trace].
      rewrite <- !app_assoc. reflexivity.
    + exact Hf.
    + constructor; [left; reflexivity|].
      apply Forall_app_intro; [exact Hr|constructor; [left; reflexivity|constructor]].
    + constructor; [apply honest_note; reflexivity|].
      apply Forall_app_intro; [exact Hh|].
      constructor; [apply honest_note; reflexivity|constructor].
  - apply FsRaised with
      (new := enter :: new) (en := en)
      (exits := exits ++ [mkEntry ENoGradExit (clock w1) (st w1) None []]).
    + cbn [noted trace]. rewrite Ht. cbn [w0 noted trace].
      rewrite <- !app_assoc. reflexivity.
    + exact Hf.
    + constructor; [left; reflexivity|exact Hr].
    + constructor; [apply honest_note; reflexivity|exact Hh].
    + exact He.
    + exact Hn.
    + exact Hl.
    + exact Hhe.
    + apply Forall_app_intro; [exact Hx|].
      constructor; [split; reflexivity|constructor].
    + destruct Hs as (H1 & H2 & H3 & H4). repeat split; assumption.
Qed.

Lemma failstop_for_each {A B : Type} (l : list A) (body : A -> B -> M B) :
  (forall x acc, failstop (body x acc)) ->
  forall acc, failstop (for_each l body acc).
Proof.
  intros Hb. induction l as [|x l IH]; intros acc; cbn [for_each].
  - apply failstop_ret.
  - apply failstop_bind; [apply Hb|exact IH].
Qed.

(** The call of [next] by a [for] statement: the loop goes on, ends, or
    raises what [next] raised. *)
Lemma failstop_on_next {B : Type} (l : loader) (rest : list batch)
  (body : batch -> M B) (done : M B) :
  (forall b, failstop (body b)) -> failstop done ->
  failstop (on_next (next_ l rest) body done).
Proof.
  intros Hbody Hdone w. unfold on_next, next_, lib, call_with.
  assert (Hstop : forall x, ends_loop x = true -> x = StopIteration)
    by (intros x; destruct x; cbn [ends_loop]; congruence).
  assert (Hend : faults w (clock w) = Some StopIteration \/
                 faults w (clock w) = None ->
                 failstop_from w
                   (done (logged (ENext l) (Some StopIteration) [] (st w) w))).
  { intros Hfault.
    apply failstop_after
      with (w1 := logged (ENext l) (Some StopIteration) [] (st w) w)
           (new1 := [mkEntry (ENext l) (clock w) (st w) (Some StopIteration) []]).
    - reflexivity.
    - reflexivity.
    - constructor; [right; split; reflexivity|constructor].
    - constructor; [apply honest_logged; exact Hfault|constructor].
    - apply Hdone. }
  assert (Hgo : forall b, faults w (clock w) = None ->
                 failstop_from w (body b (logged (ENext l) None [] (st w) w))).
  { intros b Hfault.
    apply failstop_after
      with (w1 := logged (ENext l) None [] (st w) w)
           (new1 := [mkEntry (ENext l) (clock w) (st w) None []]).
    - reflexivity.
    - reflexivity.
    - constructor; [left; reflexivity|constructor].
    - constructor; [apply honest_logged; left; exact Hfault|constructor].
    - apply Hbody. }
  case_eq (faults w (clock w)); [intros x Hfault|intros Hfault].
  - destruct (ends_loop x) eqn:Hx.
    + apply Hstop in Hx. subst x. apply Hend. left. exact Hfault.
    + apply failstop_raise; [reflexivity|intros _; exact Hx|].
      left. exact Hfault.
  - destruct rest as [|b r].
    + cbn [ends_loop]. apply Hend. right. exact Hfault.
    + apply Hgo. exact Hfault.
Qed.

Lemma failstop_for_batches {B : Type} (l : loader) (body : batch -> B -> M B) :
  (forall b acc, failstop (body b acc)) ->
  forall rest acc, failstop (for_batches l rest body acc).
Proof.
  intros Hb. induction rest as [|b r IH]; intros acc; cbn [for_batches].
  - apply failstop_on_next; [intros _|]; apply failstop_ret.
  - apply failstop_on_next; [intros b'|apply failstop_ret].
    apply failstop_bind; [apply Hb|exact IH].
Qed.

Ltac failstop_steps :=
  repeat first
    [ apply failstop_ret
    | apply failstop_call_with; reflexivity
    | apply failstop_no_grad
    | apply failstop_for_each; intros
    | apply failstop_bind; [|intros] ].

Lemma failstop_for_loader {B : Type} (l : loader) (body : batch -> B -> M B) :
  (forall b acc, failstop (body b acc)) ->
  forall acc, failstop (for_loader l body acc).
Proof.
  intros Hb acc. unfold for_loader. apply failstop_bind.
  - unfold iter_, lib. apply failstop_call_with; reflexivity.
  - intros batches. apply failstop_for_batches. exact Hb.
Qed.

Lemma failstop_batch_accuracy (probs : matrix) (labels : list Z) :
  failstop (batch_accuracy probs labels).
Proof.
  unfold batch_accuracy, topk_1, labels_view, tensor_eq, float_type, torch_mean, lib.
  failstop_steps.
Qed.

Lemma failstop_cell_part3 : failstop cell_part3.
Proof.
  unfold cell_part3, train_part3. apply failstop_for_each. intros e [].
  unfold epoch_part3. apply failstop_bind.
  - apply failstop_for_loader. intros b acc.
    unfold training_pass_part3, view_flat, model_call, criterion, backward,
      optimizer_step, optimizer_zero_grad, item, lib.
    failstop_steps.
  - intros rl. unfold len_, py_div, print, lib. failstop_steps.
Qed.

Lemma failstop_cell13 : failstop cell13.
Proof.
  unfold cell13. apply failstop_for_each. intros e [].
  unfold epoch_cell13. apply failstop_bind.
  - apply failstop_for_loader. intros b acc.
    unfold training_pass_cell13, model_call, criterion, backward,
      optimizer_step, optimizer_zero_grad, item, lib.
    failstop_steps.
  - intros _. unfold validation_cell13. apply failstop_bind.
    + apply failstop_for_loader. intros b acc.
      unfold validation_pass_cell13. apply failstop_bind.
      * unfold model_call, torch_exp, lib. failstop_steps.
      * intros probs. apply failstop_bind; [apply failstop_batch_accuracy|].
        intros a. apply failstop_ret.
    + intros acc. unfold py_div, print, lib. failstop_steps.
Qed.

Lemma failstop_cell17 : failstop cell17.
Proof.
  unfold cell17. apply failstop_for_each. intros e lists.
  unfold epoch_cell17. apply failstop_bind.
  - apply failstop_for_loader. intros b acc.
    unfold training_pass_cell17.
    repeat (apply failstop_bind;
            [first [apply failstop_batch_accuracy
                   |unfold model_call, criterion, backward, optimizer_step,
                      optimizer_zero_grad, torch_exp, lib;
                    apply failstop_call_with; reflexivity]
            |intros]).
    apply failstop_ret.
  - intros train_acc. unfold numpy_, len_, lib.
    apply failstop_bind; [apply failstop_call_with; reflexivity|intros x].
    apply failstop_bind; [apply failstop_call_with; reflexivity|intros n].
    apply failstop_bind.
    + unfold test_cell17. apply failstop_bind.
      * apply failstop_for_loader. intros b acc.
        unfold test_pass_cell17. apply failstop_bind.
        -- unfold model_eval, model_call, criterion, lib. failstop_steps.
        -- intros preds.
           apply failstop_bind;
             [unfold torch_exp, lib; apply failstop_call_with; reflexivity|].
           intros probs.
           apply failstop_bind; [apply failstop_batch_accuracy|].
           intros a. unfold model_train, lib. failstop_steps.
      * intros acc. unfold numpy_, len_, lib. failstop_steps.
    + intros test_acc. unfold print. failstop_steps.
Qed.

(** C6, as the loops have it.  The [for] statements take a [StopIteration]
    raised by the loader's [next] as the end of their loop, whether the
    loader is exhausted or the environment makes [next] raise it early: the
    loop ends quietly and the program goes on with what follows it.  Nothing
    else is caught.  Whatever else the environment makes a library call
    raise, and whatever a call raises because its own precondition fails, a
    run of the Part 3 training loop, of the Part 5 training-and-validation
    loop or of the Part 5 dropout loop is fail-stop: the exception a call
    raises is the exception the loop raises, no call is made again or in its
    place, and the state is left as the failing call found it (the exit of
    [torch.no_grad()] alone puts the gradient mode back). *)
Theorem loops_propagate_errors_unhandled :
  failstop cell_part3 /\ failstop cell13 /\ failstop cell17 /\
  (forall (B : Type) (l : loader) (rest : list batch) (body : batch -> B -> M B)
          (acc : B) (w : world),
     faults w (clock w) = Some StopIteration ->
     for_batches l rest body acc w =
     Ok acc (logged (ENext l) (Some StopIteration) [] (st w) w)).
Proof.
  split; [exact failstop_cell_part3|].
  split; [exact failstop_cell13|].
  split; [exact failstop_cell17|].
  intros B l rest body acc w Hstop.
  destruct rest; cbn [for_batches]; unfold on_next, next_, lib, call_with;
    rewrite Hstop; reflexivity.
Qed.

(** *** Runs in which no call fails *)

Definition quiet (w : world) : Prop := forall k, faults w k = None.

Lemma quiet_logged (e : event) (x : option exn) (out : list Q) (t : torch) (w : world) :
  quiet w -> quiet (logged e x out t w).
Proof. intros H k. apply H. Qed.

Lemma quiet_noted (e : event) (t : torch) (w : world) :
  quiet w -> quiet (noted e t w).
Proof. intros H k. apply H. Qed.

Lemma quiet_fresh (values : list Q) (o : O) (seed : nat) :
  quiet (fresh_world values o seed no_faults).
Proof. intros k. reflexivity. Qed.

Create HintDb quiet.
#[local] Hint Resolve quiet_logged quiet_noted quiet_fresh : quiet.

Lemma bind_Ok {A B : Type} (m : M A) (k : A -> M B) (w w1 : world) (a : A) :
  m w = Ok a w1 -> bind m k w = k a w1.
Proof. intros H. unfold bind. rewrite H. reflexivity. Qed.

Lemma bind_assoc {A B C : Type} (m : M A) (k : A -> M B) (k' : B -> M C) (w : world) :
  bind (bind m k) k' w = bind m (fun a => bind (k a) k') w.
Proof. unfold bind. destruct (m w); reflexivity. Qed.

Lemma call_with_quiet {A : Type} (e : event) (out : list Q)
  (f : torch -> exn + (A * torch)) (w : world) (a : A) (t : torch) :
  quiet w -> f (st w) = inr (a, t) ->
  call_with e out f w = Ok a (logged e None out t w).
Proof. intros Hq Hf. unfold call_with. rewrite Hq, Hf. reflexivity. Qed.

Lemma lib_quiet {A : Type} (e : event) (f : torch -> exn + (A * torch))
  (w : world) (a : A) (t : torch) :
  quiet w -> f (st w) = inr (a, t) -> lib e f w = Ok a (logged e None [] t w).
Proof. apply call_with_quiet. Qed.

Lemma iter_quiet (l : loader) (w : world) :
  quiet w ->
  iter_ l w = Ok (Loader.iterate shuffle (rng (st w)) (dataset l))
                 (logged (EIter l) None [] (next_rng (st w)) w).
Proof. intros H. apply lib_quiet; [exact H|reflexivity]. Qed.

Lemma next_quiet (l : loader) (b : batch) (rest : list batch) (w : world) :
  quiet w -> next_ l (b :: rest) w = Ok b (logged (ENext l) None [] (st w) w).
Proof. intros H. apply lib_quiet; [exact H|reflexivity]. Qed.

(** The world after the [next] that ends a loop. *)
Definition loop_ended (l : loader) (w : world) : world :=
  logged (ENext l) (Some StopIteration) [] (st w) w.

Lemma quiet_loop_ended (l : loader) (w : world) :
  quiet w -> quiet (loop_ended l w).
Proof. intros H k. apply H. Qed.

Lemma for_batches_nil_quiet {B : Type} (l : loader) (body : batch -> B -> M B)
  (acc : B) (w : world) :
  quiet w -> for_batches l [] body acc w = Ok acc (loop_ended l w).
Proof.
  intros Hq. cbn [for_batches]. unfold on_next, next_, lib, call_with.
  rewrite Hq. reflexivity.
Qed.

Lemma for_batches_cons_quiet {B : Type} (l : loader) (body : batch -> B -> M B)
  (b : batch) (r : list batch) (acc : B) (w : world) :
  quiet w ->
  for_batches l (b :: r) body acc w =
  bind (body b acc) (fun acc' => for_batches l r body acc')
    (logged (ENext l) None [] (st w) w).
Proof.
  intros Hq. cbn [for_batches]. unfold on_next.
  rewrite (next_quiet l b r Hq). reflexivity.
Qed.

Lemma len_quiet (l : loader) (w : world) :
  quiet w ->
  len_ l w = Ok ((length (dataset l) + Loader.batch_size - 1) / Loader.batch_size)
                (logged ELen None [] (st w) w).
Proof. intros H. apply lib_quiet; [exact H|reflexivity]. Qed.

Lemma view_flat_quiet (images : list (list Q)) (w : world) :
  quiet w -> view_flat images w = Ok images (logged EView None [] (st w) w).
Proof. intros H. apply lib_quiet; [exact H|reflexivity]. Qed.

Lemma model_call_quiet (images : list (list Q)) (w : world) :
  quiet w ->
  model_call images w =
  Ok (mkOutput (scores (st w) images)
        (if grad_enabled (st w) then Some (graph_of (st w) images) else None))
     (logged EForward None [] (after_forward (st w)) w).
Proof. intros H. apply lib_quiet; [exact H|reflexivity]. Qed.

Lemma criterion_quiet (out : output) (labels : list Z) (w : world) :
  quiet w -> length (o_rows out) = length labels ->
  criterion out labels w =
  Ok (mkLoss (nll (o_rows out) labels)
        (option_map (fun g => (g, labels)) (o_graph out)))
     (logged ECriterion None [] (st w) w).
Proof.
  intros H Hl. apply lib_quiet; [exact H|].
  rewrite Hl, Nat.eqb_refl. reflexivity.
Qed.

Lemma backward_quiet (l : loss_t) (g : graph) (labels : list Z) (w : world) :
  quiet w -> l_graph l = Some (g, labels) ->
  backward l w = Ok tt (logged EBackward None [] (after_backward g labels (st w)) w).
Proof. intros H Hl. apply lib_quiet; [exact H|]. rewrite Hl. reflexivity. Qed.

Lemma optimizer_step_quiet (w : world) :
  quiet w -> optimizer_step w = Ok tt (logged EStep None [] (after_step (st w)) w).
Proof. intros H. apply lib_quiet; [exact H|reflexivity]. Qed.

Lemma optimizer_zero_grad_quiet (w : world) :
  quiet w ->
  optimizer_zero_grad w = Ok tt (logged EZeroGrad None [] (after_zero_grad (st w)) w).
Proof. intros H. apply lib_quiet; [exact H|reflexivity]. Qed.

Lemma item_quiet (l : loss_t) (w : world) :
  quiet w -> item l w = Ok (l_item l) (logged EItem None [] (st w) w).
Proof. intros H. apply lib_quiet; [exact H|reflexivity]. Qed.

Lemma torch_exp_quiet (out : output) (w : world) :
  quiet w ->
  torch_exp out w = Ok (map (map expQ) (o_rows out)) (logged EExp None [] (st w) w).
Proof. intros H. apply lib_quiet; [exact H|reflexivity]. Qed.

Lemma model_eval_quiet (w : world) :
  quiet w -> model_eval w = Ok tt (logged EEval None [] (set_training false (st w)) w).
Proof. intros H. apply lib_quiet; [exact H|reflexivity]. Qed.

Lemma model_train_quiet (w : world) :
  quiet w -> model_train w = Ok tt (logged ETrain None [] (set_training true (st w)) w).
Proof. intros H. apply lib_quiet; [exact H|reflexivity]. Qed.

Lemma print_quiet (vals : list Q) (w : world) :
  quiet w -> print vals w = Ok tt (logged EPrint None vals (st w) w).
Proof. intros H. apply call_with_quiet; [exact H|reflexivity]. Qed.

Lemma py_div_quiet (x : Q) (n : nat) (w : world) :
  quiet w -> n <> 0 ->
  py_div x n w = Ok (x / inject_Z (Z.of_nat n))%Q (logged EDiv None [] (st w) w).
Proof.
  intros H Hn. apply lib_quiet; [exact H|].
  destruct n; [congruence|reflexivity].
Qed.

Lemma numpy_quiet (a : Q) (w : world) :
  quiet w -> numpy_ (Some a) w = Ok a (logged ENumpy None [] (st w) w).
Proof. intros H. apply lib_quiet; [exact H|reflexivity]. Qed.

(** Running the next call of a sequence. *)
Ltac run_with lem :=
  erewrite bind_Ok; [|eapply lem; eauto 10 with quiet].

Lemma length_images_labels (b : batch) :
  length (images_of b) = length (labels_of b).
Proof. unfold images_of, labels_of. rewrite !length_map. reflexivity. Qed.

Lemma length_scores (t : torch) (images : list (list Q)) :
  length (scores t images) = length images.
Proof. unfold scores. apply length_map. Qed.

Lemma params_after_forward (t : torch) : params (after_forward t) = params t.
Proof. destruct t as [ps o [|] ge r]; reflexivity. Qed.

Lemma ostate_after_forward (t : torch) : ostate (after_forward t) = ostate t.
Proof. destruct t as [ps o [|] ge r]; reflexivity. Qed.

Lemma training_after_forward (t : torch) : training (after_forward t) = training t.
Proof. destruct t as [ps o [|] ge r]; reflexivity. Qed.

Lemma grad_enabled_after_forward (t : torch) :
  grad_enabled (after_forward t) = grad_enabled t.
Proof. destruct t as [ps o [|] ge r]; reflexivity. Qed.

(** The worlds a training pass goes through. *)
Definition world_after_part3_pass (b : batch) (w : world) : world :=
  let t0 := st w in
  let t1 := after_forward t0 in
  let t2 := after_backward (graph_of t0 (images_of b)) (labels_of b) t1 in
  let t3 := after_step t2 in
  let t4 := after_zero_grad t3 in
  logged EItem None [] t4
    (logged EZeroGrad None [] t4
       (logged EStep None [] t3
          (logged EBackward None [] t2
             (logged ECriterion None [] t1
                (logged EForward None [] t1
                   (logged EView None [] t0 w)))))).

Definition loss_value (b : batch) (t : torch) : Q :=
  nll (scores t (images_of b)) (labels_of b).

Lemma training_pass_part3_quiet (b : batch) (running_loss : Q) (w : world) :
  quiet w -> grad_enabled (st w) = true ->
  training_pass_part3 b running_loss w =
  Ok (running_loss + loss_value b (st w))%Q (world_after_part3_pass b w).
Proof.
  intros Hq Hg. unfold training_pass_part3. cbv zeta.
  run_with view_flat_quiet.
  run_with model_call_quiet.
  cbn [st logged]. rewrite Hg.
  run_with criterion_quiet;
    [|cbn [o_rows]; rewrite length_scores; apply length_images_labels].
  cbn [o_graph option_map].
  run_with backward_quiet; [|reflexivity].
  run_with optimizer_step_quiet.
  run_with optimizer_zero_grad_quiet.
  run_with item_quiet.
  reflexivity.
Qed.

(** The demonstrated pattern: gradients cleared first. *)
Definition world_after_demonstrated_pass (b : batch) (w : world) : world :=
  let t0 := st w in
  let t1 := after_zero_grad t0 in
  let t2 := after_forward t1 in
  let t3 := after_backward (graph_of t1 (images_of b)) (labels_of b) t2 in
  let t4 := after_step t3 in
  logged EItem None [] t4
    (logged EStep None [] t4
       (logged EBackward None [] t3
          (logged ECriterion None [] t2
             (logged EForward None [] t2
                (logged EZeroGrad None [] t1
                   (logged EView None [] t0 w)))))).

Lemma demonstrated_pass_quiet (b : batch) (running_loss : Q) (w : world) :
  quiet w -> grad_enabled (st w) = true ->
  demonstrated_pass b running_loss w =
  Ok (running_loss + loss_value b (after_zero_grad (st w)))%Q
     (world_after_demonstrated_pass b w).
Proof.
  intros Hq Hg. unfold demonstrated_pass. cbv zeta.
  run_with view_flat_quiet.
  run_with optimizer_zero_grad_quiet.
  run_with model_call_quiet.
  cbn [st logged after_zero_grad set_params grad_enabled]. rewrite Hg.
  run_with criterion_quiet;
    [|cbn [o_rows]; rewrite length_scores; apply length_images_labels].
  cbn [o_graph option_map].
  run_with backward_quiet; [|reflexivity].
  run_with optimizer_step_quiet.
  run_with item_quiet.
  reflexivity.
Qed.

Lemma no_grad_Ok {A : Type} (body : M A) (w w1 : world) (a : A) :
  body (noted ENoGradEnter (set_grad_enabled false (st w)) w) = Ok a w1 ->
  no_grad body w =
  Ok a (noted ENoGradExit (set_grad_enabled (grad_enabled (st w)) (st w1)) w1).
Proof. intros H. unfold no_grad. rewrite H. reflexivity. Qed.

Lemma topk_1_quiet (probs : matrix) (w : world) :
  quiet w -> Forall (fun row => row <> []) probs ->
  topk_1 probs w =
  Ok (mkTensor [length probs; 1] (map (fun row => nth (argmax row) row 0%Q) probs),
      mkTensor [length probs; 1] (predicted probs))
     (logged ETopk None [] (st w) w).
Proof.
  intros H Hrows. apply lib_quiet; [exact H|].
  rewrite (topk1_ok Hrows). reflexivity.
Qed.

Lemma labels_view_quiet (labels : list Z) (w : world) :
  quiet w ->
  labels_view labels [length labels; 1] w =
  Ok (mkTensor [length labels; 1] labels) (logged EView None [] (st w) w).
Proof.
  intros H. apply lib_quiet; [exact H|].
  unfold view. cbn [shape storage numel fold_right].
  replace (length labels * (1 * 1)) with (length labels * 1) by lia.
  rewrite Nat.eqb_refl. reflexivity.
Qed.

Lemma tensor_eq_quiet (a b : tensor Z) (r : tensor bool) (w : world) :
  quiet w -> eq a b = inr r ->
  tensor_eq a b w = Ok r (logged EEq None [] (st w) w).
Proof. intros H Hr. apply lib_quiet; [exact H|]. rewrite Hr. reflexivity. Qed.

Lemma float_type_quiet (b : tensor bool) (w : world) :
  quiet w -> float_type b w = Ok (to_float b) (logged EFloat None [] (st w) w).
Proof. intros H. apply lib_quiet; [exact H|reflexivity]. Qed.

Lemma torch_mean_quiet (x : tensor Q) (w : world) :
  quiet w -> torch_mean x w = Ok (mean x) (logged EMean None [] (st w) w).
Proof. intros H. apply lib_quiet; [exact H|reflexivity]. Qed.

Definition world_after_batch_accuracy (w : world) : world :=
  let t := st w in
  logged EMean None [] t
    (logged EFloat None [] t
       (logged EEq None [] t
          (logged EView None [] t
             (logged ETopk None [] t w)))).

Lemma batch_accuracy_quiet (probs : matrix) (labels : list Z) (w : world) :
  quiet w -> Forall (fun row => row <> []) probs ->
  length probs = length labels ->
  batch_accuracy probs labels w =
  Ok (batch_fraction probs labels) (world_after_batch_accuracy w).
Proof.
  intros Hq Hrows Hlen. unfold batch_accuracy. cbv zeta.
  run_with topk_1_quiet.
  cbn [snd shape]. rewrite Hlen.
  run_with labels_view_quiet.
  run_with tensor_eq_quiet;
    [|apply eq_column; [unfold predicted; rewrite length_map; exact Hlen|reflexivity]].
  run_with float_type_quiet.
  rewrite torch_mean_quiet by eauto 10 with quiet.
  unfold batch_fraction, equals_column. rewrite Hlen. reflexivity.
Qed.

(** The probabilities a forward pass in mode [md] gives on a batch. *)
Definition probs_of (md : mode) (t : torch) (images : list (list Q)) : matrix :=
  map (map expQ) (map (net (map data (params t)) md) images).

(** The accuracy of the batch under those probabilities. *)
Definition batch_accuracy_value (md : mode) (t : torch) (b : batch) : Q :=
  batch_fraction (probs_of md t (images_of b)) (labels_of b).

Definition world_after_cell13_training_pass (b : batch) (w : world) : world :=
  let t0 := st w in
  let t1 := after_zero_grad t0 in
  let t2 := after_forward t1 in
  let t3 := after_backward (graph_of t1 (images_of b)) (labels_of b) t2 in
  let t4 := after_step t3 in
  logged EItem None [] t4
    (logged EStep None [] t4
       (logged EBackward None [] t3
          (logged ECriterion None [] t2
             (logged EForward None [] t2
                (logged EZeroGrad None [] t1 w))))).

Lemma training_pass_cell13_quiet (b : batch) (running_loss : Q) (w : world) :
  quiet w -> grad_enabled (st w) = true ->
  training_pass_cell13 b running_loss w =
  Ok (running_loss + loss_value b (after_zero_grad (st w)))%Q
     (world_after_cell13_training_pass b w).
Proof.
  intros Hq Hg. unfold training_pass_cell13. cbv zeta.
  run_with optimizer_zero_grad_quiet.
  run_with model_call_quiet.
  cbn [st logged after_zero_grad set_params grad_enabled]. rewrite Hg.
  run_with criterion_quiet;
    [|cbn [o_rows]; rewrite length_scores; apply length_images_labels].
  cbn [o_graph option_map].
  run_with backward_quiet; [|reflexivity].
  run_with optimizer_step_quiet.
  run_with item_quiet.
  reflexivity.
Qed.

(** The calls a program made between two worlds, in order. *)
Definition new_events (w w' : world) : list event :=
  map ev (skipn (length (trace w)) (trace w')).

Lemma new_events_app (w w' : world) (new : list entry) :
  trace w' = trace w ++ new -> new_events w w' = map ev new.
Proof.
  intros H. unfold new_events. rewrite H, skipn_app, skipn_all, Nat.sub_diag.
  reflexivity.
Qed.

Ltac show_trace :=
  cbn [trace logged noted world_after_batch_accuracy]; rewrite <- ?app_assoc;
  cbn [app]; reflexivity.

Section Classes.
(** The model scores at least one class. *)
Hypothesis net_classes : forall p md x, net p md x <> [].

Lemma probs_rows_nonempty (md : mode) (t : torch) (images : list (list Q)) :
  Forall (fun row => row <> []) (probs_of md t images).
Proof.
  unfold probs_of. apply Forall_forall. intros row Hrow.
  apply in_map_iff in Hrow. destruct Hrow as [r [<- Hr]].
  apply in_map_iff in Hr. destruct Hr as [x [<- _]].
  pose proof (@net_classes (map data (params t)) md x) as H.
  destruct (net (map data (params t)) md x); [congruence|discriminate].
Qed.

Lemma length_probs_of (md : mode) (t : torch) (b : batch) :
  length (probs_of md t (images_of b)) = length (labels_of b).
Proof.
  unfold probs_of. rewrite !length_map. apply length_images_labels.
Qed.

Definition world_after_cell13_validation_pass (w : world) : world :=
  let t0 := st w in
  let t1 := set_grad_enabled false t0 in
  let t2 := after_forward t1 in
  let w2 := logged EExp None [] t2
              (logged EForward None [] t2 (noted ENoGradEnter t1 w)) in
  world_after_batch_accuracy
    (noted ENoGradExit (set_grad_enabled (grad_enabled t0) t2) w2).

Lemma validation_pass_cell13_quiet (b : batch) (accuracy : list Q) (w : world) :
  quiet w ->
  validation_pass_cell13 b accuracy w =
  Ok (accuracy ++ [batch_accuracy_value (current_mode (st w)) (st w) b])
     (world_after_cell13_validation_pass w).
Proof.
  intros Hq. unfold validation_pass_cell13. cbv zeta.
  erewrite bind_Ok.
  2:{ apply no_grad_Ok.
      run_with model_call_quiet.
      apply torch_exp_quiet. eauto 10 with quiet. }
  cbn [o_rows].
  run_with batch_accuracy_quiet;
    [|apply (probs_rows_nonempty (current_mode (st w)) (st w))
     |apply (length_probs_of (current_mode (st w)) (st w))].
  reflexivity.
Qed.

Definition world_after_cell17_training_pass (b : batch) (w : world) : world :=
  let t0 := st w in
  let t1 := after_zero_grad t0 in
  let t2 := after_forward t1 in
  let t3 := after_backward (graph_of t1 (images_of b)) (labels_of b) t2 in
  let t4 := after_step t3 in
  world_after_batch_accuracy
    (logged EExp None [] t4
       (logged EStep None [] t4
          (logged EBackward None [] t3
             (logged ECriterion None [] t2
                (logged EForward None [] t2
                   (logged EZeroGrad None [] t1 w)))))).

Lemma training_pass_cell17_quiet (b : batch) (train_acc : option Q) (w : world) :
  quiet w -> grad_enabled (st w) = true ->
  training_pass_cell17 b train_acc w =
  Ok (add_tensor train_acc
        (batch_accuracy_value (current_mode (st w)) (after_zero_grad (st w)) b))
     (world_after_cell17_training_pass b w).
Proof.
  intros Hq Hg. unfold training_pass_cell17. cbv zeta.
  run_with optimizer_zero_grad_quiet.
  run_with model_call_quiet.
  cbn [st logged after_zero_grad set_params grad_enabled]. rewrite Hg.
  run_with criterion_quiet;
    [|cbn [o_rows]; rewrite length_scores; apply length_images_labels].
  cbn [o_graph option_map].
  run_with backward_quiet; [|reflexivity].
  run_with optimizer_step_quiet.
  run_with torch_exp_quiet.
  cbn [o_rows].
  run_with batch_accuracy_quiet;
    [|apply (probs_rows_nonempty (current_mode (st w)) (after_zero_grad (st w)))
     |apply (length_probs_of (current_mode (st w)) (after_zero_grad (st w)))].
  reflexivity.
Qed.

Definition world_after_cell17_test_pass (w : world) : world :=
  let t0 := st w in
  let t1 := set_grad_enabled false t0 in
  let t2 := set_training false t1 in
  let w3 := logged ECriterion None [] t2
              (logged EForward None [] t2
                 (logged EEval None [] t2 (noted ENoGradEnter t1 w))) in
  let t3 := set_grad_enabled (grad_enabled t0) t2 in
  let w5 := world_after_batch_accuracy
              (logged EExp None [] t3 (noted ENoGradExit t3 w3)) in
  logged ETrain None [] (set_training true t3) w5.

Lemma test_pass_cell17_quiet (b : batch) (test_acc : option Q) (w : world) :
  quiet w ->
  test_pass_cell17 b test_acc w =
  Ok (add_tensor test_acc (batch_accuracy_value Eval (st w) b))
     (world_after_cell17_test_pass w).
Proof.
  intros Hq. unfold test_pass_cell17. cbv zeta.
  erewrite bind_Ok.
  2:{ apply no_grad_Ok.
      run_with model_eval_quiet.
      run_with model_call_quiet.
      run_with criterion_quiet;
        [|cbn [o_rows]; rewrite length_scores; apply length_images_labels].
      reflexivity. }
  run_with torch_exp_quiet.
  cbn [o_rows].
  run_with batch_accuracy_quiet;
    [|apply (probs_rows_nonempty Eval (st w))
     |apply (length_probs_of Eval (st w))].
  run_with model_train_quiet.
  reflexivity.
Qed.

(** The five operations, in the order of the Part 3 exercise and in the
    order of the Part 5 loops. *)
Definition step_then_zero : list event :=
  [EForward; ECriterion; EBackward; EStep; EZeroGrad].

Definition zero_then_step : list event :=
  [EZeroGrad; EForward; ECriterion; EBackward; EStep].

(** A world in which an iteration can start: no call will fail, and
    gradients are recorded. *)
Definition ready (w : world) : Prop :=
  quiet w /\ grad_enabled (st w) = true.

(** A run from [w] that returns in a ready world, having made the calls
    [evs]. *)
Definition runs {A : Type} (m : M A) (w : world) (evs : list event) : Prop :=
  exists x w' new,
    m w = Ok x w' /\ ready w' /\ trace w' = trace w ++ new /\ map ev new = evs.

Lemma runs_events {A : Type} (m : M A) (w : world) (evs : list event) :
  runs m w evs -> exists x w', m w = Ok x w' /\ new_events w w' = evs.
Proof.
  intros (x & w' & new & Hrun & _ & Htr & Hev).
  exists x, w'. split; [exact Hrun|].
  rewrite (new_events_app w w' new Htr). exact Hev.
Qed.

Lemma runs_for_each {A B : Type} (body : A -> B -> M B) (pat : list event) :
  (forall x acc w, ready w -> runs (body x acc) w pat) ->
  forall l acc w, ready w ->
    runs (for_each l body acc) w (concat (map (fun _ => pat) l)).
Proof.
  intros Hbody. induction l as [|a l IH]; intros acc w Hw.
  - exists acc, w, []. cbn [for_each map concat].
    rewrite app_nil_r. repeat split; try reflexivity; apply Hw.
  - destruct (Hbody a acc w Hw) as (y & w1 & new1 & Hrun1 & Hw1 & Htr1 & Hev1).
    destruct (IH y w1 Hw1) as (z & w2 & new2 & Hrun2 & Hw2 & Htr2 & Hev2).
    exists z, w2, (new1 ++ new2). cbn [for_each map concat].
    erewrite bind_Ok; [|exact Hrun1].
    split; [exact Hrun2|split; [exact Hw2|split]].
    + rewrite Htr2, Htr1, app_assoc. reflexivity.
    + rewrite map_app, Hev1, Hev2. reflexivity.
Qed.

Lemma runs_for_batches {B : Type} (l : loader) (body : batch -> B -> M B)
  (pat : list event) :
  (forall b acc w, ready w -> runs (body b acc) w pat) ->
  forall rest acc w, ready w ->
    runs (for_batches l rest body acc) w
      (concat (map (fun _ => ENext l :: pat) rest) ++ [ENext l]).
Proof.
  intros Hbody. induction rest as [|b r IH]; intros acc w [Hq Hg].
  - exists acc, (loop_ended l w),
      [mkEntry (ENext l) (clock w) (st w) (Some StopIteration) []].
    split; [apply for_batches_nil_quiet; exact Hq|].
    split; [split; [apply quiet_loop_ended; exact Hq|exact Hg]|].
    split; reflexivity.
  - set (w1 := logged (ENext l) None [] (st w) w).
    assert (Hw1 : ready w1) by (split; [unfold w1; eauto with quiet|exact Hg]).
    destruct (Hbody b acc w1 Hw1) as (y & w2 & new1 & Hrun1 & Hw2 & Htr1 & Hev1).
    destruct (IH y w2 Hw2) as (z & w3 & new2 & Hrun2 & Hw3 & Htr2 & Hev2).
    exists z, w3, (mkEntry (ENext l) (clock w) (st w) None [] :: new1 ++ new2).
    split; [|split; [exact Hw3|split]].
    + rewrite (for_batches_cons_quiet l body b r acc Hq). fold w1.
      erewrite bind_Ok; [|exact Hrun1]. exact Hrun2.
    + rewrite Htr2, Htr1. unfold w1. cbn [trace logged].
      rewrite <- !app_assoc. reflexivity.
    + cbn [map ev concat]. rewrite map_app, Hev1, Hev2, <- app_assoc.
      reflexivity.
Qed.

Lemma runs_for_loader {B : Type} (l : loader) (body : batch -> B -> M B)
  (pat : list event) :
  (forall b acc w, ready w -> runs (body b acc) w pat) ->
  forall acc w, ready w ->
    runs (for_loader l body acc) w
      (EIter l ::
       concat (map (fun _ => ENext l :: pat)
                 (Loader.iterate shuffle (rng (st w)) (dataset l))) ++ [ENext l]).
Proof.
  intros Hbody acc w [Hq Hg].
  set (w0 := logged (EIter l) None [] (next_rng (st w)) w).
  assert (Hw0 : ready w0) by (split; [unfold w0; eauto with quiet|exact Hg]).
  destruct (runs_for_batches l body Hbody
              (Loader.iterate shuffle (rng (st w)) (dataset l)) acc Hw0)
    as (y & w' & new & Hrun & Hw' & Htr & Hev).
  exists y, w', (mkEntry (EIter l) (clock w) (st w) None [] :: new).
  split; [|split; [exact Hw'|split]].
  - unfold for_loader. run_with iter_quiet. exact Hrun.
  - rewrite Htr. unfold w0. cbn [trace logged]. rewrite <- app_assoc.
    reflexivity.
  - cbn [map ev]. rewrite Hev. reflexivity.
Qed.

Lemma training_ops_loop (l : loader) (pat : list event) (bs : list batch) :
  training_ops (EIter l :: concat (map (fun _ => ENext l :: pat) bs) ++ [ENext l]) =
  concat (map (fun _ => training_ops pat) bs).
Proof.
  unfold training_ops. cbn [filter is_training_op].
  induction bs as [|b bs IH]; [reflexivity|].
  cbn [map concat app filter is_training_op].
  rewrite <- app_assoc, filter_app, IH. reflexivity.
Qed.

Lemma runs_training_pass_part3 (b : batch) (rl : Q) (w : world) :
  ready w ->
  runs (training_pass_part3 b rl) w
    [EView; EForward; ECriterion; EBackward; EStep; EZeroGrad; EItem].
Proof.
  intros [Hq Hg]. eexists. eexists. eexists.
  split; [apply training_pass_part3_quiet; assumption|].
  split; [|split; [unfold world_after_part3_pass; show_trace|reflexivity]].
  unfold world_after_part3_pass. split; [eauto 10 with quiet|].
  cbn [st logged after_zero_grad after_step after_backward set_params
       set_ostate grad_enabled].
  rewrite grad_enabled_after_forward. exact Hg.
Qed.

Lemma runs_training_pass_cell13 (b : batch) (rl : Q) (w : world) :
  ready w ->
  runs (training_pass_cell13 b rl) w
    [EZeroGrad; EForward; ECriterion; EBackward; EStep; EItem].
Proof.
  intros [Hq Hg]. eexists. eexists. eexists.
  split; [apply training_pass_cell13_quiet; assumption|].
  split; [|split; [unfold world_after_cell13_training_pass; show_trace|reflexivity]].
  unfold world_after_cell13_training_pass. split; [eauto 10 with quiet|].
  cbn [st logged after_step after_backward set_params set_ostate grad_enabled].
  rewrite grad_enabled_after_forward. exact Hg.
Qed.

Lemma runs_training_pass_cell17 (b : batch) (acc : option Q) (w : world) :
  ready w ->
  runs (training_pass_cell17 b acc) w
    [EZeroGrad; EForward; ECriterion; EBackward; EStep;
     EExp; ETopk; EView; EEq; EFloat; EMean].
Proof.
  intros [Hq Hg]. eexists. eexists. eexists.
  split; [apply training_pass_cell17_quiet; assumption|].
  split; [|split; [unfold world_after_cell17_training_pass; show_trace|reflexivity]].
  unfold world_after_cell17_training_pass, world_after_batch_accuracy.
  split; [eauto 15 with quiet|].
  cbn [st logged after_step after_backward set_params set_ostate grad_enabled].
  rewrite grad_enabled_after_forward. exact Hg.
Qed.

(** C2, as the loops have it.  When no call fails: in every iteration of the
    Part 3 exercise loop the five operations of a training step run in the
    order forward pass, loss, [loss.backward()], [optimizer.step()],
    [optimizer.zero_grad()]; in every iteration of the two training loops
    of Part 5 the gradients are cleared first: [optimizer.zero_grad()],
    forward pass, loss, [loss.backward()], [optimizer.step()].  This holds
    of a single pass through the body from any state in which an iteration
    can start, and of a whole pass over the training loader, which repeats
    the five operations in that order once per batch. *)
Theorem training_step_order (w : world) :
  quiet w -> grad_enabled (st w) = true ->
  let batches := Loader.iterate shuffle (rng (st w)) trainset in
  (forall b running_loss, exists x w',
      training_pass_part3 b running_loss w = Ok x w' /\
      training_ops (new_events w w') = step_then_zero) /\
  (forall b running_loss, exists x w',
      training_pass_cell13 b running_loss w = Ok x w' /\
      training_ops (new_events w w') = zero_then_step) /\
  (forall b train_acc, exists x w',
      training_pass_cell17 b train_acc w = Ok x w' /\
      training_ops (new_events w w') = zero_then_step) /\
  (forall running_loss, exists x w',
      for_loader TrainLoader training_pass_part3 running_loss w = Ok x w' /\
      training_ops (new_events w w') =
        concat (map (fun _ => step_then_zero) batches)) /\
  (forall running_loss, exists x w',
      for_loader TrainLoader training_pass_cell13 running_loss w = Ok x w' /\
      training_ops (new_events w w') =
        concat (map (fun _ => zero_then_step) batches)) /\
  (forall train_acc, exists x w',
      for_loader TrainLoader training_pass_cell17 train_acc w = Ok x w' /\
      training_ops (new_events w w') =
        concat (map (fun _ => zero_then_step) batches)).
Proof.
  intros Hq Hg batches.
  assert (Hw : ready w) by (split; assumption).
  split; [|split; [|split; [|split; [|split]]]].
  - intros b rl.
    destruct (runs_events (runs_training_pass_part3 b rl Hw)) as (x & w' & H1 & H2).
    exists x, w'. split; [exact H1|]. rewrite H2. reflexivity.
  - intros b rl.
    destruct (runs_events (runs_training_pass_cell13 b rl Hw)) as (x & w' & H1 & H2).
    exists x, w'. split; [exact H1|]. rewrite H2. reflexivity.
  - intros b acc.
    destruct (runs_events (runs_training_pass_cell17 b acc Hw)) as (x & w' & H1 & H2).
    exists x, w'. split; [exact H1|]. rewrite H2. reflexivity.
  - intros rl.
    destruct (runs_events
                (runs_for_loader TrainLoader _ runs_training_pass_part3 rl Hw))
      as (x & w' & H1 & H2).
    exists x, w'. split; [exact H1|]. rewrite H2. apply training_ops_loop.
  - intros rl.
    destruct (runs_events
                (runs_for_loader TrainLoader _ runs_training_pass_cell13 rl Hw))
      as (x & w' & H1 & H2).
    exists x, w'. split; [exact H1|]. rewrite H2. apply training_ops_loop.
  - intros acc.
    destruct (runs_events
                (runs_for_loader TrainLoader _ runs_training_pass_cell17 acc Hw))
      as (x & w' & H1 & H2).
    exists x, w'. split; [exact H1|]. rewrite H2. apply training_ops_loop.
Qed.

End Classes.

(** *** Gradients: cleared, accumulated, applied *)

(** A gradient that is not there, or is zero. *)
Definition clear (p : parameter) : Prop := grad p = None \/ grad p = Some 0%Q.

(** Parameters of the given values, each holding the gradient [d] assigns
    to its index. *)
Definition with_gradient (d : nat -> Q) (values : list Q) : list parameter :=
  map (fun iv => mkParam (snd iv) (Some (d (fst iv)))) (indexed values).

Lemma Qplus_0_l_eq (q : Q) : (0 + q)%Q = q.
Proof.
  destruct q as [n d]. unfold Qplus. cbn [Qnum Qden].
  rewrite Z.mul_0_l, Z.add_0_l, Z.mul_1_r. reflexivity.
Qed.

Lemma accumulate_clear_from (d : nat -> Q) (ps : list parameter) (s : nat) :
  Forall clear ps ->
  map (fun ip =>
         mkParam (data (snd ip))
           (Some (match grad (snd ip) with
                  | None => d (fst ip)
                  | Some a => (a + d (fst ip))%Q
                  end)))
      (combine (seq s (length ps)) ps) =
  map (fun iv => mkParam (snd iv) (Some (d (fst iv))))
      (combine (seq s (length (map data ps))) (map data ps)).
Proof.
  intros H. revert s. induction H as [|p ps Hp _ IH]; intros s; [reflexivity|].
  cbn [length seq combine map fst snd]. rewrite IH. f_equal.
  destruct Hp as [->| ->]; [reflexivity|].
  rewrite Qplus_0_l_eq. reflexivity.
Qed.

(** On cleared gradients a backward pass leaves exactly its own gradient. *)
Lemma accumulate_clear (d : nat -> Q) (ps : list parameter) :
  Forall clear ps -> accumulate d ps = with_gradient d (map data ps).
Proof. intros H. apply (accumulate_clear_from d 0 H). Qed.

Lemma data_with_gradient_from (d : nat -> Q) (values : list Q) (s : nat) :
  map data (map (fun iv => mkParam (snd iv) (Some (d (fst iv))))
              (combine (seq s (length values)) values)) = values.
Proof.
  revert s. induction values as [|v values IH]; intros s; [reflexivity|].
  cbn [length seq combine map fst snd data]. rewrite IH. reflexivity.
Qed.

Lemma data_with_gradient (d : nat -> Q) (values : list Q) :
  map data (with_gradient d values) = values.
Proof. apply data_with_gradient_from. Qed.

Lemma zero_param_clear (ps : list parameter) : Forall clear (map zero_param ps).
Proof.
  apply Forall_forall. intros p Hp. apply in_map_iff in Hp.
  destruct Hp as [q [<- _]]. unfold clear, zero_param. cbn [grad].
  destruct (grad q); [destruct set_to_none|]; auto.
Qed.

Lemma data_zero_param (ps : list parameter) :
  map data (map zero_param ps) = map data ps.
Proof. rewrite map_map. reflexivity. Qed.

Lemma fresh_clear (values : list Q) :
  Forall clear (map (fun d => mkParam d None) values).
Proof.
  apply Forall_forall. intros p Hp. apply in_map_iff in Hp.
  destruct Hp as [q [<- _]]. left. reflexivity.
Qed.

(** What a forward pass computes and records depends on the state only
    through the parameter values, the mode flag and the generator. *)
Definition same_inputs (t1 t2 : torch) : Prop :=
  map data (params t1) = map data (params t2) /\
  ostate t1 = ostate t2 /\
  training t1 = training t2 /\
  rng t1 = rng t2.

Lemma same_inputs_forward (t1 t2 : torch) (images : list (list Q)) :
  same_inputs t1 t2 ->
  scores t1 images = scores t2 images /\
  graph_of t1 images = graph_of t2 images /\
  same_inputs (after_forward t1) (after_forward t2).
Proof.
  intros (Hd & Ho & Ht & Hr).
  unfold scores, graph_of, current_mode, same_inputs.
  rewrite Hd, Ht, Hr.
  rewrite !params_after_forward, !ostate_after_forward, !training_after_forward.
  repeat split; try assumption.
  unfold after_forward. rewrite Ht.
  destruct (training t2); cbn [rng next_rng]; congruence.
Qed.

(** *** The values each [optimizer.step()] writes *)

Definition step_succeeded (en : entry) : bool :=
  event_eqb (ev en) EStep &&
  match err en with
  | None => true
  | Some _ => false
  end.

Definition step_writes (en : entry) : list Q :=
  map data (step_params (ostate (pre en)) (params (pre en))).

(** The sequence of parameter updates of a run. *)
Definition updates (tr : list entry) : list (list Q) :=
  map step_writes (filter step_succeeded tr).

Lemma updates_app (tr1 tr2 : list entry) :
  updates (tr1 ++ tr2) = updates tr1 ++ updates tr2.
Proof. unfold updates. rewrite filter_app, map_app. reflexivity. Qed.

Lemma updates_part3_pass (b : batch) (w : world) :
  updates (trace (world_after_part3_pass b w)) =
  updates (trace w) ++
  [map data (params (after_step
     (after_backward (graph_of (st w) (images_of b)) (labels_of b)
        (after_forward (st w)))))].
Proof.
  unfold world_after_part3_pass. cbn [trace logged].
  rewrite !updates_app. cbn. rewrite !app_nil_r. reflexivity.
Qed.

Lemma updates_demonstrated_pass (b : batch) (w : world) :
  updates (trace (world_after_demonstrated_pass b w)) =
  updates (trace w) ++
  [map data (params (after_step
     (after_backward (graph_of (after_zero_grad (st w)) (images_of b)) (labels_of b)
        (after_forward (after_zero_grad (st w))))))].
Proof.
  unfold world_after_demonstrated_pass. cbn [trace logged].
  rewrite !updates_app. cbn. rewrite !app_nil_r. reflexivity.
Qed.

(** *** The exercise pass against the demonstrated pattern *)

(** A world of the exercise loop and a world of the demonstrated pattern
    that go in step: same parameter values, optimizer state, mode and
    generator, same updates so far; the gradients of the exercise loop are
    clear. *)
Definition in_step (w1 w2 : world) : Prop :=
  quiet w1 /\ quiet w2 /\
  grad_enabled (st w1) = true /\ grad_enabled (st w2) = true /\
  Forall clear (params (st w1)) /\
  same_inputs (st w1) (st w2) /\
  updates (trace w1) = updates (trace w2).

Lemma same_inputs_zero_grad (t1 t2 : torch) :
  same_inputs t1 t2 -> same_inputs t1 (after_zero_grad t2).
Proof.
  intros (Hd & Ho & Ht & Hr). unfold same_inputs, after_zero_grad.
  cbn [params ostate training rng set_params].
  rewrite data_zero_param. repeat split; assumption.
Qed.

Lemma same_inputs_zero_grad_l (t1 t2 : torch) :
  same_inputs t1 t2 -> same_inputs (after_zero_grad t1) t2.
Proof.
  intros (Hd & Ho & Ht & Hr). unfold same_inputs, after_zero_grad.
  cbn [params ostate training rng set_params].
  rewrite data_zero_param. repeat split; assumption.
Qed.

Lemma params_after_backward_clear (g : graph) (labels : list Z) (t : torch) :
  Forall clear (params t) ->
  params (after_backward g labels t) =
  with_gradient (autograd g labels) (map data (params t)).
Proof.
  intros H. unfold after_backward. cbn [params set_params].
  apply accumulate_clear. exact H.
Qed.

Lemma passes_in_step (b : batch) (w1 w2 : world) :
  in_step w1 w2 ->
  in_step (world_after_part3_pass b w1) (world_after_demonstrated_pass b w2) /\
  loss_value b (st w1) = loss_value b (after_zero_grad (st w2)).
Proof.
  intros (Hq1 & Hq2 & Hg1 & Hg2 & Hc & Hs & Hu).
  pose proof (same_inputs_zero_grad Hs) as Hs1.
  destruct (same_inputs_forward (images_of b) Hs1) as (Hsc & Hgr & Hs2).
  set (g := graph_of (st w1) (images_of b)) in *.
  set (t1 := after_forward (st w1)) in *.
  set (s1 := after_zero_grad (st w2)) in *.
  set (s2 := after_forward s1) in *.
  assert (Hp : params (after_backward g (labels_of b) t1) =
               params (after_backward g (labels_of b) s2)).
  { rewrite !params_after_backward_clear.
    - subst t1 s2. rewrite !params_after_forward.
      destruct Hs1 as (Hd & _). rewrite Hd. reflexivity.
    - subst s2 s1. rewrite params_after_forward. apply zero_param_clear.
    - subst t1. rewrite params_after_forward. exact Hc. }
  assert (Ho : ostate (after_backward g (labels_of b) t1) =
               ostate (after_backward g (labels_of b) s2)).
  { destruct Hs2 as (_ & Ho & _). exact Ho. }
  split.
  - unfold in_step. split; [|split; [|split; [|split; [|split; [|split]]]]].
    + unfold world_after_part3_pass. eauto 10 with quiet.
    + unfold world_after_demonstrated_pass. eauto 10 with quiet.
    + unfold world_after_part3_pass.
      cbn [st logged after_zero_grad after_step after_backward set_params
           set_ostate grad_enabled].
      rewrite grad_enabled_after_forward. exact Hg1.
    + unfold world_after_demonstrated_pass.
      cbn [st logged after_step after_backward set_params set_ostate grad_enabled].
      rewrite grad_enabled_after_forward. exact Hg2.
    + unfold world_after_part3_pass. cbn [st logged after_zero_grad params set_params].
      apply zero_param_clear.
    + unfold world_after_part3_pass, world_after_demonstrated_pass.
      cbn [st logged]. fold g t1 s1 s2. rewrite <- Hgr.
      apply same_inputs_zero_grad_l.
      unfold same_inputs, after_step.
      cbn [params ostate training rng set_params set_ostate].
      rewrite Hp, Ho.
      destruct Hs2 as (_ & _ & Ht & Hr).
      repeat split; [exact Ht|exact Hr].
    + rewrite updates_part3_pass, updates_demonstrated_pass.
      fold g t1 s1 s2. rewrite <- Hgr, Hu.
      unfold after_step. cbn [params set_params set_ostate].
      rewrite Hp, Ho. reflexivity.
  - unfold loss_value. fold s1. rewrite Hsc. reflexivity.
Qed.

Lemma loops_in_step (batches : list batch) :
  forall (running_loss : Q) (w1 w2 : world),
    in_step w1 w2 ->
    exists x w1' w2',
      for_each batches training_pass_part3 running_loss w1 = Ok x w1' /\
      for_each batches demonstrated_pass running_loss w2 = Ok x w2' /\
      in_step w1' w2' /\
      length (updates (trace w1')) = length (updates (trace w1)) + length batches.
Proof.
  induction batches as [|b batches IH]; intros rl w1 w2 Hstep.
  - exists rl, w1, w2. cbn [for_each length].
    split; [reflexivity|split; [reflexivity|split; [exact Hstep|lia]]].
  - destruct (passes_in_step b Hstep) as [Hnext Hloss].
    destruct Hstep as (Hq1 & Hq2 & Hg1 & Hg2 & Hrest).
    destruct (IH (rl + loss_value b (st w1))%Q _ _ Hnext)
      as (x & w1' & w2' & H1 & H2 & Hfin & Hlen).
    exists x, w1', w2'. cbn [for_each].
    erewrite bind_Ok; [|apply training_pass_part3_quiet; assumption].
    erewrite bind_Ok; [|apply demonstrated_pass_quiet; assumption].
    rewrite <- Hloss.
    split; [exact H1|split; [exact H2|split; [exact Hfin|]]].
    rewrite Hlen, updates_part3_pass, length_app. cbn [length]. lia.
Qed.

(** C4.  Started with all gradients unset or zero, the exercise training
    pass (backward, step, then zero_grad) and the demonstrated pattern
    (zero_grad, then forward, backward, step) go through any sequence of
    training batches writing the same parameter values at every
    [optimizer.step()], one update per batch, and end with the same
    parameter values and the same accumulated loss. *)
Theorem exercise_pass_matches_demonstrated_pattern
  (batches : list batch) (running_loss : Q) (w : world) :
  quiet w ->
  grad_enabled (st w) = true ->
  Forall clear (params (st w)) ->
  exists x w1 w2,
    for_each batches training_pass_part3 running_loss w = Ok x w1 /\
    for_each batches demonstrated_pass running_loss w = Ok x w2 /\
    updates (trace w1) = updates (trace w2) /\
    length (updates (trace w1)) = length (updates (trace w)) + length batches /\
    map data (params (st w1)) = map data (params (st w2)).
Proof.
  intros Hq Hg Hc.
  assert (Hstep : in_step w w).
  { unfold in_step, same_inputs. repeat split; assumption. }
  destruct (loops_in_step batches running_loss Hstep)
    as (x & w1 & w2 & H1 & H2 & Hfin & Hlen).
  exists x, w1, w2.
  destruct Hfin as (_ & _ & _ & _ & _ & (Hd & _) & Hu).
  repeat split; assumption.
Qed.

(** *** The gradients at every backward pass and step of the exercise loop *)

(** The gradient every parameter holds is the gradient of the loss of one
    batch of the loader at the current parameter values. *)
Definition one_batch_gradient (t : torch) : Prop :=
  exists (b : batch) (md : mode),
    0 < length b <= Loader.batch_size /\
    params t =
    with_gradient
      (autograd (mkGraph (map data (params t)) md (images_of b)) (labels_of b))
      (map data (params t)).

(** What holds at a call, by the state it is made in. *)
Definition gradients_in_order (en : entry) : Prop :=
  (ev en = EBackward -> Forall clear (params (pre en))) /\
  (ev en = EStep -> one_batch_gradient (pre en)).

(** At the head of the loop. *)
Definition at_loop_head (w : world) : Prop :=
  grad_enabled (st w) = true /\
  Forall clear (params (st w)) /\
  Forall gradients_in_order (trace w).

(** What a run ends in: a property of the world it returns in, or of the
    world it raises in. *)
Definition outcome {A : Type} (I J : world -> Prop) (r : result A) : Prop :=
  match r with
  | Ok _ w' => I w'
  | Raised _ w' => J w'
  end.

Definition final_world {A : Type} (r : result A) : world :=
  match r with
  | Ok _ w' => w'
  | Raised _ w' => w'
  end.

Lemma call_cases {A : Type} (e : event) (out : list Q)
  (f : torch -> exn + (A * torch)) (w : world) (Phi : result A -> Prop) :
  (forall x, Phi (Raised x (logged e (Some x) out (st w) w))) ->
  (forall a t, f (st w) = inr (a, t) -> Phi (Ok a (logged e None out t w))) ->
  Phi (call_with e out f w).
Proof.
  intros Hr Ho. unfold call_with.
  destruct (faults w (clock w)); [apply Hr|].
  destruct (f (st w)) as [x|[a t]] eqn:E; [apply Hr|apply Ho; reflexivity].
Qed.

Lemma bind_call_cases {A B : Type} (e : event) (out : list Q)
  (f : torch -> exn + (A * torch)) (k : A -> M B) (w : world)
  (Phi : result B -> Prop) :
  (forall x, Phi (Raised x (logged e (Some x) out (st w) w))) ->
  (forall a t, f (st w) = inr (a, t) -> Phi (k a (logged e None out t w))) ->
  Phi (bind (call_with e out f) k w).
Proof.
  intros Hr Ho. unfold bind.
  apply (call_cases e out f w
           (fun r => Phi match r with
                         | Ok a w' => k a w'
                         | Raised x w' => Raised x w'
                         end)); assumption.
Qed.

Lemma outcome_bind {A B : Type} (I1 I2 J : world -> Prop) (m : M A) (k : A -> M B)
  (w : world) :
  outcome I1 J (m w) ->
  (forall a w1, I1 w1 -> outcome I2 J (k a w1)) ->
  outcome I2 J (bind m k w).
Proof.
  intros Hm Hk. unfold bind. destruct (m w) as [a w1|x w1]; cbn [outcome] in *.
  - apply Hk. exact Hm.
  - exact Hm.
Qed.

Lemma outcome_for_each {A B : Type} (I J : world -> Prop) (P : A -> Prop)
  (body : A -> B -> M B) (l : list A) :
  (forall x acc w, P x -> I w -> outcome I J (body x acc w)) ->
  Forall P l ->
  forall acc w, I w -> outcome I J (for_each l body acc w).
Proof.
  intros Hb Hl. induction Hl as [|x l Hx _ IH]; intros acc w HI; cbn [for_each].
  - exact HI.
  - apply outcome_bind with (I1 := I); [apply Hb; assumption|].
    intros acc' w1 HI1. apply IH. exact HI1.
Qed.

(** The three ways of a [for] statement's call of [next]. *)
Lemma on_next_cases {B : Type} (l : loader) (rest : list batch)
  (body : batch -> M B) (done : M B) (w : world) (Phi : result B -> Prop) :
  (forall x, ends_loop x = false ->
             Phi (Raised x (logged (ENext l) (Some x) [] (st w) w))) ->
  Phi (done (loop_ended l w)) ->
  (forall b r, rest = b :: r -> Phi (body b (logged (ENext l) None [] (st w) w))) ->
  Phi (on_next (next_ l rest) body done w).
Proof.
  intros Hraise Hdone Hbody. unfold on_next, next_, lib, call_with.
  destruct (faults w (clock w)) as [x|].
  - destruct (ends_loop x) eqn:Hx; [|apply Hraise; exact Hx].
    destruct x; try discriminate Hx. exact Hdone.
  - destruct rest as [|b r]; [exact Hdone|].
    apply (Hbody b r). reflexivity.
Qed.

Lemma outcome_for_batches {B : Type} (I J : world -> Prop) (P : batch -> Prop)
  (l : loader) (body : batch -> B -> M B) :
  (forall w x, I w -> I (logged (ENext l) x [] (st w) w)) ->
  (forall w x, I w -> J (logged (ENext l) (Some x) [] (st w) w)) ->
  (forall b acc w, P b -> I w -> outcome I J (body b acc w)) ->
  forall rest, Forall P rest ->
  forall acc w, I w -> outcome I J (for_batches l rest body acc w).
Proof.
  intros Hnext Hraise Hb rest Hrest.
  induction Hrest as [|b r Hx _ IH]; intros acc w HI; cbn [for_batches];
    apply on_next_cases.
  - intros x _. cbn [outcome]. apply Hraise. exact HI.
  - cbn [ret outcome]. apply Hnext. exact HI.
  - intros b r E. discriminate E.
  - intros x _. cbn [outcome]. apply Hraise. exact HI.
  - cbn [ret outcome]. apply Hnext. exact HI.
  - intros b' r' E. injection E as <- <-.
    apply outcome_bind with (I1 := I).
    + apply Hb; [exact Hx|]. apply Hnext. exact HI.
    + intros acc' w1 HI1. apply IH. exact HI1.
Qed.

Lemma gradients_in_order_other (e : event) (c : nat) (t : torch)
  (x : option exn) (out : list Q) :
  e <> EBackward -> e <> EStep -> gradients_in_order (mkEntry e c t x out).
Proof. intros H1 H2. split; intros H; cbn [ev] in H; congruence. Qed.

Lemma gradients_in_order_backward (c : nat) (t : torch) (x : option exn) (out : list Q) :
  Forall clear (params t) -> gradients_in_order (mkEntry EBackward c t x out).
Proof. intros H. split; intros He; [exact H|discriminate He]. Qed.

Lemma gradients_in_order_step (c : nat) (t : torch) (x : option exn) (out : list Q) :
  one_batch_gradient t -> gradients_in_order (mkEntry EStep c t x out).
Proof. intros H. split; intros He; [discriminate He|exact H]. Qed.

Lemma Forall_snoc {A : Type} (P : A -> Prop) (l : list A) (a : A) :
  Forall P l -> P a -> Forall P (l ++ [a]).
Proof. intros Hl Ha. apply Forall_app_intro; [exact Hl|constructor; [exact Ha|constructor]]. Qed.

Ltac close_trace :=
  cbn [trace logged st];
  repeat (apply Forall_snoc;
          [|first [ apply gradients_in_order_backward; assumption
                  | apply gradients_in_order_step; assumption
                  | apply gradients_in_order_other; discriminate ]]);
  assumption.

Ltac next_call :=
  apply bind_call_cases;
  [ intros ?; cbn [outcome]; close_trace
  | let a := fresh "a" in let t := fresh "t" in let Hf := fresh "Hf" in
    intros a t Hf; cbn [st logged] in Hf ].

Lemma training_pass_part3_keeps_order (b : batch) (rl : Q) (w : world) :
  0 < length b <= Loader.batch_size ->
  at_loop_head w ->
  outcome at_loop_head (fun w' => Forall gradients_in_order (trace w'))
    (training_pass_part3 b rl w).
Proof.
  intros Hb (Hg & Hc & Htr).
  assert (Hc1 : Forall clear (params (after_forward (st w))))
    by (rewrite params_after_forward; exact Hc).
  set (g := graph_of (st w) (images_of b)).
  assert (Hob : one_batch_gradient
                  (after_backward g (labels_of b) (after_forward (st w)))).
  { exists b, (current_mode (st w)). split; [exact Hb|].
    rewrite params_after_backward_clear by exact Hc1.
    rewrite data_with_gradient, params_after_forward. reflexivity. }
  unfold training_pass_part3. cbv zeta.
  unfold view_flat, model_call, criterion, backward, optimizer_step,
    optimizer_zero_grad, item, lib.
  next_call. injection Hf as <- <-.
  next_call. rewrite Hg in Hf. injection Hf as <- <-.
  next_call. cbn [o_rows o_graph option_map] in Hf.
  destruct (_ =? _) in Hf; [|discriminate Hf]. injection Hf as <- <-.
  next_call. cbn [l_graph] in Hf. injection Hf as <- <-. fold g.
  next_call. injection Hf as <- <-.
  next_call. injection Hf as <- <-.
  next_call. injection Hf as <- <-.
  unfold ret. cbn [outcome]. unfold at_loop_head. split; [|split].
  - cbn [st logged after_zero_grad after_step after_backward set_params
         set_ostate grad_enabled].
    rewrite grad_enabled_after_forward. exact Hg.
  - cbn [st logged after_zero_grad params set_params]. apply zero_param_clear.
  - close_trace.
Qed.

Lemma epoch_part3_keeps_order (e : nat) (w : world) :
  at_loop_head w ->
  outcome at_loop_head (fun w' => Forall gradients_in_order (trace w'))
    (epoch_part3 e tt w).
Proof.
  intros (Hg & Hc & Htr).
  unfold epoch_part3. cbv zeta.
  apply outcome_bind with (I1 := at_loop_head).
  - unfold for_loader, iter_, lib.
    next_call. injection Hf as <- <-.
    apply outcome_for_batches
      with (P := fun b : batch => 0 < length b <= Loader.batch_size).
    + intros w1 x (Hg1 & Hc1 & Htr1).
      split; [exact Hg1|split; [exact Hc1|close_trace]].
    + intros w1 x (Hg1 & Hc1 & Htr1). close_trace.
    + intros b acc w1 Hb Hw1.
      apply training_pass_part3_keeps_order; assumption.
    + apply Loader.iterate_bounds.
    + split; [exact Hg|split; [exact Hc|close_trace]].
  - intros rl w1 (Hg1 & Hc1 & Htr1).
    unfold len_, py_div, print, lib.
    next_call. injection Hf as <- <-.
    next_call.
    match type of Hf with
    | context [match ?n with 0 => _ | S _ => _ end] => destruct n
    end; [discriminate Hf|].
    injection Hf as <- <-.
    apply call_cases.
    + intros x. cbn [outcome]. close_trace.
    + intros a t Hf. injection Hf as <- <-. cbn [outcome].
      split; [exact Hg1|split; [exact Hc1|close_trace]].
Qed.

(** C8.  In every run of the Part 3 exercise cell on a freshly built model,
    whatever fails on the way: at every call of [loss.backward()] every
    parameter gradient is unset or zero, and at every call of
    [optimizer.step()] every parameter holds the gradient of the loss of
    exactly one batch (of at most 64 examples) at the current parameter
    values. *)
Theorem backward_always_on_clear_gradients
  (values : list Q) (o : O) (seed : nat) (f : nat -> option exn) :
  Forall gradients_in_order
    (trace (final_world (cell_part3 (fresh_world values o seed f)))).
Proof.
  assert (H : outcome at_loop_head (fun w' => Forall gradients_in_order (trace w'))
                (cell_part3 (fresh_world values o seed f))).
  { unfold cell_part3, train_part3.
    apply outcome_for_each with (P := fun _ : nat => True).
    - intros e [] w _ Hw. apply epoch_part3_keeps_order. exact Hw.
    - apply Forall_forall. intros; exact I.
    - split; [reflexivity|split; [apply fresh_clear|constructor]]. }
  destruct (cell_part3 (fresh_world values o seed f)) as [a w'|x w'];
    cbn [outcome final_world] in *.
  - destruct H as (_ & _ & H). exact H.
  - exact H.
Qed.

(** *** Accuracy *)

(** The predicted class of an image: the index of its largest probability. *)
Definition predict (values : list Q) (md : mode) (x : list Q) : Z :=
  Z.of_nat (argmax (map expQ (net values md x))).

Definition correct (values : list Q) (md : mode) (s : sample) : bool :=
  Z.eqb (predict values md (fst s)) (snd s).

Definition n_correct (values : list Q) (md : mode) (l : list sample) : nat :=
  length (filter (correct values md) l).

(** The fraction of the examples of [l] whose predicted class is the
    label. *)
Definition fraction_correct (values : list Q) (md : mode) (l : list sample) : Q :=
  ratio (n_correct values md l) (length l).

(** The mean, over the batches, of the fraction of each batch. *)
Definition mean_of_batch_fractions (values : list Q) (md : mode)
  (bs : list batch) : Q :=
  (Qsum (map (fraction_correct values md) bs) / inject_Z (Z.of_nat (length bs)))%Q.

(** What the accuracy lines compute on a batch. *)
Definition accuracy_at (values : list Q) (md : mode) (b : batch) : Q :=
  batch_fraction (map (map expQ) (map (net values md) (images_of b))) (labels_of b).

(** A model with no layer that depends on the mode (the [Classifier] of
    Part 5, which has no dropout). *)
Definition mode_independent : Prop :=
  forall p md x, net p md x = net p Eval x.

Definition is_print (en : entry) : bool := event_eqb (ev en) EPrint.

(** Everything printed so far. *)
Definition printed (w : world) : list (list Q) :=
  map shown (filter is_print (trace w)).

Lemma printed_logged (e : event) (x : option exn) (out : list Q) (t : torch) (w : world) :
  printed (logged e x out t w) =
  printed w ++ (if event_eqb e EPrint then [out] else []).
Proof.
  unfold printed. cbn [trace logged]. rewrite filter_app, map_app.
  cbn [filter]. unfold is_print at 2. cbn [ev].
  destruct (event_eqb e EPrint); reflexivity.
Qed.

Lemma printed_noted (e : event) (t : torch) (w : world) :
  event_eqb e EPrint = false -> printed (noted e t w) = printed w.
Proof.
  intros H. unfold printed. cbn [trace noted]. rewrite filter_app, map_app.
  cbn [filter]. unfold is_print at 2. cbn [ev]. rewrite H. apply app_nil_r.
Qed.

Lemma combine_map_same {A B C : Type} (f : A -> B) (g : A -> C) (l : list A) :
  combine (map f l) (map g l) = map (fun a => (f a, g a)) l.
Proof. induction l as [|a l IH]; [reflexivity|]. cbn [map combine]. rewrite IH. reflexivity. Qed.

Lemma accuracy_at_fraction (values : list Q) (md : mode) (b : batch) :
  (accuracy_at values md b == fraction_correct values md b)%Q.
Proof.
  unfold accuracy_at. rewrite batch_fraction_is_ratio
    by (rewrite !length_map; apply length_images_labels).
  unfold fraction_correct, n_correct, hits, predicted, images_of, labels_of.
  rewrite !length_map, !map_map, combine_map_same, filter_map_swap.
  reflexivity.
Qed.

Lemma batch_accuracy_value_at (md : mode) (t : torch) (b : batch) :
  batch_accuracy_value md t b = accuracy_at (map data (params t)) md b.
Proof. reflexivity. Qed.

Lemma accuracy_at_plain (values : list Q) (md : mode) (b : batch) :
  mode_independent -> accuracy_at values md b = accuracy_at values Eval b.
Proof.
  intros H. unfold accuracy_at. do 2 f_equal. apply map_ext. intros x. apply H.
Qed.

Lemma n_correct_app (values : list Q) (md : mode) (l1 l2 : list sample) :
  n_correct values md (l1 ++ l2) = n_correct values md l1 + n_correct values md l2.
Proof. unfold n_correct. rewrite filter_app, length_app. reflexivity. Qed.

Lemma n_correct_concat (values : list Q) (md : mode) (bs : list batch) :
  n_correct values md (concat bs) =
  fold_right (fun b acc => n_correct values md b + acc) 0 bs.
Proof.
  induction bs as [|b bs IH]; [reflexivity|].
  cbn [concat fold_right]. rewrite n_correct_app, IH. reflexivity.
Qed.

Lemma n_correct_perm (values : list Q) (md : mode) (l1 l2 : list sample) :
  Permutation l1 l2 -> n_correct values md l1 = n_correct values md l2.
Proof.
  unfold n_correct. induction 1 as [|x l1 l2 _ IH|x y l|l1 l2 l3 _ IH1 _ IH2].
  - reflexivity.
  - cbn [filter]. destruct (correct values md x); cbn [length]; rewrite IH; reflexivity.
  - cbn [filter]. destruct (correct values md x), (correct values md y); reflexivity.
  - rewrite IH1. exact IH2.
Qed.

(** With batches of one size the mean of the batch fractions is the
    fraction over all the examples. *)
Lemma mean_of_full_batches (values : list Q) (md : mode) (n : nat) (bs : list batch) :
  n <> 0 -> bs <> [] ->
  Forall (fun b => length b = n) bs ->
  (mean_of_batch_fractions values md bs == fraction_correct values md (concat bs))%Q.
Proof.
  intros Hn Hbs Hfull. unfold mean_of_batch_fractions.
  assert (Hmap : map (fraction_correct values md) bs =
                 map (fun b => ratio (n_correct values md b) n) bs).
  { apply map_ext_in. intros b Hb. rewrite Forall_forall in Hfull.
    unfold fraction_correct. rewrite (Hfull b Hb). reflexivity. }
  rewrite Hmap, Qsum_ratios_uniform by exact Hn.
  rewrite ratio_div; [|exact Hn|destruct bs; [congruence|discriminate]].
  unfold fraction_correct.
  rewrite n_correct_concat, (length_concat_uniform Hfull). reflexivity.
Qed.

Section Accuracy.
Hypothesis net_classes : forall p md x, net p md x <> [].
Hypothesis shuffle_perm : forall seed l, Permutation (shuffle seed l) l.

Lemma validation_pass_cell13_state (w : world) :
  quiet w ->
  quiet (world_after_cell13_validation_pass w) /\
  params (st (world_after_cell13_validation_pass w)) = params (st w) /\
  printed (world_after_cell13_validation_pass w) = printed w.
Proof.
  intros Hq. unfold world_after_cell13_validation_pass, world_after_batch_accuracy.
  split; [eauto 15 with quiet|split].
  - cbn [st logged noted set_grad_enabled params].
    rewrite params_after_forward. reflexivity.
  - rewrite !printed_logged, printed_noted, !printed_logged, printed_noted
      by reflexivity.
    cbn [event_eqb]. rewrite !app_nil_r. reflexivity.
Qed.

Lemma validation_loop_cell13 (batches : list batch) :
  mode_independent ->
  forall (acc : list Q) (w : world),
    quiet w ->
    exists w',
      for_batches TestLoader batches validation_pass_cell13 acc w =
      Ok (acc ++ map (accuracy_at (map data (params (st w))) Eval) batches) w' /\
      quiet w' /\
      params (st w') = params (st w) /\
      printed w' = printed w.
Proof.
  intros Hplain. induction batches as [|b batches IH]; intros acc w Hq.
  - exists (loop_ended TestLoader w).
    rewrite for_batches_nil_quiet by exact Hq. cbn [map]. rewrite app_nil_r.
    split; [reflexivity|split; [apply quiet_loop_ended; exact Hq|split]].
    + reflexivity.
    + unfold loop_ended. rewrite printed_logged. apply app_nil_r.
  - set (w0 := logged (ENext TestLoader) None [] (st w) w).
    assert (Hq0 : quiet w0) by (unfold w0; eauto with quiet).
    destruct (validation_pass_cell13_state Hq0) as (Hq1 & Hp1 & Hpr1).
    destruct (IH (acc ++ [accuracy_at (map data (params (st w))) Eval b]) _ Hq1)
      as (w' & Hrun & Hq' & Hp' & Hpr').
    exists w'. rewrite for_batches_cons_quiet by exact Hq. fold w0.
    erewrite bind_Ok.
    2:{ apply (validation_pass_cell13_quiet net_classes). exact Hq0. }
    rewrite batch_accuracy_value_at, (accuracy_at_plain _ _ _ Hplain).
    subst w0. cbn [st logged] in *.
    rewrite Hrun, Hp1, <- app_assoc. cbn [app map].
    split; [reflexivity|split; [exact Hq'|split]].
    + rewrite Hp', Hp1. reflexivity.
    + rewrite Hpr', Hpr1, printed_logged. apply app_nil_r.
Qed.

Lemma Qsum_accuracy_at (values : list Q) (md : mode) (bs : list batch) :
  (Qsum (map (accuracy_at values md) bs) ==
   Qsum (map (fraction_correct values md) bs))%Q.
Proof.
  apply Qsum_Qeq. induction bs as [|b bs IH]; cbn [map]; constructor.
  - apply accuracy_at_fraction.
  - exact IH.
Qed.

(** The fraction over a shuffled dataset cut into full batches. *)
Lemma mean_over_loader_when_full (values : list Q) (md : mode) (seed : nat)
  (dataset : list sample) :
  dataset <> [] ->
  length dataset mod Loader.batch_size = 0 ->
  (mean_of_batch_fractions values md (Loader.iterate shuffle seed dataset) ==
   fraction_correct values md dataset)%Q.
Proof.
  intros Hne Hmod.
  assert (Hlen : length (shuffle seed dataset) =
                 (length dataset / Loader.batch_size) * Loader.batch_size).
  { rewrite (Loader.shuffle_length shuffle shuffle_perm).
    pose proof (Nat.div_mod_eq (length dataset) Loader.batch_size). lia. }
  destruct (@Loader.chunks_full _ _ _ _ Loader.batch_size_pos Hlen)
    as [Hfull _].
  rewrite (@mean_of_full_batches values md Loader.batch_size).
  - unfold Loader.iterate.
    rewrite (Loader.concat_chunks _ Loader.batch_size_pos).
    unfold fraction_correct.
    rewrite (n_correct_perm values md (shuffle_perm seed dataset)).
    rewrite (Loader.shuffle_length shuffle shuffle_perm). reflexivity.
  - unfold Loader.batch_size. lia.
  - apply (Loader.iterate_nonempty shuffle shuffle_perm). exact Hne.
  - exact Hfull.
Qed.

Lemma validation_cell13_quiet (w : world) :
  mode_independent -> quiet w -> testset <> [] ->
  let values := map data (params (st w)) in
  let batches := Loader.iterate shuffle (rng (st w)) testset in
  let a := (Qsum (map (accuracy_at values Eval) batches) /
            inject_Z (Z.of_nat (length batches)))%Q in
  exists w', validation_cell13 w = Ok tt w' /\
             printed w' = printed w ++ [[(a * 100)%Q]].
Proof.
  intros Hplain Hq Hne values batches a.
  set (w0 := logged (EIter TestLoader) None [] (next_rng (st w)) w).
  assert (Hq0 : quiet w0) by (unfold w0; eauto with quiet).
  destruct (validation_loop_cell13 batches Hplain [] Hq0)
    as (w1 & Hrun & Hq1 & Hp1 & Hpr1).
  assert (Hnb : length batches <> 0).
  { pose proof (Loader.iterate_nonempty shuffle shuffle_perm (rng (st w)) Hne) as H.
    fold batches in H. destruct batches; [congruence|discriminate]. }
  eexists. unfold validation_cell13, for_loader. rewrite bind_assoc.
  run_with iter_quiet. cbn [dataset]. fold batches w0.
  erewrite bind_Ok; [|exact Hrun]. cbn [app].
  run_with py_div_quiet; [|rewrite length_map; exact Hnb].
  rewrite print_quiet by eauto with quiet.
  split; [reflexivity|].
  rewrite !printed_logged. cbn [event_eqb]. rewrite app_nil_r, Hpr1.
  unfold w0. rewrite printed_logged. cbn [event_eqb]. rewrite app_nil_r.
  rewrite length_map. reflexivity.
Qed.

Lemma test_pass_cell17_state (w : world) :
  quiet w ->
  quiet (world_after_cell17_test_pass w) /\
  params (st (world_after_cell17_test_pass w)) = params (st w) /\
  printed (world_after_cell17_test_pass w) = printed w.
Proof.
  intros Hq. unfold world_after_cell17_test_pass, world_after_batch_accuracy.
  split; [eauto 20 with quiet|split].
  - reflexivity.
  - rewrite !printed_logged, printed_noted, !printed_logged, printed_noted
      by reflexivity.
    cbn [event_eqb]. rewrite !app_nil_r. reflexivity.
Qed.

Lemma test_loop_cell17 (batches : list batch) :
  forall (acc : option Q) (w : world),
    quiet w ->
    exists w',
      for_batches TestLoader batches test_pass_cell17 acc w =
      Ok (fold_left add_tensor
            (map (accuracy_at (map data (params (st w))) Eval) batches) acc) w' /\
      quiet w' /\
      params (st w') = params (st w) /\
      printed w' = printed w.
Proof.
  induction batches as [|b batches IH]; intros acc w Hq.
  - exists (loop_ended TestLoader w).
    rewrite for_batches_nil_quiet by exact Hq. cbn [map fold_left].
    split; [reflexivity|split; [apply quiet_loop_ended; exact Hq|split]].
    + reflexivity.
    + unfold loop_ended. rewrite printed_logged. apply app_nil_r.
  - set (w0 := logged (ENext TestLoader) None [] (st w) w).
    assert (Hq0 : quiet w0) by (unfold w0; eauto with quiet).
    destruct (test_pass_cell17_state Hq0) as (Hq1 & Hp1 & Hpr1).
    destruct (IH (add_tensor acc (accuracy_at (map data (params (st w))) Eval b)) _ Hq1)
      as (w' & Hrun & Hq' & Hp' & Hpr').
    exists w'. rewrite for_batches_cons_quiet by exact Hq. fold w0.
    erewrite bind_Ok.
    2:{ apply (test_pass_cell17_quiet net_classes). exact Hq0. }
    rewrite batch_accuracy_value_at.
    subst w0. cbn [st logged] in *.
    rewrite Hrun, Hp1. cbn [map fold_left].
    split; [reflexivity|split; [exact Hq'|split]].
    + rewrite Hp', Hp1. reflexivity.
    + rewrite Hpr', Hpr1, printed_logged. apply app_nil_r.
Qed.

Lemma fold_add_tensor_some (l : list Q) (a : Q) :
  exists y, fold_left add_tensor l (Some a) = Some y /\ (y == a + Qsum l)%Q.
Proof.
  revert a. induction l as [|x l IH]; intros a; cbn [fold_left add_tensor].
  - exists a. split; [reflexivity|]. cbn. rewrite Qplus_0_r. reflexivity.
  - destruct (IH (a + x)%Q) as (y & Hy & Hsum). exists y. split; [exact Hy|].
    rewrite Hsum. cbn [Qsum fold_right]. fold (Qsum l). rewrite Qplus_assoc.
    reflexivity.
Qed.

Lemma fold_add_tensor_none (l : list Q) :
  l <> [] ->
  exists y, fold_left add_tensor l None = Some y /\ (y == Qsum l)%Q.
Proof.
  destruct l as [|x l]; [congruence|]. intros _.
  cbn [fold_left add_tensor]. apply fold_add_tensor_some.
Qed.

Lemma test_cell17_quiet (w : world) :
  quiet w -> testset <> [] ->
  let values := map data (params (st w)) in
  let batches := Loader.iterate shuffle (rng (st w)) testset in
  exists a w',
    test_cell17 w = Ok a w' /\
    (a == mean_of_batch_fractions values Eval batches)%Q.
Proof.
  intros Hq Hne values batches.
  set (w0 := logged (EIter TestLoader) None [] (next_rng (st w)) w).
  assert (Hq0 : quiet w0) by (unfold w0; eauto with quiet).
  destruct (test_loop_cell17 batches None Hq0) as (w1 & Hrun & Hq1 & Hp1 & Hpr1).
  assert (Hnb : batches <> [])
    by (apply (Loader.iterate_nonempty shuffle shuffle_perm); exact Hne).
  destruct (@fold_add_tensor_none
              (map (accuracy_at (map data (params (st w0))) Eval) batches))
    as (y & Hy & Hsum).
  { destruct batches; [congruence|discriminate]. }
  rewrite Hy in Hrun.
  eexists. eexists. unfold test_cell17, for_loader. rewrite bind_assoc.
  run_with iter_quiet. cbn [dataset]. fold batches w0.
  erewrite bind_Ok; [|exact Hrun].
  run_with numpy_quiet.
  run_with len_quiet.
  split; [reflexivity|].
  unfold mean_of_batch_fractions. cbn [dataset].
  rewrite Hsum. subst w0. cbn [st logged next_rng params].
  rewrite Qsum_accuracy_at.
  replace ((length testset + Loader.batch_size - 1) / Loader.batch_size)
    with (length batches).
  - reflexivity.
  - unfold batches, Loader.iterate.
    rewrite (Loader.chunks_length _ Loader.batch_size_pos).
    rewrite (Loader.shuffle_length shuffle shuffle_perm). reflexivity.
Qed.

(** C1, as the notebooks compute it.  When no call fails, the accuracy the
    validation pass of the [Classifier] cell prints (times 100) and the test
    accuracy the [Classifier2] cell computes for its report are the mean,
    over the batches the test loader yields, of the fraction of each batch
    whose predicted class (the index of the largest probability) is the
    label.  That mean is the fraction over the whole test set when the
    batch size 64 divides the size of the test set, so that all batches are
    full. *)
Theorem accuracy_is_mean_of_batch_accuracies (w : world) :
  quiet w ->
  testset <> [] ->
  let values := map data (params (st w)) in
  let batches := Loader.iterate shuffle (rng (st w)) testset in
  (mode_independent ->
   exists a w',
     validation_cell13 w = Ok tt w' /\
     printed w' = printed w ++ [[(a * 100)%Q]] /\
     (a == mean_of_batch_fractions values Eval batches)%Q /\
     (length testset mod Loader.batch_size = 0 ->
      (a == fraction_correct values Eval testset)%Q)) /\
  (exists a w',
     test_cell17 w = Ok a w' /\
     (a == mean_of_batch_fractions values Eval batches)%Q /\
     (length testset mod Loader.batch_size = 0 ->
      (a == fraction_correct values Eval testset)%Q)).
Proof.
  intros Hq Hne values batches. split.
  - intros Hplain.
    destruct (validation_cell13_quiet Hplain Hq Hne) as (w' & Hrun & Hpr).
    eexists. exists w'. split; [exact Hrun|split; [exact Hpr|]].
    assert (Hmean : (Qsum (map (accuracy_at values Eval) batches) /
                     inject_Z (Z.of_nat (length batches)) ==
                     mean_of_batch_fractions values Eval batches)%Q).
    { unfold mean_of_batch_fractions. rewrite Qsum_accuracy_at. reflexivity. }
    split; [exact Hmean|].
    intros Hmod. apply Qeq_trans with (1 := Hmean).
    apply mean_over_loader_when_full; assumption.
  - destruct (test_cell17_quiet Hq Hne) as (a & w' & Hrun & Hmean).
    exists a, w'. split; [exact Hrun|split; [exact Hmean|]].
    intros Hmod. apply Qeq_trans with (1 := Hmean).
    apply mean_over_loader_when_full; assumption.
Qed.

End Accuracy.

(** *** The shape of the loops *)

(** The library calls made between two worlds, the enter and exit of
    [torch.no_grad()] left out. *)
Definition calls_made (w w' : world) : list event :=
  filter (fun e => negb (is_note e)) (new_events w w').

(** The loops over the epochs of Part 5 hold two loops each and are longer. *)
Remark epoch_loops_of_part5 :
  length cell13_epoch_loop = 24 /\ straight cell13_epoch_loop = true /\
  length cell17_epoch_loop = 30 /\ straight cell17_epoch_loop = true.
Proof. repeat split. Qed.

Section Shape.
Hypothesis net_classes : forall p md x, net p md x <> [].

Lemma calls_made_of (w w' : world) (new : list entry) :
  trace w' = trace w ++ new ->
  calls_made w w' = filter (fun e => negb (is_note e)) (map ev new).
Proof. intros H. unfold calls_made. rewrite (new_events_app w w' new H). reflexivity. Qed.

(** C7.  The training loop of Part 3 and the training and accuracy loops of
    the two Part 5 cells are each fewer than twenty consecutive lines, none
    of which is a conditional, a conditional loop, an exception handler or a
    jump.  When no call fails, one pass through the body of each loop makes
    the library calls of its lines, in the order of the lines, whatever the
    batch and the state. *)
Theorem loops_are_short_and_straight (b : batch) (w : world) :
  quiet w -> grad_enabled (st w) = true ->
  Forall (fun loop => length loop < 20 /\ straight loop = true /\
                      consecutive loop = true) manual_loops /\
  (forall running_loss, exists x w',
      training_pass_part3 b running_loss w = Ok x w' /\
      calls_made w w' = body_calls part3_pass_lines) /\
  (forall running_loss, exists x w',
      training_pass_cell13 b running_loss w = Ok x w' /\
      calls_made w w' = body_calls cell13_training_pass_lines) /\
  (forall accuracy, exists x w',
      validation_pass_cell13 b accuracy w = Ok x w' /\
      calls_made w w' = body_calls cell13_validation_pass_lines) /\
  (forall train_acc, exists x w',
      training_pass_cell17 b train_acc w = Ok x w' /\
      calls_made w w' = body_calls cell17_training_pass_lines) /\
  (forall test_acc, exists x w',
      test_pass_cell17 b test_acc w = Ok x w' /\
      calls_made w w' = body_calls cell17_test_pass_lines).
Proof.
  intros Hq Hg. split; [|split; [|split; [|split; [|split]]]].
  - unfold manual_loops.
    repeat (constructor; [split; [apply Nat.ltb_lt; reflexivity|split; reflexivity]|]).
    constructor.
  - intros rl. eexists. eexists.
    split; [apply training_pass_part3_quiet; assumption|].
    erewrite calls_made_of; [|unfold world_after_part3_pass; show_trace].
    reflexivity.
  - intros rl. eexists. eexists.
    split; [apply training_pass_cell13_quiet; assumption|].
    erewrite calls_made_of; [|unfold world_after_cell13_training_pass; show_trace].
    reflexivity.
  - intros acc. eexists. eexists.
    split; [apply (validation_pass_cell13_quiet net_classes); assumption|].
    erewrite calls_made_of; [|unfold world_after_cell13_validation_pass; show_trace].
    reflexivity.
  - intros acc. eexists. eexists.
    split; [apply (training_pass_cell17_quiet net_classes); assumption|].
    erewrite calls_made_of; [|unfold world_after_cell17_training_pass; show_trace].
    reflexivity.
  - intros acc. eexists. eexists.
    split; [apply (test_pass_cell17_quiet net_classes); assumption|].
    erewrite calls_made_of; [|unfold world_after_cell17_test_pass; show_trace].
    reflexivity.
Qed.

End Shape.

(** *** What the accuracy loops leave alone *)

(** The parameters, values and gradients, the optimizer's state and the
    gradient mode in [w'] are those of [w]. *)
Definition unchanged (w w' : world) : Prop :=
  params (st w') = params (st w) /\
  ostate (st w') = ostate (st w) /\
  grad_enabled (st w') = grad_enabled (st w).

(** A program that leaves them alone however it ends, whatever fails. *)
Definition read_only {A : Type} (m : M A) : Prop :=
  forall w, unchanged w (final_world (m w)).

Lemma unchanged_refl (w : world) : unchanged w w.
Proof. repeat split. Qed.

Lemma unchanged_trans (w1 w2 w3 : world) :
  unchanged w1 w2 -> unchanged w2 w3 -> unchanged w1 w3.
Proof.
  intros (H1 & H2 & H3) (H4 & H5 & H6). repeat split; congruence.
Qed.

Lemma read_only_ret {A : Type} (a : A) : read_only (ret a).
Proof. intros w. apply unchanged_refl. Qed.

Lemma read_only_bind {A B : Type} (m : M A) (k : A -> M B) :
  read_only m -> (forall a, read_only (k a)) -> read_only (bind m k).
Proof.
  intros Hm Hk w. specialize (Hm w). unfold bind.
  destruct (m w) as [a w1|x w1]; cbn [final_world] in *.
  - apply unchanged_trans with w1; [exact Hm|apply Hk].
  - exact Hm.
Qed.

(** A library call that returns the framework with the same parameters,
    optimizer state and gradient mode. *)
Definition keeps_model {A : Type} (f : torch -> exn + (A * torch)) : Prop :=
  forall t a t', f t = inr (a, t') ->
    params t' = params t /\ ostate t' = ostate t /\
    grad_enabled t' = grad_enabled t.

Lemma read_only_call_with {A : Type} (e : event) (out : list Q)
  (f : torch -> exn + (A * torch)) :
  keeps_model f -> read_only (call_with e out f).
Proof.
  intros Hf w. apply call_cases.
  - intros x. unfold unchanged. cbn [final_world logged st]. repeat split.
  - intros a t Ht. unfold unchanged. cbn [final_world logged st].
    exact (Hf _ _ _ Ht).
Qed.

Lemma read_only_no_grad {A : Type} (body : M A) :
  read_only body -> read_only (no_grad body).
Proof.
  intros Hb w. unfold no_grad.
  specialize (Hb (noted ENoGradEnter (set_grad_enabled false (st w)) w)).
  destruct (body _) as [a w1|x w1]; cbn [final_world] in *;
    destruct Hb as (H1 & H2 & _); repeat split; assumption.
Qed.

Lemma read_only_for_each {A B : Type} (l : list A) (body : A -> B -> M B) :
  (forall x acc, read_only (body x acc)) ->
  forall acc, read_only (for_each l body acc).
Proof.
  intros Hb. induction l as [|x l IH]; intros acc; cbn [for_each].
  - apply read_only_ret.
  - apply read_only_bind; [apply Hb|exact IH].
Qed.

Lemma keeps_model_same {A : Type} (g : torch -> A) :
  keeps_model (fun t => inr (g t, t)).
Proof. intros t a t' H. injection H as _ <-. repeat split. Qed.

Lemma keeps_model_lift {A : Type} (r : exn + A) :
  keeps_model (fun t => lift t r).
Proof.
  intros t a t' H. destruct r as [x|b]; [discriminate H|].
  injection H as _ <-. repeat split.
Qed.

Lemma keeps_model_forward (images : list (list Q)) :
  keeps_model
    (fun t =>
       inr (mkOutput (scores t images)
              (if grad_enabled t then Some (graph_of t images) else None),
            after_forward t)).
Proof.
  intros t a t' H. injection H as _ <-.
  rewrite params_after_forward, ostate_after_forward, grad_enabled_after_forward.
  repeat split.
Qed.

Ltac read_only_steps :=
  repeat first
    [ apply read_only_ret
    | apply read_only_call_with;
      first [ apply keeps_model_same with (g := fun _ => _)
            | apply keeps_model_lift
            | apply keeps_model_forward
            | let t := fresh "t" in let a := fresh "a" in let t' := fresh "t'" in
              let H := fresh "H" in
              intros t a t' H;
              repeat match type of H with
                     | context [match ?c with _ => _ end] => destruct c
                     | context [if ?c then _ else _] => destruct c
                     end;
              try discriminate H; injection H as _ <-; repeat split ]
    | apply read_only_no_grad
    | apply read_only_for_each; intros
    | apply read_only_bind; [|intros] ].

Lemma read_only_batch_accuracy (probs : matrix) (labels : list Z) :
  read_only (batch_accuracy probs labels).
Proof.
  unfold batch_accuracy, topk_1, labels_view, tensor_eq, float_type, torch_mean, lib.
  read_only_steps.
Qed.

Lemma read_only_for_batches {B : Type} (l : loader) (body : batch -> B -> M B) :
  (forall b acc, read_only (body b acc)) ->
  forall rest acc, read_only (for_batches l rest body acc).
Proof.
  intros Hb. induction rest as [|b r IH]; intros acc w; cbn [for_batches];
    apply on_next_cases.
  - intros x _. repeat split.
  - repeat split.
  - intros b r E. discriminate E.
  - intros x _. repeat split.
  - repeat split.
  - intros b' r' E. injection E as <- <-.
    apply unchanged_trans with (logged (ENext l) None [] (st w) w);
      [repeat split|].
    apply (@read_only_bind _ _ (body b acc) _ (Hb b acc) IH).
Qed.

Lemma read_only_for_loader {B : Type} (l : loader) (body : batch -> B -> M B) :
  (forall b acc, read_only (body b acc)) ->
  forall acc, read_only (for_loader l body acc).
Proof.
  intros Hb acc. unfold for_loader. apply read_only_bind.
  - unfold iter_, lib. read_only_steps.
  - intros batches. apply read_only_for_batches. exact Hb.
Qed.

Lemma read_only_validation_pass_cell13 (b : batch) (accuracy : list Q) :
  read_only (validation_pass_cell13 b accuracy).
Proof.
  unfold validation_pass_cell13. cbv zeta.
  apply read_only_bind.
  - unfold model_call, torch_exp, lib. read_only_steps.
  - intros probs. apply read_only_bind; [apply read_only_batch_accuracy|].
    intros a. apply read_only_ret.
Qed.

Lemma read_only_test_pass_cell17 (b : batch) (test_acc : option Q) :
  read_only (test_pass_cell17 b test_acc).
Proof.
  unfold test_pass_cell17. cbv zeta.
  apply read_only_bind.
  - unfold model_eval, model_call, criterion, lib. read_only_steps.
  - intros preds.
    apply read_only_bind; [unfold torch_exp, lib; read_only_steps|].
    intros probs.
    apply read_only_bind; [apply read_only_batch_accuracy|].
    intros a. unfold model_train, lib. read_only_steps.
Qed.

Lemma read_only_validation_cell13 : read_only validation_cell13.
Proof.
  unfold validation_cell13. apply read_only_bind.
  - apply read_only_for_loader. apply read_only_validation_pass_cell13.
  - intros acc. unfold py_div, print, lib. read_only_steps.
Qed.

Lemma read_only_test_cell17 : read_only test_cell17.
Proof.
  unfold test_cell17. apply read_only_bind.
  - apply read_only_for_loader. apply read_only_test_pass_cell17.
  - intros acc. unfold numpy_, len_, lib. read_only_steps.
Qed.

(** The accuracy loops never touch the model.  However a run of the
    validation pass of the [Classifier] cell or of the test loop of the
    [Classifier2] cell ends, returning or raising, and whatever failed on
    the way, it ends with the parameter values, the gradients and the
    optimizer's state it started with, and with the gradient mode it
    started with: [torch.no_grad()] is undone on the way out. *)
Theorem accuracy_loops_never_update_the_model (w : world) :
  unchanged w (final_world (validation_cell13 w)) /\
  unchanged w (final_world (test_cell17 w)).
Proof.
  split.
  - apply read_only_validation_cell13.
  - apply read_only_test_cell17.
Qed.

(** *** The mode a failed test pass leaves the model in *)

(** The world on the way out of a [torch.no_grad()] block entered in [w]. *)
Definition no_grad_exit (w w' : world) : world :=
  noted ENoGradExit (set_grad_enabled (grad_enabled (st w)) (st w')) w'.

Lemma outcome_no_grad {A : Type} (I J : world -> Prop) (body : M A) (w : world) :
  outcome (fun w' => I (no_grad_exit w w')) (fun w' => J (no_grad_exit w w'))
    (body (noted ENoGradEnter (set_grad_enabled false (st w)) w)) ->
  outcome I J (no_grad body w).
Proof.
  intros H. unfold no_grad. destruct (body _) as [a w1|x w1]; exact H.
Qed.

(** A call that keeps a property of the framework's state keeps it whether
    it returns or raises. *)
Lemma outcome_call_keeps {A : Type} (P : torch -> Prop) (e : event) (out : list Q)
  (f : torch -> exn + (A * torch)) (w : world) :
  (forall t a t', f t = inr (a, t') -> P t -> P t') ->
  P (st w) ->
  outcome (fun w' => P (st w')) (fun w' => P (st w')) (call_with e out f w).
Proof.
  intros Hf Hw. apply call_cases.
  - intros x. exact Hw.
  - intros a t Ht. cbn [outcome logged st]. exact (Hf _ _ _ Ht Hw).
Qed.

Definition in_eval_mode (t : torch) : Prop := training t = false.

Lemma after_forward_in_eval_mode (t : torch) :
  in_eval_mode t -> in_eval_mode (after_forward t).
Proof. unfold in_eval_mode. rewrite training_after_forward. exact (fun H => H). Qed.

Ltac stays_in_eval_mode :=
  apply outcome_call_keeps;
  [ let t := fresh "t" in let a := fresh "a" in let t' := fresh "t'" in
    let H := fresh "H" in let Ht := fresh "Ht" in
    intros t a t' H Ht; unfold lift in H;
    repeat match type of H with
           | context [match ?c with _ => _ end] => destruct c
           | context [if ?c then _ else _] => destruct c
           end;
    try discriminate H; injection H as _ <-;
    first [exact Ht | apply after_forward_in_eval_mode; exact Ht]
  | assumption ].

Lemma batch_accuracy_stays_in_eval_mode (probs : matrix) (labels : list Z) (w : world) :
  in_eval_mode (st w) ->
  outcome (fun w' => in_eval_mode (st w')) (fun w' => in_eval_mode (st w'))
    (batch_accuracy probs labels w).
Proof.
  intros Hw. unfold batch_accuracy. cbv zeta.
  unfold topk_1, labels_view, tensor_eq, float_type, torch_mean, lib.
  repeat (apply outcome_bind with (I1 := fun w' => in_eval_mode (st w'));
          [stays_in_eval_mode|cbv beta; intros ? ? ?]).
  stays_in_eval_mode.
Qed.

(** The [Classifier2] cell calls [model.eval()] at the head of each pass of
    its test loop and [model.train()] at its end, with nothing to undo the
    first when something in between fails.  So a pass that returns leaves
    the model in training mode; a pass that raises leaves it in evaluation
    mode, unless it was [model.eval()] itself that was made to fail, in
    which case the mode is as it was. *)
Theorem failed_test_pass_leaves_eval_mode (b : batch) (test_acc : option Q) (w : world) :
  outcome
    (fun w' => training (st w') = true)
    (fun w' => training (st w') =
               match faults w (clock w) with
               | Some _ => training (st w)
               | None => false
               end)
    (test_pass_cell17 b test_acc w).
Proof.
  unfold test_pass_cell17. cbv zeta.
  destruct (faults w (clock w)) as [x|] eqn:Hf.
  - unfold bind at 1, no_grad, model_eval, lib at 1.
    unfold bind at 1, call_with at 1. cbn [noted clock faults st].
    rewrite Hf. reflexivity.
  - apply outcome_bind with (I1 := fun w1 => in_eval_mode (st w1)).
    + apply outcome_no_grad. unfold model_eval, lib at 1.
      unfold bind at 1, call_with at 1. cbn [noted clock faults st].
      rewrite Hf.
      set (w1 := logged EEval None [] _ _).
      assert (Hw1 : in_eval_mode (st w1)) by reflexivity.
      change (outcome (fun w' => in_eval_mode (st w')) (fun w' => in_eval_mode (st w'))
                ((test_preds <- model_call (images_of b) ;;
                  criterion test_preds (labels_of b) ;; ret test_preds) w1)).
      unfold model_call, criterion, lib.
      apply outcome_bind with (I1 := fun w' => in_eval_mode (st w'));
        [stays_in_eval_mode|cbv beta; intros ? ? ?].
      apply outcome_bind with (I1 := fun w' => in_eval_mode (st w'));
        [stays_in_eval_mode|cbv beta; intros ? ? ?].
      assumption.
    + intros preds w1 Hw1. cbv beta in Hw1.
      apply outcome_bind with (I1 := fun w' => in_eval_mode (st w')).
      * unfold torch_exp, lib. stays_in_eval_mode.
      * intros probs w2 Hw2. cbv beta in Hw2.
        apply outcome_bind with (I1 := fun w' => in_eval_mode (st w')).
        -- apply batch_accuracy_stays_in_eval_mode. exact Hw2.
        -- intros a w3 Hw3. cbv beta in Hw3.
           unfold model_train, lib. apply bind_call_cases.
           ++ intros y. exact Hw3.
           ++ intros u t Ht. injection Ht as _ <-. reflexivity.
Qed.

(** *** The accuracy lines on any batch *)

Lemma lib_quiet_raise {A : Type} (e : event) (f : torch -> exn + (A * torch))
  (w : world) (x : exn) :
  quiet w -> f (st w) = inl x ->
  lib e f w = Raised x (logged e (Some x) [] (st w) w).
Proof. intros Hq Hf. unfold lib, call_with. rewrite Hq, Hf. reflexivity. Qed.

Lemma hits_le (probs : matrix) (labels : list Z) :
  hits probs labels <= length probs.
Proof.
  unfold hits.
  apply Nat.le_trans with (length (combine (predicted probs) labels)).
  - apply filter_length_le.
  - rewrite length_combine. unfold predicted. rewrite length_map. lia.
Qed.

Lemma ratio_bounds (h n : nat) :
  h <= n -> 0 < n -> (0 <= ratio h n <= 1)%Q.
Proof.
  intros Hh Hn. unfold ratio.
  assert (Hpos : (0 < inject_Z (Z.of_nat n))%Q).
  { unfold Qlt. cbn. lia. }
  split.
  - apply Qle_shift_div_l; [exact Hpos|].
    rewrite Qmult_0_l. unfold Qle. cbn. lia.
  - apply Qle_shift_div_r; [exact Hpos|].
    rewrite Qmult_1_l. rewrite <- Zle_Qle. lia.
Qed.

(** The accuracy lines ([topk], [view], [==], [type], [mean]) on a batch
    with at least one row, when the environment makes no call fail.  With a
    score for at least one class in every row and as many labels as rows,
    they return the number of rows whose predicted class is the label
    divided by the number of rows, a value between 0 and 1, and leave the
    framework's state as it was.  A row with no score makes [topk] raise.
    A number of labels other than the number of rows makes
    [labels.view( *top_class.shape)] raise: the comparison never goes on to
    broadcast. *)
Theorem accuracy_lines_on_any_batch (probs : matrix) (labels : list Z) (w : world) :
  quiet w -> probs <> [] ->
  (Forall (fun row => row <> []) probs -> length probs = length labels ->
   exists a w',
     batch_accuracy probs labels w = Ok a w' /\
     st w' = st w /\
     (a == ratio (hits probs labels) (length probs))%Q /\
     (0 <= a <= 1)%Q) /\
  (Exists (fun row => row = []) probs ->
   exists w',
     batch_accuracy probs labels w = Raised (RuntimeError IndexOutOfRange) w' /\
     st w' = st w) /\
  (Forall (fun row => row <> []) probs -> length probs <> length labels ->
   exists w',
     batch_accuracy probs labels w = Raised (RuntimeError InvalidShape) w' /\
     st w' = st w).
Proof.
  intros Hq Hne. split; [|split].
  - intros Hrows Hlen. eexists. eexists.
    split; [apply batch_accuracy_quiet; assumption|].
    split; [reflexivity|].
    assert (Ha : (batch_fraction probs labels ==
                  ratio (hits probs labels) (length probs))%Q)
      by (apply batch_fraction_is_ratio; exact Hlen).
    split; [exact Ha|]. rewrite Ha. apply ratio_bounds.
    + apply hits_le.
    + destruct probs; [congruence|cbn [length]; lia].
  - intros Hempty. eexists. unfold batch_accuracy. cbv zeta.
    unfold bind at 1. unfold topk_1.
    rewrite (@lib_quiet_raise _ ETopk _ w (RuntimeError IndexOutOfRange) Hq).
    + split; reflexivity.
    + unfold topk1. rewrite (proj2 (existsb_empty_row probs) Hempty). reflexivity.
  - intros Hrows Hlen. eexists. unfold batch_accuracy. cbv zeta.
    run_with topk_1_quiet. cbn [snd shape].
    unfold bind at 1. unfold labels_view.
    rewrite (@lib_quiet_raise _ EView _ _ (RuntimeError InvalidShape)).
    + split; reflexivity.
    + eauto with quiet.
    + unfold view. cbn [shape numel fold_right].
      replace (length probs * (1 * 1) =? length labels * 1) with false;
        [reflexivity|].
      symmetry. apply Nat.eqb_neq. lia.
Qed.

(** *** The Part 3 loop, end to end *)

(** The state one pass of the exercise loop leaves: forward pass, backward
    pass, step, gradients cleared. *)
Definition after_part3_pass (b : batch) (t : torch) : torch :=
  after_zero_grad
    (after_step
       (after_backward (graph_of t (images_of b)) (labels_of b) (after_forward t))).

Definition after_part3_passes (bs : list batch) (t : torch) : torch :=
  fold_left (fun t b => after_part3_pass b t) bs t.

(** The loss of each batch, at the parameter values the passes before it
    have left. *)
Fixpoint batch_losses (bs : list batch) (t : torch) : list Q :=
  match bs with
  | [] => []
  | b :: r => loss_value b t :: batch_losses r (after_part3_pass b t)
  end.

Lemma length_batch_losses (bs : list batch) (t : torch) :
  length (batch_losses bs t) = length bs.
Proof.
  revert t. induction bs as [|b bs IH]; intros t; [reflexivity|].
  cbn [batch_losses length]. rewrite IH. reflexivity.
Qed.

Lemma ready_after_part3_pass (b : batch) (w : world) :
  ready w -> ready (world_after_part3_pass b w).
Proof.
  intros [Hq Hg]. unfold world_after_part3_pass. split; [eauto 10 with quiet|].
  cbn [st logged after_zero_grad after_step after_backward set_params
       set_ostate grad_enabled].
  rewrite grad_enabled_after_forward. exact Hg.
Qed.

Lemma printed_after_part3_pass (b : batch) (w : world) :
  printed (world_after_part3_pass b w) = printed w.
Proof.
  unfold world_after_part3_pass. rewrite !printed_logged.
  cbn [event_eqb]. rewrite !app_nil_r. reflexivity.
Qed.

Lemma updates_other_call (e : event) (c : nat) (t : torch) (x : option exn)
  (out : list Q) :
  event_eqb e EStep = false -> updates [mkEntry e c t x out] = [].
Proof.
  intros H. unfold updates. cbn [filter]. unfold step_succeeded. cbn [ev].
  rewrite H. reflexivity.
Qed.

Lemma part3_loop_quiet (batches : list batch) :
  forall (running_loss : Q) (w : world),
    ready w ->
    exists w',
      for_batches TrainLoader batches training_pass_part3 running_loss w =
      Ok (fold_left Qplus (batch_losses batches (st w)) running_loss) w' /\
      ready w' /\
      st w' = after_part3_passes batches (st w) /\
      printed w' = printed w /\
      length (updates (trace w')) = length (updates (trace w)) + length batches.
Proof.
  induction batches as [|b batches IH]; intros rl w Hw.
  - exists (loop_ended TrainLoader w).
    rewrite for_batches_nil_quiet by apply Hw.
    cbn [batch_losses fold_left length].
    split; [reflexivity|split; [|split; [reflexivity|split]]].
    + split; [apply quiet_loop_ended|]; apply Hw.
    + unfold loop_ended. rewrite printed_logged. apply app_nil_r.
    + unfold loop_ended. cbn [trace logged]. rewrite updates_app, length_app.
      rewrite updates_other_call by reflexivity. reflexivity.
  - set (w0 := logged (ENext TrainLoader) None [] (st w) w).
    assert (Hw0 : ready w0).
    { destruct Hw as [Hq Hg]. split; [unfold w0; eauto with quiet|exact Hg]. }
    pose proof (ready_after_part3_pass b Hw0) as Hw1.
    destruct (IH (rl + loss_value b (st w0))%Q _ Hw1)
      as (w' & Hrun & Hw' & Hst & Hpr & Hup).
    exists w'. rewrite for_batches_cons_quiet by apply Hw. fold w0.
    erewrite bind_Ok.
    2:{ apply training_pass_part3_quiet; apply Hw0. }
    split; [exact Hrun|split; [exact Hw'|split; [exact Hst|split]]].
    + rewrite Hpr, printed_after_part3_pass. unfold w0.
      rewrite printed_logged. apply app_nil_r.
    + rewrite Hup, updates_part3_pass, length_app. unfold w0.
      cbn [trace logged]. rewrite updates_app, length_app.
      rewrite updates_other_call by reflexivity.
      cbn [length]. lia.
Qed.

Lemma fold_left_Qplus (l : list Q) (a : Q) :
  (fold_left Qplus l a == a + Qsum l)%Q.
Proof.
  revert a. induction l as [|x l IH]; intros a; cbn [fold_left Qsum fold_right].
  - rewrite Qplus_0_r. reflexivity.
  - rewrite IH. fold (Qsum l). rewrite Qplus_assoc. reflexivity.
Qed.

Lemma clear_after_part3_passes (batches : list batch) (t : torch) :
  batches <> [] -> Forall clear (params (after_part3_passes batches t)).
Proof.
  revert t. induction batches as [|b batches IH]; intros t Hne; [congruence|].
  unfold after_part3_passes. cbn [fold_left].
  destruct batches as [|b' batches].
  - cbn [fold_left]. unfold after_part3_pass, after_zero_grad.
    cbn [params set_params]. apply zero_param_clear.
  - apply IH. discriminate.
Qed.

Section Epochs.
Hypothesis shuffle_perm : forall seed l, Permutation (shuffle seed l) l.

(** [len(trainloader)] *)
Definition batches_per_epoch : nat :=
  (length trainset + Loader.batch_size - 1) / Loader.batch_size.

Lemma length_iterate_trainset (seed : nat) :
  length (Loader.iterate shuffle seed trainset) = batches_per_epoch.
Proof.
  unfold Loader.iterate, batches_per_epoch.
  rewrite (Loader.chunks_length _ Loader.batch_size_pos).
  rewrite (Loader.shuffle_length shuffle shuffle_perm). reflexivity.
Qed.

Lemma epoch_part3_quiet (e : nat) (w : world) :
  ready w -> trainset <> [] ->
  let batches := Loader.iterate shuffle (rng (st w)) trainset in
  let t0 := next_rng (st w) in
  exists w',
    epoch_part3 e tt w = Ok tt w' /\
    ready w' /\
    st w' = after_part3_passes batches t0 /\
    printed w' =
      printed w ++
      [[(fold_left Qplus (batch_losses batches t0) 0 /
         inject_Z (Z.of_nat (length batches)))%Q]] /\
    length (updates (trace w')) = length (updates (trace w)) + length batches.
Proof.
  intros Hw Hne batches t0.
  set (w0 := logged (EIter TrainLoader) None [] t0 w).
  assert (Hw0 : ready w0).
  { destruct Hw as [Hq Hg]. split; [unfold w0; eauto with quiet|exact Hg]. }
  destruct (part3_loop_quiet batches 0%Q Hw0) as (w1 & Hrun & Hw1 & Hst & Hpr & Hup).
  assert (Hlen : length batches = batches_per_epoch)
    by apply length_iterate_trainset.
  assert (Hnb : batches_per_epoch <> 0).
  { rewrite <- Hlen.
    pose proof (Loader.iterate_nonempty shuffle shuffle_perm (rng (st w)) Hne) as H.
    fold batches in H. destruct batches; [congruence|discriminate]. }
  destruct Hw as [Hq Hg]. destruct Hw1 as [Hq1 Hg1].
  eexists. unfold epoch_part3, for_loader. cbv zeta. rewrite bind_assoc.
  run_with iter_quiet. cbn [dataset]. fold batches t0 w0.
  erewrite bind_Ok; [|exact Hrun].
  run_with len_quiet. cbn [dataset]. fold batches_per_epoch.
  run_with py_div_quiet.
  rewrite print_quiet by eauto with quiet.
  split; [reflexivity|]. split; [split; [eauto 10 with quiet|exact Hg1]|].
  split; [exact Hst|split].
  - rewrite !printed_logged. cbn [event_eqb]. rewrite !app_nil_r, Hpr.
    unfold w0. rewrite printed_logged. cbn [event_eqb]. rewrite app_nil_r.
    cbn [st logged]. rewrite Hlen. reflexivity.
  - cbn [trace logged]. rewrite !updates_app, !length_app. cbn [length].
    rewrite Hup. unfold w0. cbn [trace logged].
    rewrite updates_app, length_app.
    rewrite !updates_other_call by reflexivity.
    cbn [length]. unfold batch in *. lia.
Qed.

(** An epoch of the Part 3 exercise loop, when no call fails and the
    training set is not empty: the one number it prints is the mean of the
    losses of its batches, each taken at the parameter values left by the
    passes before it; and it leaves the model as the passes over the
    batches, one after the other in the order the loader drew, leave it. *)
Theorem epoch_prints_mean_batch_loss (e : nat) (w : world) :
  quiet w -> grad_enabled (st w) = true -> trainset <> [] ->
  let batches := Loader.iterate shuffle (rng (st w)) trainset in
  let t0 := next_rng (st w) in
  exists p w',
    epoch_part3 e tt w = Ok tt w' /\
    printed w' = printed w ++ [[p]] /\
    (p == Qsum (batch_losses batches t0) / inject_Z (Z.of_nat (length batches)))%Q /\
    length (batch_losses batches t0) = length batches /\
    st w' = after_part3_passes batches t0.
Proof.
  intros Hq Hg Hne batches t0.
  destruct (@epoch_part3_quiet e w (conj Hq Hg) Hne)
    as (w' & Hrun & _ & Hst & Hpr & _).
  eexists. exists w'. split; [exact Hrun|split; [exact Hpr|split; [|split]]].
  - fold batches t0. rewrite fold_left_Qplus, Qplus_0_l. reflexivity.
  - apply length_batch_losses.
  - exact Hst.
Qed.

Lemma train_part3_quiet (k : nat) :
  trainset <> [] ->
  forall (s : nat) (w : world),
    ready w ->
    exists w',
      for_each (seq s k) epoch_part3 tt w = Ok tt w' /\
      ready w' /\
      length (printed w') = length (printed w) + k /\
      length (updates (trace w')) =
        length (updates (trace w)) + k * batches_per_epoch /\
      (0 < k -> Forall clear (params (st w'))).
Proof.
  intros Hne. induction k as [|k IH]; intros s w Hw.
  - exists w. cbn [seq for_each]. repeat split; try apply Hw; lia.
  - destruct (@epoch_part3_quiet s w Hw Hne) as (w1 & Hrun & Hw1 & Hst & Hpr & Hup).
    destruct (IH (S s) w1 Hw1) as (w' & Hrun' & Hw' & Hpr' & Hup' & Hcl).
    exists w'. cbn [seq for_each].
    erewrite bind_Ok; [|exact Hrun].
    split; [exact Hrun'|split; [exact Hw'|split; [|split]]].
    + rewrite Hpr', Hpr, length_app. cbn [length]. lia.
    + rewrite Hup', Hup, length_iterate_trainset. cbn [Nat.mul]. lia.
    + intros _. destruct k as [|k].
      * cbn [seq for_each] in Hrun'. injection Hrun' as <-.
        rewrite Hst. apply clear_after_part3_passes.
        apply (Loader.iterate_nonempty shuffle shuffle_perm). exact Hne.
      * apply Hcl. lia.
Qed.

(** The whole Part 3 exercise cell, for any number of epochs, when no call
    fails and the training set is not empty: it returns, having printed one
    training loss per epoch and taken one optimizer step per batch, that is
    [len(trainloader)] steps per epoch, the size of the training set divided
    by 64 and rounded up; and it leaves every gradient cleared. *)
Theorem training_cell_steps_once_per_batch (epochs : nat) (w : world) :
  quiet w -> grad_enabled (st w) = true -> trainset <> [] ->
  exists w',
    train_part3 epochs w = Ok tt w' /\
    length (printed w') = length (printed w) + epochs /\
    length (updates (trace w')) =
      length (updates (trace w)) +
      epochs * ((length trainset + 63) / 64) /\
    (0 < epochs -> Forall clear (params (st w'))).
Proof.
  intros Hq Hg Hne.
  destruct (@train_part3_quiet epochs Hne 0 w (conj Hq Hg))
    as (w' & Hrun & _ & Hpr & Hup & Hcl).
  exists w'. split; [exact Hrun|split; [exact Hpr|split; [|exact Hcl]]].
  rewrite Hup. unfold batches_per_epoch, Loader.batch_size.
  replace (length trainset + 64 - 1) with (length trainset + 63) by lia.
  reflexivity.
Qed.

End Epochs.

(** *** The gradients at every backward pass and step of the Part 5 loops *)

Definition ordered (w : world) : Prop := Forall gradients_in_order (trace w).

(** At the head of a loop of Part 5: nothing is asked of the gradients the
    parameters hold. *)
Definition at_part5_head (w : world) : Prop :=
  grad_enabled (st w) = true /\ ordered w.

Ltac close_order :=
  unfold at_part5_head, ordered, no_grad_exit in *;
  cbn [trace logged noted st] in *;
  repeat (apply Forall_snoc;
          [|first [ apply gradients_in_order_backward; assumption
                  | apply gradients_in_order_step; assumption
                  | apply gradients_in_order_other; discriminate ]]);
  assumption.

Ltac order_call :=
  apply bind_call_cases;
  [ intros ?; cbn [outcome]; close_order
  | let a := fresh "a" in let t := fresh "t" in let Hf := fresh "Hf" in
    intros a t Hf; cbn [st logged noted] in Hf ].

Ltac order_last_call :=
  apply call_cases;
  [ intros ?; cbn [outcome]; close_order
  | let a := fresh "a" in let t := fresh "t" in let Hf := fresh "Hf" in
    intros a t Hf; cbn [st logged noted] in Hf ].

Ltac lifted Hf :=
  unfold lift in Hf;
  match type of Hf with
  | context [match ?r with inl _ => _ | inr _ => _ end] => destruct r
  end; [discriminate Hf|injection Hf as <- <-].

Lemma batch_accuracy_keeps_order (probs : matrix) (labels : list Z) (w : world) :
  at_part5_head w ->
  outcome at_part5_head ordered (batch_accuracy probs labels w).
Proof.
  intros [Hg Htr]. unfold batch_accuracy. cbv zeta.
  unfold topk_1, labels_view, tensor_eq, float_type, torch_mean, lib.
  order_call. lifted Hf.
  order_call. lifted Hf.
  order_call. lifted Hf.
  order_call. injection Hf as <- <-.
  order_last_call. injection Hf as <- <-.
  cbn [outcome]. split; [exact Hg|close_order].
Qed.

Lemma training_steps_keep_order (b : batch) (w : world) (B : Type)
  (k : loss_t -> output -> M B) :
  0 < length b <= Loader.batch_size ->
  at_part5_head w ->
  (forall loss out w', at_part5_head w' -> outcome at_part5_head ordered (k loss out w')) ->
  outcome at_part5_head ordered
    ((optimizer_zero_grad ;;
      out <- model_call (images_of b) ;;
      loss <- criterion out (labels_of b) ;;
      backward loss ;;
      optimizer_step ;;
      k loss out) w).
Proof.
  intros Hb [Hg Htr] Hk.
  set (t1 := after_zero_grad (st w)).
  assert (Hc1 : Forall clear (params (after_forward t1))).
  { rewrite params_after_forward. unfold t1, after_zero_grad.
    cbn [params set_params]. apply zero_param_clear. }
  set (g := graph_of t1 (images_of b)).
  assert (Hob : one_batch_gradient (after_backward g (labels_of b) (after_forward t1))).
  { exists b, (current_mode t1). split; [exact Hb|].
    rewrite params_after_backward_clear by exact Hc1.
    rewrite data_with_gradient, params_after_forward. reflexivity. }
  unfold optimizer_zero_grad, model_call, criterion, backward, optimizer_step, lib.
  order_call. injection Hf as <- <-. fold t1.
  order_call.
  replace (grad_enabled t1) with true in Hf by (symmetry; exact Hg).
  injection Hf as <- <-. fold g.
  order_call. cbn [o_rows o_graph option_map] in Hf.
  destruct (_ =? _) in Hf; [|discriminate Hf]. injection Hf as <- <-.
  order_call. cbn [l_graph] in Hf. injection Hf as <- <-.
  order_call. injection Hf as <- <-.
  apply Hk. split.
  - cbn [st logged after_step after_backward set_params set_ostate grad_enabled].
    rewrite grad_enabled_after_forward. exact Hg.
  - close_order.
Qed.

Lemma training_pass_cell13_keeps_order (b : batch) (rl : Q) (w : world) :
  0 < length b <= Loader.batch_size ->
  at_part5_head w ->
  outcome at_part5_head ordered (training_pass_cell13 b rl w).
Proof.
  intros Hb Hw. unfold training_pass_cell13. cbv zeta.
  apply (@training_steps_keep_order b w Q
           (fun loss _ => x <- item loss ;; ret (rl + x)%Q) Hb Hw).
  intros loss out w' [Hg Htr]. unfold item, lib.
  order_call. injection Hf as <- <-.
  unfold ret. cbn [outcome]. split; [exact Hg|close_order].
Qed.

Lemma training_pass_cell17_keeps_order (b : batch) (acc : option Q) (w : world) :
  0 < length b <= Loader.batch_size ->
  at_part5_head w ->
  outcome at_part5_head ordered (training_pass_cell17 b acc w).
Proof.
  intros Hb Hw. unfold training_pass_cell17. cbv zeta.
  apply (@training_steps_keep_order b w (option Q)
           (fun _ preds =>
              probs <- torch_exp preds ;;
              a <- batch_accuracy probs (labels_of b) ;;
              ret (add_tensor acc a)) Hb Hw).
  intros loss out w' [Hg Htr]. unfold torch_exp, lib.
  order_call. injection Hf as <- <-.
  apply outcome_bind with (I1 := at_part5_head).
  - apply batch_accuracy_keeps_order. split; [exact Hg|close_order].
  - intros a1 w1 Hw1. exact Hw1.
Qed.

Lemma validation_pass_cell13_keeps_order (b : batch) (acc : list Q) (w : world) :
  at_part5_head w ->
  outcome at_part5_head ordered (validation_pass_cell13 b acc w).
Proof.
  intros [Hg Htr]. unfold validation_pass_cell13. cbv zeta.
  apply outcome_bind with (I1 := at_part5_head).
  - apply outcome_no_grad. unfold model_call, torch_exp, lib.
    order_call. injection Hf as <- <-.
    order_last_call. injection Hf as <- <-.
    cbn [outcome]. split.
    + unfold no_grad_exit. cbn [st noted set_grad_enabled grad_enabled]. exact Hg.
    + close_order.
  - intros probs w1 Hw1.
    apply outcome_bind with (I1 := at_part5_head).
    + apply batch_accuracy_keeps_order. exact Hw1.
    + intros a w2 Hw2. exact Hw2.
Qed.

Lemma test_pass_cell17_keeps_order (b : batch) (acc : option Q) (w : world) :
  at_part5_head w ->
  outcome at_part5_head ordered (test_pass_cell17 b acc w).
Proof.
  intros [Hg Htr]. unfold test_pass_cell17. cbv zeta.
  apply outcome_bind with (I1 := at_part5_head).
  - apply outcome_no_grad. unfold model_eval, model_call, criterion, lib.
    order_call. injection Hf as <- <-.
    order_call. injection Hf as <- <-.
    order_call. destruct (_ =? _) in Hf; [|discriminate Hf]. injection Hf as <- <-.
    unfold ret. cbn [outcome]. split.
    + unfold no_grad_exit. cbn [st noted set_grad_enabled grad_enabled]. exact Hg.
    + close_order.
  - intros preds w1 [Hg1 Htr1]. unfold torch_exp, lib.
    order_call. injection Hf as <- <-.
    apply outcome_bind with (I1 := at_part5_head).
    + apply batch_accuracy_keeps_order. split; [exact Hg1|close_order].
    + intros a w2 [Hg2 Htr2]. unfold model_train, lib.
      order_call. injection Hf as <- <-.
      unfold ret. cbn [outcome]. split; [exact Hg2|close_order].
Qed.

Lemma for_loader_keeps_order {B : Type} (l : loader) (body : batch -> B -> M B)
  (acc : B) (w : world) :
  (forall b acc w, 0 < length b <= Loader.batch_size -> at_part5_head w ->
     outcome at_part5_head ordered (body b acc w)) ->
  at_part5_head w ->
  outcome at_part5_head ordered (for_loader l body acc w).
Proof.
  intros Hbody [Hg Htr]. unfold for_loader, iter_, lib.
  order_call. injection Hf as <- <-.
  apply outcome_for_batches
    with (P := fun b : batch => 0 < length b <= Loader.batch_size).
  - intros w1 x [Hg1 Htr1]. split; [exact Hg1|close_order].
  - intros w1 x [Hg1 Htr1]. close_order.
  - exact Hbody.
  - apply Loader.iterate_bounds.
  - split; [exact Hg|close_order].
Qed.

(** In the loops of Part 5 the gradients are cleared at the head of each
    iteration, so nothing has to be known of the gradients the model
    arrives with.  In every run of the [Classifier] cell and of the
    [Classifier2] cell, from any state of the model in which gradients are
    recorded and whatever fails on the way: at every call of
    [loss.backward()] every parameter gradient is unset or zero, and at
    every call of [optimizer.step()] every parameter holds the gradient of
    the loss of exactly one batch of at most 64 examples. *)
Theorem part5_backward_always_on_clear_gradients (t : torch) (f : nat -> option exn) :
  grad_enabled t = true ->
  Forall gradients_in_order (trace (final_world (cell13 (mkWorld t 0 [] f)))) /\
  Forall gradients_in_order (trace (final_world (cell17 (mkWorld t 0 [] f)))).
Proof.
  intros Hg.
  assert (Hw : at_part5_head (mkWorld t 0 [] f)) by (split; [exact Hg|constructor]).
  assert (Hfin : forall (A : Type) (r : result A),
             outcome at_part5_head ordered r -> ordered (final_world r)).
  { intros A [a w'|x w'] H; cbn [outcome final_world] in *; [apply H|exact H]. }
  split; apply Hfin.
  - unfold cell13. apply outcome_for_each with (P := fun _ : nat => True);
      [|apply Forall_forall; intros; exact I|exact Hw].
    intros e [] w _ Hw1. unfold epoch_cell13.
    apply outcome_bind with (I1 := at_part5_head).
    + apply for_loader_keeps_order; [|exact Hw1].
      intros b acc w2 Hb Hw2. apply training_pass_cell13_keeps_order; assumption.
    + intros rl w2 Hw2. unfold validation_cell13.
      apply outcome_bind with (I1 := at_part5_head).
      * apply for_loader_keeps_order; [|exact Hw2].
        intros b acc w3 _ Hw3. apply validation_pass_cell13_keeps_order. exact Hw3.
      * intros acc w3 [Hg3 Htr3]. unfold py_div, print, lib.
        order_call.
        match type of Hf with
        | context [match ?n with 0 => _ | S _ => _ end] => destruct n
        end; [discriminate Hf|]. injection Hf as <- <-.
        order_last_call. injection Hf as <- <-.
        cbn [outcome]. split; [exact Hg3|close_order].
  - unfold cell17. apply outcome_for_each with (P := fun _ : nat => True);
      [|apply Forall_forall; intros; exact I|exact Hw].
    intros e lists w _ Hw1. unfold epoch_cell17.
    apply outcome_bind with (I1 := at_part5_head).
    + apply for_loader_keeps_order; [|exact Hw1].
      intros b acc w2 Hb Hw2. apply training_pass_cell17_keeps_order; assumption.
    + intros train_acc w2 [Hg2 Htr2]. unfold numpy_, len_, lib.
      order_call. destruct train_acc; [|discriminate Hf]. injection Hf as <- <-.
      order_call. injection Hf as <- <-.
      apply outcome_bind with (I1 := at_part5_head).
      * unfold test_cell17.
        apply outcome_bind with (I1 := at_part5_head).
        -- apply for_loader_keeps_order; [|split; [exact Hg2|close_order]].
           intros b acc w3 _ Hw3. apply test_pass_cell17_keeps_order. exact Hw3.
        -- intros test_acc w3 [Hg3 Htr3]. unfold numpy_, len_, lib.
           order_call. destruct test_acc; [|discriminate Hf]. injection Hf as <- <-.
           order_call. injection Hf as <- <-.
           unfold ret. cbn [outcome]. split; [exact Hg3|close_order].
      * intros test_acc w3 [Hg3 Htr3]. unfold print.
        order_call. injection Hf as <- <-.
        unfold ret. cbn [outcome]. split; [exact Hg3|close_order].
Qed.

(** *** An epoch of each Part 5 cell, end to end *)

(** The state one pass of a training loop of Part 5 leaves: gradients
    cleared, forward pass, backward pass, step. *)
Definition after_part5_pass (b : batch) (t : torch) : torch :=
  let t1 := after_zero_grad t in
  after_step
    (after_backward (graph_of t1 (images_of b)) (labels_of b) (after_forward t1)).

Definition after_part5_passes (bs : list batch) (t : torch) : torch :=
  fold_left (fun t b => after_part5_pass b t) bs t.

(** The accuracy of each training batch as the [Classifier2] cell takes it:
    from the output of the forward pass of the training step, so in the
    mode the model is in and at the parameter values before the step. *)
Fixpoint train_accuracies (bs : list batch) (t : torch) : list Q :=
  match bs with
  | [] => []
  | b :: r =>
      accuracy_at (map data (params t)) (current_mode t) b ::
      train_accuracies r (after_part5_pass b t)
  end.

Section Part5Epochs.
Hypothesis net_classes : forall p md x, net p md x <> [].
Hypothesis shuffle_perm : forall seed l, Permutation (shuffle seed l) l.

Lemma ready_after_cell13_training_pass (b : batch) (w : world) :
  ready w -> ready (world_after_cell13_training_pass b w).
Proof.
  intros [Hq Hg]. unfold world_after_cell13_training_pass.
  split; [eauto 10 with quiet|].
  cbn [st logged after_step after_backward set_params set_ostate grad_enabled].
  rewrite grad_enabled_after_forward. exact Hg.
Qed.

Lemma ready_after_cell17_training_pass (b : batch) (w : world) :
  ready w -> ready (world_after_cell17_training_pass b w).
Proof.
  intros [Hq Hg]. unfold world_after_cell17_training_pass, world_after_batch_accuracy.
  split; [eauto 15 with quiet|].
  cbn [st logged after_step after_backward set_params set_ostate grad_enabled].
  rewrite grad_enabled_after_forward. exact Hg.
Qed.

Lemma cell13_training_loop_quiet (batches : list batch) :
  forall (running_loss : Q) (w : world),
    ready w ->
    exists x w',
      for_batches TrainLoader batches training_pass_cell13 running_loss w =
        Ok x w' /\
      ready w' /\
      st w' = after_part5_passes batches (st w) /\
      printed w' = printed w.
Proof.
  induction batches as [|b batches IH]; intros rl w Hw.
  - exists rl, (loop_ended TrainLoader w).
    rewrite for_batches_nil_quiet by apply Hw.
    split; [reflexivity|split; [|split; [reflexivity|]]].
    + split; [apply quiet_loop_ended|]; apply Hw.
    + unfold loop_ended. rewrite printed_logged. apply app_nil_r.
  - set (w0 := logged (ENext TrainLoader) None [] (st w) w).
    assert (Hw0 : ready w0).
    { destruct Hw as [Hq Hg]. split; [unfold w0; eauto with quiet|exact Hg]. }
    pose proof (ready_after_cell13_training_pass b Hw0) as Hw1.
    destruct (IH (rl + loss_value b (after_zero_grad (st w0)))%Q _ Hw1)
      as (x & w' & Hrun & Hw' & Hst & Hpr).
    exists x, w'. rewrite for_batches_cons_quiet by apply Hw. fold w0.
    erewrite bind_Ok.
    2:{ apply training_pass_cell13_quiet; apply Hw0. }
    split; [exact Hrun|split; [exact Hw'|split; [exact Hst|]]].
    rewrite Hpr. unfold world_after_cell13_training_pass, w0.
    rewrite !printed_logged. cbn [event_eqb]. rewrite !app_nil_r. reflexivity.
Qed.

Lemma cell17_training_loop_quiet (batches : list batch) :
  forall (train_acc : option Q) (w : world),
    ready w ->
    exists w',
      for_batches TrainLoader batches training_pass_cell17 train_acc w =
      Ok (fold_left add_tensor (train_accuracies batches (st w)) train_acc) w' /\
      ready w' /\
      st w' = after_part5_passes batches (st w) /\
      printed w' = printed w.
Proof.
  induction batches as [|b batches IH]; intros acc w Hw.
  - exists (loop_ended TrainLoader w).
    rewrite for_batches_nil_quiet by apply Hw. cbn [train_accuracies fold_left].
    split; [reflexivity|split; [|split; [reflexivity|]]].
    + split; [apply quiet_loop_ended|]; apply Hw.
    + unfold loop_ended. rewrite printed_logged. apply app_nil_r.
  - set (w0 := logged (ENext TrainLoader) None [] (st w) w).
    assert (Hw0 : ready w0).
    { destruct Hw as [Hq Hg]. split; [unfold w0; eauto with quiet|exact Hg]. }
    pose proof (ready_after_cell17_training_pass b Hw0) as Hw1.
    destruct (IH (add_tensor acc
                    (accuracy_at (map data (params (st w))) (current_mode (st w)) b))
                 _ Hw1)
      as (w' & Hrun & Hw' & Hst & Hpr).
    exists w'. rewrite for_batches_cons_quiet by apply Hw. fold w0.
    erewrite bind_Ok.
    2:{ apply (training_pass_cell17_quiet net_classes); apply Hw0. }
    rewrite batch_accuracy_value_at.
    unfold after_zero_grad at 1. cbn [params set_params].
    rewrite data_zero_param.
    split; [exact Hrun|split; [exact Hw'|split; [exact Hst|]]].
    rewrite Hpr. unfold world_after_cell17_training_pass, world_after_batch_accuracy, w0.
    rewrite !printed_logged. cbn [event_eqb]. rewrite !app_nil_r. reflexivity.
Qed.

(** An epoch of the [Classifier] cell, when no call fails: the accuracy it
    prints is taken on the parameter values its own training loop has just
    left, the passes over the training batches having run one after the
    other, and is the mean over the test batches of the fraction of each
    batch classified correctly. *)
Theorem validation_sees_the_weights_after_training (e : nat) (w : world) :
  mode_independent -> quiet w -> grad_enabled (st w) = true -> testset <> [] ->
  let t1 := after_part5_passes (Loader.iterate shuffle (rng (st w)) trainset)
              (next_rng (st w)) in
  exists a w',
    epoch_cell13 e tt w = Ok tt w' /\
    printed w' = printed w ++ [[(a * 100)%Q]] /\
    (a == mean_of_batch_fractions (map data (params t1)) Eval
            (Loader.iterate shuffle (rng t1) testset))%Q.
Proof.
  intros Hplain Hq Hg Hne t1.
  set (w0 := logged (EIter TrainLoader) None [] (next_rng (st w)) w).
  assert (Hw0 : ready w0) by (split; [unfold w0; eauto with quiet|exact Hg]).
  destruct (cell13_training_loop_quiet
              (Loader.iterate shuffle (rng (st w)) trainset) 0%Q Hw0)
    as (x & w1 & Hrun & [Hq1 Hg1] & Hst & Hpr).
  change (st w0) with (next_rng (st w)) in Hst. fold t1 in Hst.
  destruct (@validation_cell13_quiet net_classes shuffle_perm w1 Hplain Hq1 Hne)
    as (w' & Hrun' & Hpr').
  eexists. exists w'. unfold epoch_cell13, for_loader. rewrite bind_assoc.
  run_with iter_quiet. cbn [dataset]. fold w0.
  erewrite bind_Ok; [|exact Hrun].
  split; [exact Hrun'|split].
  - rewrite Hpr', Hpr. unfold w0. rewrite printed_logged. cbn [event_eqb].
    rewrite app_nil_r. reflexivity.
  - rewrite Hst. unfold mean_of_batch_fractions.
    rewrite Qsum_accuracy_at. reflexivity.
Qed.

Lemma test_cell17_run (w : world) :
  quiet w -> testset <> [] ->
  exists a w',
    test_cell17 w = Ok a w' /\
    quiet w' /\
    printed w' = printed w /\
    (a == mean_of_batch_fractions (map data (params (st w))) Eval
            (Loader.iterate shuffle (rng (st w)) testset))%Q.
Proof.
  intros Hq Hne.
  set (batches := Loader.iterate shuffle (rng (st w)) testset).
  set (w0 := logged (EIter TestLoader) None [] (next_rng (st w)) w).
  assert (Hq0 : quiet w0) by (unfold w0; eauto with quiet).
  destruct (@test_loop_cell17 net_classes batches None w0 Hq0)
    as (w1 & Hrun & Hq1 & Hp1 & Hpr1).
  assert (Hnb : batches <> [])
    by (apply (Loader.iterate_nonempty shuffle shuffle_perm); exact Hne).
  destruct (@fold_add_tensor_none
              (map (accuracy_at (map data (params (st w0))) Eval) batches))
    as (y & Hy & Hsum).
  { destruct batches; [congruence|discriminate]. }
  rewrite Hy in Hrun.
  eexists. eexists. unfold test_cell17, for_loader. rewrite bind_assoc.
  run_with iter_quiet. cbn [dataset]. fold batches w0.
  erewrite bind_Ok; [|exact Hrun].
  run_with numpy_quiet.
  run_with len_quiet.
  split; [reflexivity|split; [eauto 10 with quiet|split]].
  - rewrite !printed_logged. cbn [event_eqb]. rewrite !app_nil_r, Hpr1.
    unfold w0. rewrite printed_logged. cbn [event_eqb]. apply app_nil_r.
  - unfold mean_of_batch_fractions. cbn [dataset].
    rewrite Hsum. subst w0. cbn [st logged next_rng params].
    rewrite Qsum_accuracy_at.
    replace ((length testset + Loader.batch_size - 1) / Loader.batch_size)
      with (length batches).
    + reflexivity.
    + unfold batches, Loader.iterate.
      rewrite (Loader.chunks_length _ Loader.batch_size_pos).
      rewrite (Loader.shuffle_length shuffle shuffle_perm). reflexivity.
Qed.

Lemma length_train_accuracies (bs : list batch) (t : torch) :
  length (train_accuracies bs t) = length bs.
Proof.
  revert t. induction bs as [|b bs IH]; intros t; [reflexivity|].
  cbn [train_accuracies length]. rewrite IH. reflexivity.
Qed.

(** An epoch of the [Classifier2] cell, when no call fails: what its report
    line holds.  The training accuracy is the mean over the training batches
    of the accuracy of each batch on the output of its own training step, so
    measured in the mode the model is in (with dropout, in training mode)
    and on the parameter values before that step.  The test accuracy is
    measured in evaluation mode on the parameter values the training loop of
    the epoch has left. *)
Theorem epoch_report_of_the_dropout_cell (e : nat) (lists : list Q * list Q) (w : world) :
  quiet w -> grad_enabled (st w) = true -> trainset <> [] -> testset <> [] ->
  let batches := Loader.iterate shuffle (rng (st w)) trainset in
  let t0 := next_rng (st w) in
  let t1 := after_part5_passes batches t0 in
  exists train_acc test_acc w',
    epoch_cell17 e lists w =
      Ok (fst lists ++ [train_acc], snd lists ++ [test_acc]) w' /\
    printed w' = printed w ++ [[inject_Z (Z.of_nat e); train_acc; test_acc]] /\
    (train_acc ==
       Qsum (train_accuracies batches t0) / inject_Z (Z.of_nat (length batches)))%Q /\
    (test_acc ==
       mean_of_batch_fractions (map data (params t1)) Eval
         (Loader.iterate shuffle (rng t1) testset))%Q.
Proof.
  intros Hq Hg Hne Hnt batches t0 t1.
  set (w0 := logged (EIter TrainLoader) None [] t0 w).
  assert (Hw0 : ready w0) by (split; [unfold w0; eauto with quiet|exact Hg]).
  destruct (cell17_training_loop_quiet batches None Hw0)
    as (w1 & Hrun & [Hq1 Hg1] & Hst & Hpr).
  change (st w0) with t0 in Hrun, Hst. fold t1 in Hst.
  assert (Hnb : batches <> [])
    by (apply (Loader.iterate_nonempty shuffle shuffle_perm); exact Hne).
  destruct (@fold_add_tensor_none (train_accuracies batches t0))
    as (y & Hy & Hsum).
  { rewrite <- length_zero_iff_nil, length_train_accuracies, length_zero_iff_nil.
    exact Hnb. }
  rewrite Hy in Hrun.
  set (w2 := logged ELen None [] (st w1) (logged ENumpy None [] (st w1) w1)).
  assert (Hq2 : quiet w2) by (unfold w2; eauto with quiet).
  destruct (@test_cell17_run w2 Hq2 Hnt) as (a & w3 & Hrun3 & Hq3 & Hpr3 & Ha).
  change (st w2) with (st w1) in Ha. rewrite Hst in Ha.
  eexists. exists a. eexists. unfold epoch_cell17, for_loader. rewrite bind_assoc.
  run_with iter_quiet. cbn [dataset]. fold batches t0 w0.
  erewrite bind_Ok; [|exact Hrun].
  run_with numpy_quiet.
  run_with len_quiet. fold w2.
  erewrite bind_Ok; [|exact Hrun3].
  run_with print_quiet.
  split; [reflexivity|split; [|split; [|exact Ha]]].
  - rewrite printed_logged. cbn [event_eqb]. rewrite Hpr3. unfold w2.
    rewrite !printed_logged. cbn [event_eqb]. rewrite !app_nil_r, Hpr.
    unfold w0. rewrite printed_logged. cbn [event_eqb]. rewrite app_nil_r.
    reflexivity.
  - cbn [dataset]. rewrite Hsum.
    replace ((length trainset + Loader.batch_size - 1) / Loader.batch_size)
      with (length batches); [reflexivity|].
    unfold batches, Loader.iterate.
    rewrite (Loader.chunks_length _ Loader.batch_size_pos).
    rewrite (Loader.shuffle_length shuffle shuffle_perm). reflexivity.
Qed.

(** *** The two cells of Part 5, from the first epoch to the last *)

Definition valid_fraction (a : Q) : Prop := (0 <= a <= 1)%Q.

Lemma fraction_correct_valid (values : list Q) (md : mode) (b : batch) :
  b <> [] -> valid_fraction (fraction_correct values md b).
Proof.
  intros Hb. unfold valid_fraction, fraction_correct. apply ratio_bounds.
  - unfold n_correct. apply filter_length_le.
  - destruct b; [congruence|cbn [length]; lia].
Qed.

Lemma accuracy_at_valid (values : list Q) (md : mode) (b : batch) :
  b <> [] -> valid_fraction (accuracy_at values md b).
Proof.
  intros Hb. unfold valid_fraction. rewrite accuracy_at_fraction.
  apply fraction_correct_valid. exact Hb.
Qed.

Lemma Qsum_valid (l : list Q) :
  Forall valid_fraction l ->
  (0 <= Qsum l <= inject_Z (Z.of_nat (length l)))%Q.
Proof.
  induction 1 as [|a l [Ha0 Ha1] _ [IH0 IH1]].
  - cbn. split; apply Qle_refl.
  - cbn [Qsum fold_right length]. fold (Qsum l). split.
    + rewrite <- (Qplus_0_l 0). apply Qplus_le_compat; assumption.
    + rewrite Nat2Z.inj_succ, <- Z.add_1_l, inject_Z_plus.
      apply Qplus_le_compat; assumption.
Qed.

Lemma mean_valid (l : list Q) :
  l <> [] -> Forall valid_fraction l ->
  valid_fraction (Qsum l / inject_Z (Z.of_nat (length l)))%Q.
Proof.
  intros Hne Hl. destruct (Qsum_valid Hl) as [H0 H1].
  assert (Hpos : (0 < inject_Z (Z.of_nat (length l)))%Q).
  { unfold Qlt. cbn. destruct l; [congruence|cbn [length]; lia]. }
  split.
  - apply Qle_shift_div_l; [exact Hpos|]. rewrite Qmult_0_l. exact H0.
  - apply Qle_shift_div_r; [exact Hpos|]. rewrite Qmult_1_l. exact H1.
Qed.

Lemma batches_nonempty (seed : nat) (dataset : list sample) :
  Forall (fun b : batch => b <> []) (Loader.iterate shuffle seed dataset).
Proof.
  pose proof (Loader.iterate_bounds shuffle seed dataset) as H.
  rewrite Forall_forall in *. intros b Hb. specialize (H b Hb).
  destruct b; [cbn in H; lia|discriminate].
Qed.

Lemma mean_of_batch_fractions_valid (values : list Q) (md : mode) (seed : nat)
  (dataset : list sample) :
  dataset <> [] ->
  valid_fraction
    (mean_of_batch_fractions values md (Loader.iterate shuffle seed dataset)).
Proof.
  intros Hne. unfold mean_of_batch_fractions.
  rewrite <- (length_map (fraction_correct values md)).
  apply mean_valid.
  - pose proof (Loader.iterate_nonempty shuffle shuffle_perm seed Hne) as H.
    destruct (Loader.iterate shuffle seed dataset); [congruence|discriminate].
  - pose proof (batches_nonempty seed dataset) as H.
    apply Forall_forall. intros a Ha. apply in_map_iff in Ha.
    destruct Ha as [b [<- Hb]]. apply fraction_correct_valid.
    rewrite Forall_forall in H. apply H. exact Hb.
Qed.

Lemma train_accuracies_valid (bs : list batch) (t : torch) :
  Forall (fun b : batch => b <> []) bs ->
  Forall valid_fraction (train_accuracies bs t).
Proof.
  intros H. revert t. induction H as [|b bs Hb _ IH]; intros t; [constructor|].
  cbn [train_accuracies]. constructor; [|apply IH].
  apply accuracy_at_valid. exact Hb.
Qed.

Lemma valid_fraction_Qeq (a b : Q) : (a == b)%Q -> valid_fraction b -> valid_fraction a.
Proof. intros H [H0 H1]. unfold valid_fraction. rewrite H. split; assumption. Qed.

Lemma validation_cell13_run (w : world) :
  mode_independent -> ready w -> testset <> [] ->
  exists a w',
    validation_cell13 w = Ok tt w' /\
    ready w' /\
    printed w' = printed w ++ [[(a * 100)%Q]] /\
    valid_fraction a.
Proof.
  intros Hplain [Hq Hg] Hne.
  set (batches := Loader.iterate shuffle (rng (st w)) testset).
  set (w0 := logged (EIter TestLoader) None [] (next_rng (st w)) w).
  assert (Hq0 : quiet w0) by (unfold w0; eauto with quiet).
  destruct (@validation_loop_cell13 net_classes batches Hplain [] w0 Hq0)
    as (w1 & Hrun & Hq1 & Hp1 & Hpr1).
  assert (Hnb : length batches <> 0).
  { pose proof (Loader.iterate_nonempty shuffle shuffle_perm (rng (st w)) Hne) as H.
    fold batches in H. destruct batches; [congruence|discriminate]. }
  assert (Hfinal : exists w',
             validation_cell13 w = Ok tt w' /\ quiet w' /\
             printed w' =
               printed w ++
               [[(Qsum (map (accuracy_at (map data (params (st w0))) Eval) batches) /
                  inject_Z (Z.of_nat (length batches)) * 100)%Q]]).
  { eexists. unfold validation_cell13, for_loader. rewrite bind_assoc.
    run_with iter_quiet. cbn [dataset]. fold batches w0.
    erewrite bind_Ok; [|exact Hrun]. cbn [app].
    run_with py_div_quiet; [|rewrite length_map; exact Hnb].
    rewrite print_quiet by eauto with quiet.
    split; [reflexivity|split; [eauto 10 with quiet|]].
    rewrite !printed_logged. cbn [event_eqb]. rewrite app_nil_r, Hpr1.
    unfold w0. rewrite printed_logged. cbn [event_eqb]. rewrite app_nil_r.
    rewrite length_map. reflexivity. }
  destruct Hfinal as (w' & Hrun' & Hq' & Hpr').
  eexists. exists w'. split; [exact Hrun'|split; [split; [exact Hq'|]|split]].
  - pose proof (read_only_validation_cell13 w) as (_ & _ & Hge).
    rewrite Hrun' in Hge. cbn [final_world] in Hge. rewrite Hge. exact Hg.
  - exact Hpr'.
  - rewrite <- (length_map (accuracy_at (map data (params (st w0))) Eval)).
    apply mean_valid.
    + destruct batches; [cbn in Hnb; congruence|discriminate].
    + pose proof (batches_nonempty (rng (st w)) testset) as H. fold batches in H.
      apply Forall_forall. intros a Ha. apply in_map_iff in Ha.
      destruct Ha as [b [<- Hb]]. apply accuracy_at_valid.
      rewrite Forall_forall in H. apply H. exact Hb.
Qed.

Lemma epoch_cell13_run (e : nat) (w : world) :
  mode_independent -> ready w -> testset <> [] ->
  exists a w',
    epoch_cell13 e tt w = Ok tt w' /\
    ready w' /\
    printed w' = printed w ++ [[(a * 100)%Q]] /\
    valid_fraction a.
Proof.
  intros Hplain [Hq Hg] Hne.
  set (w0 := logged (EIter TrainLoader) None [] (next_rng (st w)) w).
  assert (Hw0 : ready w0) by (split; [unfold w0; eauto with quiet|exact Hg]).
  destruct (cell13_training_loop_quiet
              (Loader.iterate shuffle (rng (st w)) trainset) 0%Q Hw0)
    as (x & w1 & Hrun & Hw1 & Hst & Hpr).
  destruct (@validation_cell13_run w1 Hplain Hw1 Hne)
    as (a & w' & Hrun' & Hw' & Hpr' & Ha).
  exists a, w'. unfold epoch_cell13, for_loader. rewrite bind_assoc.
  run_with iter_quiet. cbn [dataset]. fold w0.
  erewrite bind_Ok; [|exact Hrun].
  split; [exact Hrun'|split; [exact Hw'|split; [|exact Ha]]].
  rewrite Hpr', Hpr. unfold w0. rewrite printed_logged. cbn [event_eqb].
  rewrite app_nil_r. reflexivity.
Qed.

(** A report line of the [Classifier] cell: an accuracy, in percent. *)
Definition percent_line (line : list Q) : Prop :=
  exists a, line = [(a * 100)%Q] /\ valid_fraction a.

Lemma epochs_cell13_run (k : nat) :
  mode_independent -> testset <> [] ->
  forall (s : nat) (w : world),
    ready w ->
    exists reports w',
      for_each (seq s k) epoch_cell13 tt w = Ok tt w' /\
      ready w' /\
      printed w' = printed w ++ reports /\
      length reports = k /\
      Forall percent_line reports.
Proof.
  intros Hplain Hne. induction k as [|k IH]; intros s w Hw.
  - exists [], w. cbn [seq for_each]. rewrite app_nil_r.
    repeat split; try apply Hw. constructor.
  - destruct (@epoch_cell13_run s w Hplain Hw Hne) as (a & w1 & Hrun & Hw1 & Hpr & Ha).
    destruct (IH (S s) w1 Hw1) as (reports & w' & Hrun' & Hw' & Hpr' & Hlen & Hall).
    exists ([(a * 100)%Q] :: reports), w'. cbn [seq for_each].
    erewrite bind_Ok; [|exact Hrun].
    split; [exact Hrun'|split; [exact Hw'|split; [|split]]].
    + rewrite Hpr', Hpr, <- app_assoc. reflexivity.
    + cbn [length]. rewrite Hlen. reflexivity.
    + constructor; [exists a; split; [reflexivity|exact Ha]|exact Hall].
Qed.

(** The [Classifier] cell from beginning to end, when no call fails and the
    test set is not empty: it returns after its five epochs, having printed
    five lines and nothing else, each an accuracy between 0 and 100
    percent. *)
Theorem classifier_cell_reports_five_accuracies (w : world) :
  mode_independent -> quiet w -> grad_enabled (st w) = true -> testset <> [] ->
  exists reports w',
    cell13 w = Ok tt w' /\
    printed w' = printed w ++ reports /\
    length reports = 5 /\
    Forall percent_line reports.
Proof.
  intros Hplain Hq Hg Hne.
  destruct (@epochs_cell13_run 5 Hplain Hne 0 w (conj Hq Hg))
    as (reports & w' & Hrun & _ & Hpr & Hlen & Hall).
  exists reports, w'. split; [exact Hrun|split; [exact Hpr|split; [exact Hlen|exact Hall]]].
Qed.

Lemma epoch_cell17_run (e : nat) (lists : list Q * list Q) (w : world) :
  ready w -> trainset <> [] -> testset <> [] ->
  exists train_acc test_acc w',
    epoch_cell17 e lists w =
      Ok (fst lists ++ [train_acc], snd lists ++ [test_acc]) w' /\
    ready w' /\
    printed w' = printed w ++ [[inject_Z (Z.of_nat e); train_acc; test_acc]] /\
    valid_fraction train_acc /\ valid_fraction test_acc.
Proof.
  intros [Hq Hg] Hne Hnt.
  set (batches := Loader.iterate shuffle (rng (st w)) trainset).
  set (t0 := next_rng (st w)).
  set (w0 := logged (EIter TrainLoader) None [] t0 w).
  assert (Hw0 : ready w0) by (split; [unfold w0; eauto with quiet|exact Hg]).
  destruct (cell17_training_loop_quiet batches None Hw0)
    as (w1 & Hrun & [Hq1 Hg1] & Hst & Hpr).
  change (st w0) with t0 in Hrun, Hst.
  assert (Hnb : batches <> [])
    by (apply (Loader.iterate_nonempty shuffle shuffle_perm); exact Hne).
  assert (Hta : train_accuracies batches t0 <> []).
  { rewrite <- length_zero_iff_nil, length_train_accuracies, length_zero_iff_nil.
    exact Hnb. }
  destruct (@fold_add_tensor_none (train_accuracies batches t0) Hta)
    as (y & Hy & Hsum).
  rewrite Hy in Hrun.
  set (w2 := logged ELen None [] (st w1) (logged ENumpy None [] (st w1) w1)).
  assert (Hq2 : quiet w2) by (unfold w2; eauto with quiet).
  destruct (@test_cell17_run w2 Hq2 Hnt) as (a & w3 & Hrun3 & Hq3 & Hpr3 & Ha).
  assert (Hg3 : grad_enabled (st w3) = true).
  { pose proof (read_only_test_cell17 w2) as (_ & _ & Hge).
    rewrite Hrun3 in Hge. cbn [final_world] in Hge. rewrite Hge. exact Hg1. }
  eexists. exists a. eexists. unfold epoch_cell17, for_loader. rewrite bind_assoc.
  run_with iter_quiet. cbn [dataset]. fold batches t0 w0.
  erewrite bind_Ok; [|exact Hrun].
  run_with numpy_quiet.
  run_with len_quiet. fold w2.
  erewrite bind_Ok; [|exact Hrun3].
  run_with print_quiet.
  split; [reflexivity|].
  split; [split; [eauto with quiet|exact Hg3]|].
  split; [|split].
  - rewrite printed_logged. cbn [event_eqb]. rewrite Hpr3. unfold w2.
    rewrite !printed_logged. cbn [event_eqb]. rewrite !app_nil_r, Hpr.
    unfold w0. rewrite printed_logged. cbn [event_eqb]. rewrite app_nil_r.
    reflexivity.
  - cbn [dataset].
    apply valid_fraction_Qeq
      with (b := (Qsum (train_accuracies batches t0) /
                  inject_Z (Z.of_nat (length (train_accuracies batches t0))))%Q).
    + rewrite Hsum, length_train_accuracies.
      replace ((length trainset + Loader.batch_size - 1) / Loader.batch_size)
        with (length batches); [reflexivity|].
      unfold batches, Loader.iterate.
      rewrite (Loader.chunks_length _ Loader.batch_size_pos).
      rewrite (Loader.shuffle_length shuffle shuffle_perm). reflexivity.
    + apply mean_valid; [exact Hta|].
      apply train_accuracies_valid. apply batches_nonempty.
  - apply (valid_fraction_Qeq Ha). apply mean_of_batch_fractions_valid. exact Hnt.
Qed.

Lemma epochs_cell17_run (k : nat) :
  trainset <> [] -> testset <> [] ->
  forall (s : nat) (lists : list Q * list Q) (w : world),
    ready w ->
    exists train_accs test_accs w',
      for_each (seq s k) epoch_cell17 lists w =
        Ok (fst lists ++ train_accs, snd lists ++ test_accs) w' /\
      ready w' /\
      length train_accs = k /\ length test_accs = k /\
      Forall valid_fraction train_accs /\ Forall valid_fraction test_accs /\
      length (printed w') = length (printed w) + k.
Proof.
  intros Hne Hnt. induction k as [|k IH]; intros s lists w Hw.
  - exists [], [], w. cbn [seq for_each]. rewrite !app_nil_r.
    destruct lists. repeat split; try apply Hw; try constructor. lia.
  - destruct (@epoch_cell17_run s lists w Hw Hne Hnt)
      as (a & c & w1 & Hrun & Hw1 & Hpr & Ha & Hc).
    destruct (IH (S s) (fst lists ++ [a], snd lists ++ [c]) w1 Hw1)
      as (tr & te & w' & Hrun' & Hw' & Hl1 & Hl2 & Hv1 & Hv2 & Hpr').
    exists (a :: tr), (c :: te), w'. cbn [seq for_each].
    erewrite bind_Ok; [|exact Hrun].
    cbn [fst snd] in Hrun'. rewrite <- !app_assoc in Hrun'. cbn [app] in Hrun'.
    split; [exact Hrun'|split; [exact Hw'|]].
    cbn [length]. rewrite Hl1, Hl2.
    split; [reflexivity|split; [reflexivity|]].
    split; [constructor; assumption|split; [constructor; assumption|]].
    rewrite Hpr', Hpr, length_app. cbn [length]. lia.
Qed.

(** The [Classifier2] cell from beginning to end, when no call fails and
    neither dataset is empty: it returns after its fifteen epochs with the
    two lists [train_accuracy] and [test_accuracy] holding fifteen values
    each, every one between 0 and 1, and it has printed fifteen lines. *)
Theorem dropout_cell_reports_fifteen_accuracies (w : world) :
  quiet w -> grad_enabled (st w) = true -> trainset <> [] -> testset <> [] ->
  exists train_accuracy test_accuracy w',
    cell17 w = Ok (train_accuracy, test_accuracy) w' /\
    length train_accuracy = 15 /\ length test_accuracy = 15 /\
    Forall valid_fraction train_accuracy /\
    Forall valid_fraction test_accuracy /\
    length (printed w') = length (printed w) + 15.
Proof.
  intros Hq Hg Hne Hnt.
  destruct (@epochs_cell17_run 15 Hne Hnt 0 ([], []) w (conj Hq Hg))
    as (tr & te & w' & Hrun & _ & H1 & H2 & H3 & H4 & H5).
  exists tr, te, w'. repeat split; assumption.
Qed.

End Part5Epochs.

(** *** Part 3: the cells that lead up to the loop

    The cell "Loss and Autograd together" computes a loss; the next prints
    the gradient, runs the backward pass and prints the gradient again; the
    single training step fetches a new batch, clears the gradients, computes
    the loss on it, runs the backward pass and prints the gradient; the last
    takes the optimizer step and prints the weights.  For
    [model[0].weight] the cells are modelled on all the parameters of the
    model. *)

Section Walkthrough.
(** What memory that [resize_] leaves uninitialised holds. *)
Variable junk : nat -> Q.

(** [dataiter = iter(loader)] and [next(dataiter)]: the first batch of a new
    pass over the data. *)
Definition first_batch (l : loader) : M batch :=
  batches <- iter_ l ;;
  next_ l batches.

(** What [print] shows of the gradients: nothing where it is [None]. *)
Definition grads_shown (ps : list parameter) : list Q :=
  flat_map (fun p => match grad p with
                     | None => []
                     | Some g => [g]
                     end) ps.

(** [print(..., model[0].weight.grad)] and [print(..., model[0].weight)] *)
Definition print_grad : M unit :=
  fun w => print (grads_shown (params (st w))) w.
Definition print_weight : M unit :=
  fun w => print (map data (params (st w))) w.

(** [images.resize_(64, 784)], the rows of the result handed on. *)
Definition resize_64_784 (images : list (list Q)) : M (list (list Q)) :=
  lib EView (fun t => inr (rows (resize_ junk [64; 784] (stack images)), t)).

(** Lines 430-435. *)
Definition cell_loss : M loss_t :=
  (* dataiter = iter(trainloader); images, labels = next(dataiter) *)
  b <- first_batch TrainLoader ;;
  (* images = images.view(images.shape[0], -1) *)
  images <- view_flat (images_of b) ;;
  (* logits = model(images) *)
  logits <- model_call images ;;
  (* loss = criterion(logits, labels) *)
  criterion logits (labels_of b).

(** Lines 461-465. *)
Definition cell_backward (loss : loss_t) : M unit :=
  print_grad ;;
  backward loss ;;
  print_grad.

(** Lines 542-551, on the batch fetched. *)
Definition single_step (b : batch) : M unit :=
  (* images.resize_(64, 784) *)
  images <- resize_64_784 (images_of b) ;;
  (* optimizer.zero_grad() *)
  optimizer_zero_grad ;;
  (* output = model(images) *)
  output <- model_call images ;;
  (* loss = criterion(output, labels) *)
  loss <- criterion output (labels_of b) ;;
  (* loss.backward() *)
  backward loss ;;
  print_grad.

(** Lines 538-551. *)
Definition cell_single_step : M unit :=
  print_weight ;;
  b <- first_batch TrainLoader ;;
  single_step b.

(** Lines 577-578. *)
Definition cell_update : M unit :=
  optimizer_step ;;
  print_weight.

(** The four cells, run one after the other. *)
Definition part3_walkthrough : M unit :=
  loss <- cell_loss ;;
  cell_backward loss ;;
  cell_single_step ;;
  cell_update.

Lemma length_rows_resized (images : list (list Q)) :
  length (rows (resize_ junk [64; 784] (stack images))) = 64.
Proof. unfold rows, resize_. cbn [shape]. rewrite length_map, length_seq. reflexivity. Qed.

Lemma rows_resized_full (images : list (list Q)) :
  length images = 64 ->
  Forall (fun im => length im = 784) images ->
  rows (resize_ junk [64; 784] (stack images)) = images.
Proof.
  intros H64 Hpx.
  pose proof (length_concat_uniform Hpx) as Hlen.
  unfold resize_. cbn [stack shape storage]. rewrite numel_pair.
  replace (64 * 784 <=? length (concat images)) with true
    by (symmetry; apply Nat.leb_le; lia).
  rewrite <- H64 at 1. apply rows_of_concat. exact Hpx.
Qed.

(** The single training step on a batch that is not of 64 images.  After
    [images.resize_(64, 784)] the model is given 64 rows whatever the batch
    held, the criterion finds that many rows against the labels of the
    batch, and raises: the gradients have been cleared and a forward pass
    made, but no backward pass is run and nothing is printed. *)
Theorem single_step_raises_on_a_partial_batch (b : batch) (w : world) :
  quiet w -> length b <> 64 ->
  exists w',
    single_step b w = Raised ValueError w' /\
    st w' = after_forward (after_zero_grad (st w)) /\
    printed w' = printed w /\
    map ev (skipn (length (trace w)) (trace w')) =
      [EView; EZeroGrad; EForward; ECriterion].
Proof.
  intros Hq Hb. eexists. unfold single_step.
  unfold resize_64_784. erewrite bind_Ok; [|apply lib_quiet; [exact Hq|reflexivity]].
  run_with optimizer_zero_grad_quiet.
  run_with model_call_quiet.
  unfold criterion.
  unfold bind at 1.
  rewrite (@lib_quiet_raise _ ECriterion _ _ ValueError).
  - split; [reflexivity|]. split; [reflexivity|]. split.
    + rewrite !printed_logged. cbn [event_eqb]. rewrite !app_nil_r. reflexivity.
    + cbn [trace logged]. rewrite <- !app_assoc.
      rewrite skipn_app, skipn_all, Nat.sub_diag. reflexivity.
  - eauto 10 with quiet.
  - cbn [o_rows]. rewrite length_scores, length_rows_resized.
    unfold labels_of. rewrite length_map.
    match goal with
    | |- context [64 =? ?n] => destruct (Nat.eqb_spec 64 n) as [E|E]
    end; [|reflexivity].
    exfalso. apply Hb. symmetry. exact E.
Qed.

Lemma grads_shown_fresh (values : list Q) :
  grads_shown (map (fun d => mkParam d None) values) = [].
Proof. induction values as [|v values IH]; [reflexivity|exact IH]. Qed.

Lemma grads_shown_with_gradient_from (d : nat -> Q) (values : list Q) (s : nat) :
  grads_shown (map (fun iv => mkParam (snd iv) (Some (d (fst iv))))
                 (combine (seq s (length values)) values)) =
  map d (seq s (length values)).
Proof.
  revert s. induction values as [|v values IH]; intros s; [reflexivity|].
  cbn [length seq combine map grads_shown flat_map grad fst snd app].
  f_equal. apply IH.
Qed.

Lemma grads_shown_with_gradient (d : nat -> Q) (values : list Q) :
  grads_shown (with_gradient d values) = map d (seq 0 (length values)).
Proof. apply grads_shown_with_gradient_from. Qed.

Lemma data_fresh (values : list Q) :
  map data (map (fun d => mkParam d None) values) = values.
Proof. rewrite map_map. cbn [data]. apply map_id. Qed.

Lemma step_with_gradient_from (o : O) (d : nat -> Q) (values : list Q) (s : nat) :
  map data
    (map (fun ip =>
            match grad (snd ip) with
            | None => snd ip
            | Some g => mkParam (opt_data o (fst ip) (data (snd ip)) g) (Some g)
            end)
       (combine (seq s (length values))
          (map (fun iv => mkParam (snd iv) (Some (d (fst iv))))
             (combine (seq s (length values)) values)))) =
  map (fun iv => opt_data o (fst iv) (snd iv) (d (fst iv)))
    (combine (seq s (length values)) values).
Proof.
  revert s. induction values as [|v values IH]; intros s; [reflexivity|].
  cbn [length seq combine map grad data fst snd]. f_equal. apply IH.
Qed.

Lemma length_with_gradient (d : nat -> Q) (values : list Q) :
  length (with_gradient d values) = length values.
Proof.
  unfold with_gradient, indexed. rewrite length_map, length_combine, length_seq. lia.
Qed.

Lemma step_with_gradient (o : O) (d : nat -> Q) (values : list Q) :
  map data (step_params o (with_gradient d values)) =
  map (fun iv => opt_data o (fst iv) (snd iv) (d (fst iv))) (indexed values).
Proof.
  unfold step_params, indexed at 1. rewrite length_with_gradient.
  apply step_with_gradient_from.
Qed.

Lemma cell_backward_quiet (loss : loss_t) (g : graph) (labels : list Z) (w : world) :
  quiet w -> l_graph loss = Some (g, labels) ->
  exists w',
    cell_backward loss w = Ok tt w' /\
    quiet w' /\
    st w' = after_backward g labels (st w) /\
    printed w' =
      printed w ++
      [grads_shown (params (st w));
       grads_shown (params (after_backward g labels (st w)))].
Proof.
  intros Hq Hl. eexists. unfold cell_backward.
  unfold print_grad at 1. run_with print_quiet.
  run_with backward_quiet.
  unfold print_grad. rewrite print_quiet by eauto 10 with quiet.
  split; [reflexivity|split; [eauto 10 with quiet|split; [reflexivity|]]].
  rewrite !printed_logged. cbn [event_eqb st logged].
  rewrite app_nil_r, <- app_assoc. reflexivity.
Qed.

Lemma cell_update_quiet (w : world) :
  quiet w ->
  exists w',
    cell_update w = Ok tt w' /\
    st w' = after_step (st w) /\
    printed w' = printed w ++ [map data (params (after_step (st w)))].
Proof.
  intros Hq. eexists. unfold cell_update.
  run_with optimizer_step_quiet.
  unfold print_weight. rewrite print_quiet by eauto 10 with quiet.
  split; [reflexivity|split; [reflexivity|]].
  rewrite !printed_logged. cbn [event_eqb st logged].
  rewrite app_nil_r. reflexivity.
Qed.

Section Shuffled.
Hypothesis shuffle_perm : forall seed l, Permutation (shuffle seed l) l.

Lemma first_batch_quiet (l : loader) (w : world) :
  quiet w -> dataset l <> [] ->
  exists w',
    first_batch l w =
      Ok (hd [] (Loader.iterate shuffle (rng (st w)) (dataset l))) w' /\
    quiet w' /\
    st w' = next_rng (st w) /\
    printed w' = printed w.
Proof.
  intros Hq Hne. eexists. unfold first_batch.
  run_with iter_quiet.
  pose proof (Loader.iterate_nonempty shuffle shuffle_perm (rng (st w)) Hne) as Hb.
  destruct (Loader.iterate shuffle (rng (st w)) (dataset l)) as [|b bs];
    [congruence|].
  rewrite next_quiet by (eauto with quiet).
  split; [reflexivity|split; [eauto 10 with quiet|split; [reflexivity|]]].
  rewrite !printed_logged. destruct l; cbn [event_eqb]; rewrite !app_nil_r;
    reflexivity.
Qed.

Lemma first_batch_full (seed : nat) :
  64 <= length trainset ->
  Forall (fun s => length (fst s) = 784) trainset ->
  let b := hd [] (Loader.iterate shuffle seed trainset) in
  length (images_of b) = 64 /\
  Forall (fun im => length im = 784) (images_of b).
Proof.
  intros Hlen Hpx b. split.
  - unfold images_of. rewrite length_map. unfold b, Loader.iterate.
    apply Loader.chunks_first; [exact Loader.batch_size_pos|].
    rewrite (Loader.shuffle_length shuffle shuffle_perm).
    unfold Loader.batch_size. exact Hlen.
  - apply Forall_forall. intros im Him. unfold images_of in Him.
    apply in_map_iff in Him. destruct Him as [s [<- Hs]].
    rewrite Forall_forall in Hpx. apply Hpx.
    assert (Hb : In b (Loader.iterate shuffle seed trainset)).
    { unfold b. destruct (Loader.iterate shuffle seed trainset) as [|c cs];
        [destruct Hs|left; reflexivity]. }
    exact (Loader.iterate_In shuffle shuffle_perm _ _ _ _ Hb Hs).
Qed.

Lemma cell_loss_quiet (w : world) :
  quiet w -> grad_enabled (st w) = true -> trainset <> [] ->
  let b := hd [] (Loader.iterate shuffle (rng (st w)) trainset) in
  let t1 := next_rng (st w) in
  exists w',
    cell_loss w =
      Ok (mkLoss (nll (scores t1 (images_of b)) (labels_of b))
            (Some (graph_of t1 (images_of b), labels_of b))) w' /\
    quiet w' /\
    st w' = after_forward t1 /\
    printed w' = printed w.
Proof.
  intros Hq Hg Hne b t1.
  destruct (@first_batch_quiet TrainLoader w Hq Hne) as (w1 & Hrun & Hq1 & Hst1 & Hpr1).
  eexists. unfold cell_loss.
  erewrite bind_Ok; [|exact Hrun]. cbn [dataset]. fold b.
  run_with view_flat_quiet.
  run_with model_call_quiet.
  cbn [st logged]. rewrite Hst1. cbn [next_rng grad_enabled]. rewrite Hg.
  rewrite criterion_quiet;
    [|eauto 10 with quiet
     |cbn [o_rows]; rewrite length_scores; apply length_images_labels].
  split; [reflexivity|split; [eauto 10 with quiet|split; [reflexivity|]]].
  rewrite !printed_logged. cbn [event_eqb]. rewrite !app_nil_r. exact Hpr1.
Qed.

Lemma cell_single_step_quiet (w : world) :
  quiet w -> grad_enabled (st w) = true ->
  64 <= length trainset ->
  Forall (fun s => length (fst s) = 784) trainset ->
  let b := hd [] (Loader.iterate shuffle (rng (st w)) trainset) in
  let t1 := after_zero_grad (next_rng (st w)) in
  let t2 := after_backward (graph_of t1 (images_of b)) (labels_of b)
              (after_forward t1) in
  exists w',
    cell_single_step w = Ok tt w' /\
    quiet w' /\
    st w' = t2 /\
    printed w' =
      printed w ++ [map data (params (st w)); grads_shown (params t2)].
Proof.
  intros Hq Hg Hlen Hpx b t1 t2.
  assert (Hne : trainset <> []) by (destruct trainset; [cbn in Hlen; lia|discriminate]).
  destruct (@first_batch_full (rng (st w)) Hlen Hpx) as [H64 Hb].
  fold b in H64, Hb.
  set (w0 := logged EPrint None (map data (params (st w))) (st w) w).
  assert (Hq0 : quiet w0) by (unfold w0; eauto with quiet).
  destruct (@first_batch_quiet TrainLoader w0 Hq0 Hne)
    as (w1 & Hrun & Hq1 & Hst1 & Hpr1).
  cbn [dataset] in Hrun. change (rng (st w0)) with (rng (st w)) in Hrun.
  fold b in Hrun. change (st w0) with (st w) in Hst1.
  eexists. unfold cell_single_step.
  unfold print_weight at 1. run_with print_quiet. fold w0.
  erewrite bind_Ok; [|exact Hrun].
  unfold single_step, resize_64_784.
  erewrite bind_Ok; [|apply lib_quiet; [exact Hq1|reflexivity]].
  rewrite (rows_resized_full H64 Hb).
  run_with optimizer_zero_grad_quiet.
  run_with model_call_quiet.
  cbn [st logged]. rewrite Hst1. fold t1.
  replace (grad_enabled t1) with true by (symmetry; exact Hg).
  run_with criterion_quiet;
    [|cbn [o_rows]; rewrite length_scores; apply length_images_labels].
  cbn [o_graph option_map].
  run_with backward_quiet; [|reflexivity].
  unfold print_grad. rewrite print_quiet by eauto 10 with quiet.
  cbn [st logged]. fold t2.
  split; [reflexivity|split; [eauto 15 with quiet|split; [reflexivity|]]].
  rewrite !printed_logged. cbn [event_eqb]. rewrite !app_nil_r, Hpr1.
  unfold w0. rewrite printed_logged. cbn [event_eqb].
  rewrite <- app_assoc. reflexivity.
Qed.

Ltac norm_state H :=
  unfold after_backward, after_zero_grad, after_forward, after_step, graph_of,
    current_mode, fresh_torch in H;
  cbn [params ostate training grad_enabled rng set_params set_ostate next_rng] in H.

(** The cells run one after the other on a freshly built model, when no
    call fails and the training set holds at least 64 images of 784 pixels.
    Five things are printed.  Before the first backward pass no parameter
    has a gradient.  After it every parameter holds the gradient of the loss
    of the first batch fetched.  The single training step prints the initial
    weights, unchanged so far; fetches a second batch, clears the gradients
    and runs forward and backward, after which every parameter holds the
    gradient of the loss of the second batch alone, nothing of the first
    being left in it; and the optimizer step writes the weights its update
    rule gives for that gradient. *)
Theorem single_step_uses_one_batch_gradient (values : list Q) (o : O) (seed : nat) :
  64 <= length trainset ->
  Forall (fun s => length (fst s) = 784) trainset ->
  let b1 := hd [] (Loader.iterate shuffle seed trainset) in
  let b2 := hd [] (Loader.iterate shuffle (S (S seed)) trainset) in
  let g1 := autograd (mkGraph values (Training (S seed)) (images_of b1))
              (labels_of b1) in
  let g2 := autograd (mkGraph values (Training (S (S (S seed)))) (images_of b2))
              (labels_of b2) in
  exists w',
    part3_walkthrough (fresh_world values o seed no_faults) = Ok tt w' /\
    printed w' =
      [ [];
        map g1 (seq 0 (length values));
        values;
        map g2 (seq 0 (length values));
        map (fun iv => opt_data o (fst iv) (snd iv) (g2 (fst iv))) (indexed values) ].
Proof.
  intros Hlen Hpx b1 b2 g1 g2.
  assert (Hne : trainset <> []) by (destruct trainset; [cbn in Hlen; lia|discriminate]).
  set (w := fresh_world values o seed no_faults).
  assert (Hq : quiet w) by apply quiet_fresh.
  destruct (@cell_loss_quiet w Hq eq_refl Hne) as (w1 & Hrun1 & Hq1 & Hst1 & Hpr1).
  cbn [w fresh_world st fresh_torch rng next_rng params ostate training grad_enabled]
    in Hrun1, Hst1.
  fold b1 in Hrun1.
  destruct (@cell_backward_quiet
              (mkLoss (nll (scores (next_rng (fresh_torch values o seed)) (images_of b1))
                         (labels_of b1))
                 (Some (graph_of (next_rng (fresh_torch values o seed)) (images_of b1),
                        labels_of b1)))
              _ _ w1 Hq1 eq_refl)
    as (w2 & Hrun2 & Hq2 & Hst2 & Hpr2).
  rewrite Hst1 in Hst2, Hpr2.
  norm_state Hst2. norm_state Hpr2.
  rewrite data_fresh in Hst2, Hpr2. fold g1 in Hst2, Hpr2.
  rewrite (accumulate_clear _ (fresh_clear values)), data_fresh in Hst2, Hpr2.
  rewrite grads_shown_fresh, grads_shown_with_gradient in Hpr2.
  assert (Hg2 : grad_enabled (st w2) = true) by (rewrite Hst2; reflexivity).
  destruct (@cell_single_step_quiet w2 Hq2 Hg2 Hlen Hpx)
    as (w3 & Hrun3 & Hq3 & Hst3 & Hpr3).
  rewrite Hst2 in Hst3, Hpr3.
  norm_state Hst3. norm_state Hpr3.
  fold b2 in Hst3, Hpr3.
  rewrite data_zero_param, data_with_gradient in Hst3, Hpr3.
  fold g2 in Hst3, Hpr3.
  rewrite (accumulate_clear _ (zero_param_clear _)) in Hst3, Hpr3.
  rewrite data_zero_param, data_with_gradient in Hst3, Hpr3.
  rewrite grads_shown_with_gradient in Hpr3.
  destruct (@cell_update_quiet w3 Hq3) as (w4 & Hrun4 & Hst4 & Hpr4).
  rewrite Hst3 in Hpr4. norm_state Hpr4.
  rewrite step_with_gradient in Hpr4.
  exists w4. unfold part3_walkthrough.
  erewrite bind_Ok; [|exact Hrun1].
  erewrite bind_Ok; [|exact Hrun2].
  erewrite bind_Ok; [|exact Hrun3].
  split; [exact Hrun4|].
  rewrite Hpr4, Hpr3, Hpr2, Hpr1. reflexivity.
Qed.

End Shuffled.

End Walkthrough.

(** *** Part 5: the accuracy of one batch, before training

    The cells that introduce the accuracy take the first batch of the test
    loader through the model, print the shape of the probabilities, the
    first ten predicted classes and the accuracy in percent. *)

(** [accuracy.item()] *)
Definition scalar_item (a : Q) : M Q :=
  lib EItem (fun t => inr (a, t)).

(** [ps.shape], for the tensor given by its rows. *)
Definition shape_of_rows (m : matrix) : list nat :=
  [length m; length (hd [] m)].

(** Integers as [print] shows them. *)
Definition as_floats (l : list nat) : list Q :=
  map (fun n => inject_Z (Z.of_nat n)) l.

(** Lines 100-104, 137-139, 163 and 193-194. *)
Definition cell_first_accuracy : M unit :=
  (* images, labels = next(iter(testloader)) *)
  b <- first_batch TestLoader ;;
  (* ps = torch.exp(model(images)) *)
  out <- model_call (images_of b) ;;
  ps <- torch_exp out ;;
  (* print(ps.shape) *)
  print (as_floats (shape_of_rows ps)) ;;
  (* top_p, top_class = ps.topk(1, dim=1) *)
  r <- topk_1 ps ;;
  let top_class := snd r in
  (* print(top_class[:10,:]) *)
  print (map inject_Z (firstn 10 (contents top_class))) ;;
  (* equals = top_class == labels.view( *top_class.shape) *)
  reshaped <- labels_view (labels_of b) (shape top_class) ;;
  equals <- tensor_eq top_class reshaped ;;
  (* accuracy = torch.mean(equals.type(torch.FloatTensor)) *)
  f <- float_type equals ;;
  accuracy <- torch_mean f ;;
  (* print(accuracy.item()*100) *)
  x <- scalar_item accuracy ;;
  print [(x * 100)%Q].

Section FirstAccuracy.
Hypothesis shuffle_perm : forall seed l, Permutation (shuffle seed l) l.
(** The last layer of the classifier is [nn.Linear(64, 10)]. *)
Hypothesis net_ten : forall p md x, length (net p md x) = 10.

Lemma net_ten_classes (p : list Q) (md : mode) (x : list Q) : net p md x <> [].
Proof.
  pose proof (net_ten p md x) as H.
  destruct (net p md x); [discriminate H|discriminate].
Qed.

Lemma predicted_probs_of (md : mode) (t : torch) (images : list (list Q)) :
  predicted (probs_of md t images) = map (predict (map data (params t)) md) images.
Proof.
  unfold predicted, probs_of, predict. rewrite !map_map. reflexivity.
Qed.

Lemma shape_of_probs (md : mode) (t : torch) (images : list (list Q)) :
  images <> [] ->
  shape_of_rows (probs_of md t images) = [length images; 10].
Proof.
  intros Hne. unfold shape_of_rows, probs_of. rewrite !length_map.
  destruct images as [|im images]; [congruence|].
  cbn [map hd]. rewrite length_map, net_ten. reflexivity.
Qed.

(** The cell, when no call fails and the test set is not empty, on a model
    with ten outputs.  It prints the shape (b, 10), b being the size of the
    first batch drawn (64 when the test set holds at least 64 examples);
    the predicted classes of the first ten examples of the batch (of all,
    when there are fewer); and one hundred times the fraction of the batch
    whose predicted class is the label.  The model is run in the mode it is
    in, which nothing in the cell changes. *)
Theorem first_accuracy_cell_prints (w : world) :
  quiet w -> testset <> [] ->
  let b := hd [] (Loader.iterate shuffle (rng (st w)) testset) in
  let t := next_rng (st w) in
  let values := map data (params t) in
  exists a w',
    cell_first_accuracy w = Ok tt w' /\
    printed w' =
      printed w ++
      [ as_floats [length b; 10];
        map inject_Z (firstn 10 (map (predict values (current_mode t)) (images_of b)));
        [(a * 100)%Q] ] /\
    (a == fraction_correct values (current_mode t) b)%Q /\
    (0 <= a <= 1)%Q /\
    training (st w') = training (st w) /\
    (64 <= length testset -> length b = 64).
Proof.
  intros Hq Hne b t values.
  destruct (@first_batch_quiet shuffle_perm TestLoader w Hq Hne)
    as (w1 & Hrun & Hq1 & Hst1 & Hpr1).
  cbn [dataset] in Hrun. fold b in Hrun.
  assert (Hb : b <> []).
  { pose proof (Loader.iterate_nonempty shuffle shuffle_perm (rng (st w)) Hne) as Hnb.
    pose proof (Loader.iterate_bounds shuffle (rng (st w)) testset) as Hbd.
    unfold b. destruct (Loader.iterate shuffle (rng (st w)) testset) as [|c cs];
      [congruence|].
    cbn [hd]. apply Forall_inv in Hbd. destruct c; [cbn in Hbd; lia|discriminate]. }
  assert (Himg : images_of b <> []).
  { unfold images_of. destruct b; [congruence|discriminate]. }
  set (md := current_mode t).
  set (probs := probs_of md t (images_of b)).
  assert (Hrows : Forall (fun row => row <> []) probs).
  { unfold probs, probs_of. apply Forall_forall. intros row Hrow.
    apply in_map_iff in Hrow. destruct Hrow as [r [<- Hr]].
    apply in_map_iff in Hr. destruct Hr as [x [<- _]].
    pose proof (@net_ten_classes (map data (params t)) md x) as H.
    destruct (net (map data (params t)) md x); [congruence|discriminate]. }
  assert (Hlen : length probs = length (labels_of b)).
  { unfold probs, probs_of. rewrite !length_map. apply length_images_labels. }
  assert (Ha : mean (to_float (mkTensor [length (labels_of b); 1]
                                 (map eqb_pair (combine (predicted probs) (labels_of b))))) =
               batch_fraction probs (labels_of b)).
  { unfold batch_fraction, equals_column. rewrite Hlen. reflexivity. }
  eexists. eexists. unfold cell_first_accuracy.
  erewrite bind_Ok; [|exact Hrun].
  run_with model_call_quiet.
  run_with torch_exp_quiet.
  cbn [o_rows st logged]. rewrite Hst1. fold t.
  change (map (map expQ) (scores t (images_of b))) with probs.
  run_with print_quiet.
  run_with topk_1_quiet.
  cbn [snd shape]. unfold contents. cbn [shape storage].
  run_with print_quiet.
  rewrite Hlen.
  run_with labels_view_quiet.
  run_with tensor_eq_quiet;
    [|apply eq_column; [unfold predicted; rewrite length_map; exact Hlen|reflexivity]].
  run_with float_type_quiet.
  run_with torch_mean_quiet.
  unfold scalar_item.
  erewrite bind_Ok; [|apply lib_quiet; [eauto 20 with quiet|reflexivity]].
  rewrite print_quiet by eauto 20 with quiet.
  split; [reflexivity|]. split; [|split; [|split; [|split]]].
  - rewrite !printed_logged. cbn [event_eqb]. rewrite !app_nil_r, Hpr1.
    rewrite <- !app_assoc. cbn [app]. do 2 f_equal.
    + unfold probs. rewrite (shape_of_probs md t Himg).
      unfold images_of. rewrite length_map. reflexivity.
    + rewrite numel_pair, Nat.mul_1_r.
      rewrite (@firstn_all2 _ (length (labels_of b)) (predicted probs))
        by (unfold predicted; rewrite length_map, Hlen; lia).
      unfold probs. rewrite predicted_probs_of. reflexivity.
  - rewrite <- (predicted_probs_of md t (images_of b)). fold probs.
    rewrite Ha. exact (accuracy_at_fraction values md b).
  - rewrite <- (predicted_probs_of md t (images_of b)). fold probs.
    rewrite Ha, (batch_fraction_is_ratio _ _ Hlen). apply ratio_bounds.
    + apply hits_le.
    + destruct probs; [|cbn [length]; lia].
      cbn [length] in Hlen. unfold labels_of in Hlen. rewrite length_map in Hlen.
      destruct b; [congruence|discriminate Hlen].
  - cbn [st logged]. rewrite training_after_forward. reflexivity.
  - intros H64. unfold b, Loader.iterate.
    apply Loader.chunks_first; [exact Loader.batch_size_pos|].
    rewrite (Loader.shuffle_length shuffle shuffle_perm).
    unfold Loader.batch_size. exact H64.
Qed.

End FirstAccuracy.

End Model.

Arguments Ok {O A} a w.
Arguments Raised {O A} e w.

(** ** A small instance, run

    A two-class model that scores class 0 by the first pixel times the first
    parameter, plain gradient descent with learning rate 0.003, a loader
    that keeps the order of the dataset. *)

Definition toy_net (values : list Q) (md : mode) (x : list Q) : list Q :=
  let s := (hd 0 values * hd 0 x)%Q in [s; (1 - s)%Q].

Definition toy_nll (rows : matrix) (labels : list Z) : Q :=
  Qsum (map (fun row => hd 0%Q row) rows).

Definition toy_autograd (g : graph) (labels : list Z) (i : nat) : Q :=
  (hd 0 (g_data g) + inject_Z (Z.of_nat i))%Q.

Definition sgd_data (o : unit) (i : nat) (d g : Q) : Q := (d - (3 # 1000) * g)%Q.

Definition sgd_next (o : unit) (ps : list parameter) : unit := o.

Definition toy_exp (q : Q) : Q := q.

Definition toy_shuffle (seed : nat) (l : list sample) : list sample := l.

(** An image that the model with first parameter 1 puts in class 0. *)
Definition zero_image : list Q := [1%Q].

Definition toy_trainset : list sample :=
  [(zero_image, 0%Z); (zero_image, 1%Z); (zero_image, 0%Z)].

(** 64 examples of class 1 followed by one of class 0: the loader cuts them
    into one full batch and a batch of a single example. *)
Definition toy_testset : list sample :=
  repeat (zero_image, 1%Z) 64 ++ [(zero_image, 0%Z)].

Definition toy_world : world unit := fresh_world [1%Q; 2%Q] tt 0 no_faults.

Lemma toy_net_classes (p : list Q) (md : mode) (x : list Q) : toy_net p md x <> [].
Proof. discriminate. Qed.

Lemma toy_shuffle_perm (seed : nat) (l : list sample) :
  Permutation (toy_shuffle seed l) l.
Proof. apply Permutation_refl. Qed.

Lemma toy_world_quiet : quiet toy_world.
Proof. intros k. reflexivity. Qed.

Lemma toy_world_clear : Forall clear (params (st toy_world)).
Proof. repeat constructor. Qed.

Lemma toy_testset_nonempty : toy_testset <> [].
Proof. discriminate. Qed.

(** The pass of the training loop of the [Classifier] cell, run. *)
Definition toy_pass_cell13 : result unit Q :=
  training_pass_cell13 toy_net toy_nll toy_autograd sgd_data sgd_next false
    toy_trainset 0%Q toy_world.

(** The validation pass of the [Classifier] cell, run on the 65 examples. *)
Definition toy_validation : result unit unit :=
  validation_cell13 toy_net toy_exp toy_shuffle toy_trainset toy_testset toy_world.

(** C2, as stated, fails on the training loops of Part 5: there an
    iteration begins with [optimizer.zero_grad()]. *)
Lemma training_step_order_counterexample :
  training_ops (new_events toy_world (final_world toy_pass_cell13)) =
    [EZeroGrad; EForward; ECriterion; EBackward; EStep] /\
  training_ops (new_events toy_world (final_world toy_pass_cell13)) <>
    [EForward; ECriterion; EBackward; EStep; EZeroGrad].
Proof.
  assert (H : training_ops (new_events toy_world (final_world toy_pass_cell13)) =
              [EZeroGrad; EForward; ECriterion; EBackward; EStep])
    by (vm_compute; reflexivity).
  split; [exact H|]. rewrite H. discriminate.
Qed.

(** C1, as stated, fails when the last batch is not full: of the 65
    examples one is classified correctly, yet the accuracy printed is 50
    percent, the mean of the accuracies 0 and 1 of the two batches. *)
Lemma accuracy_counterexample :
  exists p,
    printed (final_world toy_validation) = [[p]] /\
    (p == 50)%Q /\
    n_correct toy_net toy_exp [1%Q; 2%Q] Eval toy_testset = 1 /\
    length toy_testset = 65 /\
    ~ (p == 100 * fraction_correct toy_net toy_exp [1%Q; 2%Q] Eval toy_testset)%Q.
Proof.
  eexists. split; [vm_compute; reflexivity|].
  split; [vm_compute; reflexivity|].
  split; [vm_compute; reflexivity|].
  split; [vm_compute; reflexivity|].
  vm_compute. intros H. discriminate H.
Qed.

(** A world in which the [k]-th call is made to fail. *)
Definition failing_at (k : nat) (x : exn) : nat -> option exn :=
  fun c => if c =? k then Some x else None.

(** C6, as stated, fails for one exception.  The first [next] of the Part 3
    cell (its second call) is made to raise [StopIteration] while the
    loader has a batch to give.  The exception does not reach the caller:
    the loop of the first epoch ends there, its [else:] block prints a mean
    loss of 0, and the cell goes on to run the other four epochs and
    returns, having taken four optimizer steps where an undisturbed run
    takes five.  Made to raise anything else, the same call stops the
    cell. *)
Lemma loops_propagate_errors_counterexample :
  exists w' en p,
    cell_part3 toy_net toy_nll toy_autograd sgd_data sgd_next toy_shuffle false
      toy_trainset toy_testset
      (fresh_world [1%Q; 2%Q] tt 0 (failing_at 1 StopIteration)) = Ok tt w' /\
    nth_error (trace w') 1 = Some en /\
    ev en = ENext TrainLoader /\ err en = Some StopIteration /\
    length (printed w') = 5 /\
    hd [] (printed w') = [p] /\ (p == 0)%Q /\
    length (updates sgd_data (trace w')) = 4 /\
    exists w'',
      cell_part3 toy_net toy_nll toy_autograd sgd_data sgd_next toy_shuffle false
        toy_trainset toy_testset
        (fresh_world [1%Q; 2%Q] tt 0 (failing_at 1 (External 7))) =
        Raised (External 7) w'' /\
      printed w'' = [].
Proof.
  eexists. eexists. eexists.
  split; [vm_compute; reflexivity|].
  split; [vm_compute; reflexivity|].
  split; [reflexivity|split; [reflexivity|]].
  split; [vm_compute; reflexivity|].
  split; [vm_compute; reflexivity|].
  split; [vm_compute; reflexivity|].
  split; [vm_compute; reflexivity|].
  eexists. split; vm_compute; reflexivity.
Qed.

(** *** The theorems at the instance *)

Lemma training_step_order_witness :
  exists x w',
    for_loader toy_shuffle toy_trainset toy_testset TrainLoader
      (training_pass_part3 toy_net toy_nll toy_autograd sgd_data sgd_next false)
      0%Q toy_world = Ok x w' /\
    training_ops (new_events toy_world w') =
      concat (map (fun _ => step_then_zero)
                (Loader.iterate toy_shuffle (rng (st toy_world)) toy_trainset)).
Proof.
  destruct (@training_step_order unit toy_net toy_nll toy_autograd sgd_data
              sgd_next toy_exp toy_shuffle false toy_trainset toy_testset
              toy_net_classes toy_world toy_world_quiet eq_refl)
    as (_ & _ & _ & H & _).
  exact (H 0%Q).
Defined.

Lemma exercise_pass_matches_demonstrated_pattern_witness :
  exists x w1 w2,
    for_each [toy_trainset; toy_trainset]
      (training_pass_part3 toy_net toy_nll toy_autograd sgd_data sgd_next false)
      0%Q toy_world = Ok x w1 /\
    for_each [toy_trainset; toy_trainset]
      (demonstrated_pass toy_net toy_nll toy_autograd sgd_data sgd_next false)
      0%Q toy_world = Ok x w2 /\
    updates sgd_data (trace w1) = updates sgd_data (trace w2) /\
    length (updates sgd_data (trace w1)) = 2.
Proof.
  destruct (@exercise_pass_matches_demonstrated_pattern unit toy_net toy_nll
              toy_autograd sgd_data sgd_next false [toy_trainset; toy_trainset]
              0%Q toy_world toy_world_quiet eq_refl toy_world_clear)
    as (x & w1 & w2 & H1 & H2 & H3 & H4 & _).
  exists x, w1, w2. repeat split; assumption.
Defined.

Lemma accuracy_is_mean_of_batch_accuracies_witness :
  exists a w',
    test_cell17 toy_net toy_nll toy_exp toy_shuffle toy_trainset toy_testset
      toy_world = Ok a w' /\
    (a == mean_of_batch_fractions toy_net toy_exp
            (map data (params (st toy_world))) Eval
            (Loader.iterate toy_shuffle (rng (st toy_world)) toy_testset))%Q.
Proof.
  destruct (@accuracy_is_mean_of_batch_accuracies unit toy_net toy_nll toy_exp
              toy_shuffle toy_trainset toy_testset toy_net_classes
              toy_shuffle_perm toy_world toy_world_quiet toy_testset_nonempty)
    as [_ (a & w' & H1 & H2 & _)].
  exists a, w'. split; assumption.
Defined.

Lemma loops_are_short_and_straight_witness :
  Forall (fun loop => length loop < 20 /\ straight loop = true /\
                      consecutive loop = true) manual_loops /\
  exists x w',
    test_pass_cell17 toy_net toy_nll toy_exp toy_trainset None toy_world = Ok x w' /\
    calls_made toy_world w' = body_calls cell17_test_pass_lines.
Proof.
  destruct (@loops_are_short_and_straight unit toy_net toy_nll toy_autograd
              sgd_data sgd_next toy_exp false toy_net_classes toy_trainset
              toy_world toy_world_quiet eq_refl)
    as (H1 & _ & _ & _ & _ & H2).
  split; [exact H1|exact (H2 None)].
Defined.

Lemma equals_after_view_is_elementwise_witness :
  exists broadcast,
    Tensor.eq (mkTensor [3; 1] [1; 4; 2]%Z) (mkTensor [3] [1; 3; 2]%Z) =
      inr broadcast /\
    shape broadcast = [3; 3].
Proof.
  destruct (@Tensor.equals_after_view_is_elementwise 3 [1; 4; 2]%Z [1; 3; 2]%Z
              eq_refl eq_refl) as [_ (r & H1 & H2 & _)].
  exists r. split; assumption.
Defined.

(** A dataset of the size of the MNIST training set. *)
Definition blank_image : list Q := repeat 0%Q 784.

Definition mnist_sized : list sample := repeat (blank_image, 0%Z) mnist_train_size.

Lemma mnist_sized_pixels : Forall (fun s => length (fst s) = 784) mnist_sized.
Proof.
  apply Forall_forall. intros s Hs. apply repeat_spec in Hs. subst s.
  apply repeat_length.
Qed.

Lemma mnist_sized_length : length mnist_sized = mnist_train_size.
Proof. apply repeat_length. Qed.

Lemma resize_keeps_pixels_and_pads_partial_batches_witness :
  length (hd [] (Loader.iterate toy_shuffle 0 mnist_sized)) = 64 /\
  length (last (Loader.iterate toy_shuffle 0 mnist_sized) []) = 32 /\
  (keeps_pixels (batch_tensor 28 28 partial_batch)
     (resize_ (fun _ => 0%Q) [64; 784] (batch_tensor 28 28 partial_batch)) <->
   length partial_batch * (28 * 28) <= 64 * 784).
Proof.
  destruct (@Tensor.resize_keeps_pixels_and_pads_partial_batches
              (fun _ => 0%Q) toy_shuffle toy_shuffle_perm 0 mnist_sized
              mnist_sized_pixels mnist_sized_length) as (H0 & _ & H1 & H2).
  split; [exact H1|split; [exact H2|]].
  destruct (H0 28 28 partial_batch partial_batch_pixels) as (H & _).
  exact H.
Defined.

(** The Part 3 cell run on the instance: five epochs of one batch each, so
    five backward passes and five steps, each on its own gradient. *)
Example toy_cell_part3_runs :
  let w' := final_world
              (cell_part3 toy_net toy_nll toy_autograd sgd_data sgd_next
                 toy_shuffle false toy_trainset toy_testset toy_world) in
  length (filter (fun en => event_eqb (ev en) EBackward) (trace w')) = 5 /\
  length (updates sgd_data (trace w')) = 5.
Proof. vm_compute. split; reflexivity. Qed.

(** *** The end-to-end theorems at the instance *)

Lemma toy_trainset_nonempty : toy_trainset <> [].
Proof. discriminate. Qed.

Lemma toy_net_plain : mode_independent toy_net.
Proof. intros p md x. reflexivity. Qed.

(** The forward pass of a test pass fails: the model stays in evaluation
    mode. *)
Lemma failed_test_pass_leaves_eval_mode_witness :
  outcome
    (fun w' : world unit => training (st w') = true)
    (fun w' : world unit => training (st w') = false)
    (test_pass_cell17 toy_net toy_nll toy_exp toy_trainset None
       (fresh_world [1%Q; 2%Q] tt 0 (failing_at 1 (External 7)))).
Proof.
  exact (@failed_test_pass_leaves_eval_mode unit toy_net toy_nll toy_exp
           toy_trainset None
           (fresh_world [1%Q; 2%Q] tt 0 (failing_at 1 (External 7)))).
Defined.

Lemma accuracy_lines_on_any_batch_witness :
  exists a w',
    batch_accuracy [[0; 1]; [1; 0]]%Q [1%Z; 1%Z] toy_world = Ok a w' /\
    (0 <= a <= 1)%Q.
Proof.
  destruct (@accuracy_lines_on_any_batch unit [[0; 1]; [1; 0]]%Q [1%Z; 1%Z]
              toy_world toy_world_quiet) as (H & _).
  - discriminate.
  - destruct H as (a & w' & H1 & _ & _ & H2).
    + repeat constructor; discriminate.
    + reflexivity.
    + exists a, w'. split; [exact H1|exact H2].
Defined.

Lemma epoch_prints_mean_batch_loss_witness :
  exists p w',
    epoch_part3 toy_net toy_nll toy_autograd sgd_data sgd_next toy_shuffle false
      toy_trainset toy_testset 0 tt toy_world = Ok tt w' /\
    printed w' = [[p]].
Proof.
  destruct (@epoch_prints_mean_batch_loss unit toy_net toy_nll toy_autograd
              sgd_data sgd_next toy_shuffle false toy_trainset toy_testset
              toy_shuffle_perm 0 toy_world toy_world_quiet eq_refl
              toy_trainset_nonempty)
    as (p & w' & H1 & H2 & _).
  exists p, w'. split; [exact H1|exact H2].
Defined.

Lemma training_cell_steps_once_per_batch_witness :
  exists w',
    cell_part3 toy_net toy_nll toy_autograd sgd_data sgd_next toy_shuffle false
      toy_trainset toy_testset toy_world = Ok tt w' /\
    length (printed w') = 5 /\
    length (updates sgd_data (trace w')) = 5.
Proof.
  destruct (@training_cell_steps_once_per_batch unit toy_net toy_nll toy_autograd
              sgd_data sgd_next toy_shuffle false toy_trainset toy_testset
              toy_shuffle_perm 5 toy_world toy_world_quiet eq_refl
              toy_trainset_nonempty)
    as (w' & H1 & H2 & H3 & _).
  exists w'. split; [exact H1|split; [exact H2|exact H3]].
Defined.

(** A model that arrives with a gradient left in its parameter. *)
Definition stale_torch : torch unit :=
  mkTorch [mkParam 1%Q (Some 5%Q)] tt true true 0.

Lemma part5_backward_always_on_clear_gradients_witness :
  Forall (gradients_in_order toy_autograd)
    (trace (final_world
              (cell13 toy_net toy_nll toy_autograd sgd_data sgd_next toy_exp
                 toy_shuffle false toy_trainset toy_testset
                 (mkWorld stale_torch 0 [] no_faults)))).
Proof.
  destruct (@part5_backward_always_on_clear_gradients unit toy_net toy_nll
              toy_autograd sgd_data sgd_next toy_exp toy_shuffle false
              toy_trainset toy_testset stale_torch no_faults eq_refl)
    as (H & _).
  exact H.
Defined.

Lemma single_step_raises_on_a_partial_batch_witness :
  exists w',
    single_step toy_net toy_nll toy_autograd false (fun _ => 0%Q) toy_trainset
      toy_world = Raised ValueError w' /\
    printed w' = [].
Proof.
  destruct (@single_step_raises_on_a_partial_batch unit toy_net toy_nll
              toy_autograd false (fun _ => 0%Q) toy_trainset toy_world
              toy_world_quiet)
    as (w' & H1 & _ & H2 & _).
  - cbn. lia.
  - exists w'. split; [exact H1|exact H2].
Defined.

Lemma mnist_sized_enough : 64 <= length mnist_sized.
Proof. rewrite mnist_sized_length. unfold mnist_train_size. lia. Qed.

Lemma single_step_uses_one_batch_gradient_witness :
  exists w' printed_before,
    part3_walkthrough toy_net toy_nll toy_autograd sgd_data sgd_next toy_shuffle
      false mnist_sized toy_testset (fun _ => 0%Q)
      (fresh_world [1%Q; 2%Q] tt 0 no_faults) = Ok tt w' /\
    printed w' = [] :: printed_before.
Proof.
  destruct (@single_step_uses_one_batch_gradient unit toy_net toy_nll toy_autograd
              sgd_data sgd_next toy_shuffle false mnist_sized toy_testset
              (fun _ => 0%Q) toy_shuffle_perm [1%Q; 2%Q] tt 0
              mnist_sized_enough mnist_sized_pixels)
    as (w' & H1 & H2).
  exists w'. eexists. split; [exact H1|exact H2].
Defined.

Lemma validation_sees_the_weights_after_training_witness :
  exists a w',
    epoch_cell13 toy_net toy_nll toy_autograd sgd_data sgd_next toy_exp toy_shuffle
      false toy_trainset toy_testset 0 tt toy_world = Ok tt w' /\
    printed w' = [[(a * 100)%Q]].
Proof.
  destruct (@validation_sees_the_weights_after_training unit toy_net toy_nll
              toy_autograd sgd_data sgd_next toy_exp toy_shuffle false
              toy_trainset toy_testset toy_net_classes toy_shuffle_perm 0
              toy_world toy_net_plain toy_world_quiet eq_refl
              toy_testset_nonempty)
    as (a & w' & H1 & H2 & _).
  exists a, w'. split; [exact H1|exact H2].
Defined.

Lemma epoch_report_of_the_dropout_cell_witness :
  exists train_acc test_acc w',
    epoch_cell17 toy_net toy_nll toy_autograd sgd_data sgd_next toy_exp toy_shuffle
      false toy_trainset toy_testset 3 ([], []) toy_world =
      Ok ([train_acc], [test_acc]) w' /\
    printed w' = [[3; train_acc; test_acc]]%Q.
Proof.
  destruct (@epoch_report_of_the_dropout_cell unit toy_net toy_nll toy_autograd
              sgd_data sgd_next toy_exp toy_shuffle false toy_trainset
              toy_testset toy_net_classes toy_shuffle_perm 3 ([], []) toy_world
              toy_world_quiet eq_refl toy_trainset_nonempty
              toy_testset_nonempty)
    as (train_acc & test_acc & w' & H1 & H2 & _).
  exists train_acc, test_acc, w'. split; [exact H1|exact H2].
Defined.

Lemma classifier_cell_reports_five_accuracies_witness :
  exists reports w',
    cell13 toy_net toy_nll toy_autograd sgd_data sgd_next toy_exp toy_shuffle false
      toy_trainset toy_testset toy_world = Ok tt w' /\
    printed w' = reports /\
    length reports = 5.
Proof.
  destruct (@classifier_cell_reports_five_accuracies unit toy_net toy_nll
              toy_autograd sgd_data sgd_next toy_exp toy_shuffle false
              toy_trainset toy_testset toy_net_classes toy_shuffle_perm
              toy_world toy_net_plain toy_world_quiet eq_refl
              toy_testset_nonempty)
    as (reports & w' & H1 & H2 & H3 & _).
  exists reports, w'. split; [exact H1|split; [exact H2|exact H3]].
Defined.

Lemma dropout_cell_reports_fifteen_accuracies_witness :
  exists train_accuracy test_accuracy w',
    cell17 toy_net toy_nll toy_autograd sgd_data sgd_next toy_exp toy_shuffle false
      toy_trainset toy_testset toy_world = Ok (train_accuracy, test_accuracy) w' /\
    length train_accuracy = 15 /\ length test_accuracy = 15.
Proof.
  destruct (@dropout_cell_reports_fifteen_accuracies unit toy_net toy_nll
              toy_autograd sgd_data sgd_next toy_exp toy_shuffle false
              toy_trainset toy_testset toy_net_classes toy_shuffle_perm
              toy_world toy_world_quiet eq_refl toy_trainset_nonempty
              toy_testset_nonempty)
    as (tr & te & w' & H1 & H2 & H3 & _).
  exists tr, te, w'. split; [exact H1|split; [exact H2|exact H3]].
Defined.

(** A model with ten outputs: class [k] is scored the first parameter times
    the first pixel, less [k]. *)
Definition ten_net (values : list Q) (md : mode) (x : list Q) : list Q :=
  map (fun k => (hd 0 values * hd 0 x - inject_Z (Z.of_nat k))%Q) (seq 0 10).

Lemma ten_net_ten (p : list Q) (md : mode) (x : list Q) :
  length (ten_net p md x) = 10.
Proof. reflexivity. Qed.

Lemma toy_testset_enough : 64 <= length toy_testset.
Proof. cbn. lia. Qed.

Lemma first_accuracy_cell_prints_witness :
  exists a w',
    cell_first_accuracy ten_net toy_exp toy_shuffle toy_trainset toy_testset
      toy_world = Ok tt w' /\
    (0 <= a <= 1)%Q /\
    length (hd [] (Loader.iterate toy_shuffle (rng (st toy_world)) toy_testset)) = 64.
Proof.
  destruct (@first_accuracy_cell_prints unit ten_net toy_exp toy_shuffle
              toy_trainset toy_testset toy_shuffle_perm ten_net_ten toy_world
              toy_world_quiet toy_testset_nonempty)
    as (a & w' & H1 & _ & _ & H2 & _ & H3).
  exists a, w'. split; [exact H1|split; [exact H2|exact (H3 toy_testset_enough)]].
Defined.

End Torch.
